(** * Blend de combustíveis: the genetic algorithm of [App.py]

    A shallow embedding of [AlgoritmoGenetico] and of the data it works on.

    - numpy's float64 values are idealised: a finite value is an exact
      rational (no rounding, no overflow), and the IEEE special values that
      numpy produces without raising (division by zero gives [inf] or
      [nan], [float('inf')] is the initial best cost) are kept as
      constructors of [num].  Zero is unsigned.
    - The arrays that stand for individuals and populations live in a heap
      of objects addressed by location, so that views ([populacao[i]]),
      copies ([.copy()]) and the in-place update of [mutacao]
      ([individuo[idx] += ...]) keep their aliasing.  An array that is only
      read once it is built (the draws, the mask, the fitness values, the
      indices of a tournament) is the list of its entries.
    - [np.random] is an abstract generator whose state is threaded through
      every draw.
    - Python exceptions are the [Raise] outcome of a computation; the
      [while] loop of [executar] runs on fuel, and [OutOfFuel] is the
      outcome of a loop that has used it up. *)

From Stdlib Require Import QArith Qabs Lqa Lia PrimFloat String.
From stdpp Require Import base option list.

Set Default Proof Using "Type".

(** ** Numbers *)

Inductive num : Type :=
  | Fin (q : Q)
  | PInf
  | NInf
  | NaN.

Definition Qltb (a b : Q) : bool :=
  match (a ?= b)%Q with Lt => true | _ => false end.

Definition Qleb (a b : Q) : bool :=
  match (a ?= b)%Q with Gt => false | _ => true end.

Definition inf_of (c : comparison) : num :=
  match c with Gt => PInf | Lt => NInf | Eq => NaN end.

(** Sign of a value that is not [NaN] ([NaN] is never passed). *)
Definition sgn (x : num) : comparison :=
  match x with
  | Fin q => (q ?= 0)%Q
  | PInf => Gt
  | NInf => Lt
  | NaN => Eq
  end.

Definition cmul (a b : comparison) : comparison :=
  match a, b with
  | Eq, _ | _, Eq => Eq
  | Gt, Gt | Lt, Lt => Gt
  | _, _ => Lt
  end.

Definition nopp (x : num) : num :=
  match x with
  | Fin q => Fin (- q)
  | PInf => NInf
  | NInf => PInf
  | NaN => NaN
  end.

Definition nadd (x y : num) : num :=
  match x, y with
  | NaN, _ | _, NaN => NaN
  | Fin a, Fin b => Fin (a + b)
  | PInf, NInf | NInf, PInf => NaN
  | PInf, _ | _, PInf => PInf
  | NInf, _ | _, NInf => NInf
  end.

Definition nsub (x y : num) : num := nadd x (nopp y).

Definition nmul (x y : num) : num :=
  match x, y with
  | NaN, _ | _, NaN => NaN
  | Fin a, Fin b => Fin (a * b)
  | _, _ => inf_of (cmul (sgn x) (sgn y))
  end.

(** [x / y] as numpy computes it: a zero divisor raises nothing, it gives
    [nan] for [0 / 0] and an infinity otherwise. *)
Definition ndiv (x y : num) : num :=
  match x, y with
  | NaN, _ | _, NaN => NaN
  | Fin a, Fin b => if Qeq_bool b 0 then inf_of (a ?= 0)%Q else Fin (a / b)
  | Fin _, _ => Fin 0
  | _, Fin b => if Qeq_bool b 0 then x else inf_of (cmul (sgn x) (b ?= 0)%Q)
  | _, _ => NaN
  end.

Definition nabs (x : num) : num :=
  match x with
  | Fin q => Fin (Qabs q)
  | PInf | NInf => PInf
  | NaN => NaN
  end.

(** [x < y]; every comparison with [nan] is false. *)
Definition nltb (x y : num) : bool :=
  match x, y with
  | NaN, _ | _, NaN => false
  | Fin a, Fin b => Qltb a b
  | NInf, NInf | PInf, _ | _, NInf => false
  | _, _ => true
  end.

(** [x <= y]. *)
Definition nleb (x y : num) : bool :=
  match x, y with
  | NaN, _ | _, NaN => false
  | Fin a, Fin b => Qleb a b
  | NInf, _ | _, PInf => true
  | _, _ => false
  end.

(** Equality of values, up to the representation of a rational. *)
Definition num_eq (x y : num) : Prop :=
  match x, y with
  | Fin a, Fin b => (a == b)%Q
  | PInf, PInf | NInf, NInf | NaN, NaN => True
  | _, _ => False
  end.

Definition num_eqb (x y : num) : bool :=
  match x, y with
  | Fin a, Fin b => Qeq_bool a b
  | PInf, PInf | NInf, NInf | NaN, NaN => true
  | _, _ => false
  end.

Definition is_nan (x : num) : bool :=
  match x with NaN => true | _ => false end.

Definition is_fin (x : num) : bool :=
  match x with Fin _ => true | _ => false end.

Declare Scope num_scope.
Delimit Scope num_scope with num.
Bind Scope num_scope with num.
Infix "+" := nadd : num_scope.
Infix "-" := nsub : num_scope.
Infix "*" := nmul : num_scope.
Infix "/" := ndiv : num_scope.
Infix "<?" := nltb : num_scope.
Infix "<=?" := nleb : num_scope.
Infix "==" := num_eq (at level 70, no associativity) : num_scope.

(** ** Outcomes of a computation *)

Inductive exn : Type :=
  | ValueError
  | IndexError
  | TypeError.

Inductive result (A : Type) : Type :=
  | Ok (a : A)
  | Raise (e : exn)
  | OutOfFuel.
Arguments Ok {A} a.
Arguments Raise {A} e.
Arguments OutOfFuel {A}.

#[global] Instance result_ret : MRet result := fun A a => Ok a.
#[global] Instance result_bind : MBind result := fun A B f c =>
  match c with
  | Ok a => f a
  | Raise e => Raise e
  | OutOfFuel => OutOfFuel
  end.

(** ** One-dimensional arrays, as values *)

Abbreviation vec := (list num) (only parsing).

(** [v.sum()] *)
Definition vsum (v : vec) : num := fold_left nadd v (Fin 0).

(** [v / s], a scalar divisor broadcast over the array *)
Definition vdiv (v : vec) (s : num) : vec := map (fun x => ndiv x s) v.

(** [np.abs(v)] *)
Definition vabs (v : vec) : vec := map nabs v.

(** [np.dot(a, b)] on one-dimensional arrays: the shapes must agree. *)
Definition np_dot (a b : vec) : result num :=
  if Nat.eqb (length a) (length b)
  then Ok (vsum (zip_with nmul a b))
  else Raise ValueError.

(** [np.argmin(v)]: the index of the first minimum, where a [nan] counts as
    the minimum and stops the scan (numpy tests [!(x >= min)]); an empty
    array raises. *)
Fixpoint argmin_from (best : nat) (bv : num) (i : nat) (v : vec) : nat :=
  match v with
  | [] => best
  | x :: v' =>
      if negb (nleb bv x)
      then if is_nan x then i else argmin_from i x (S i) v'
      else argmin_from best bv (S i) v'
  end.

Definition np_argmin (v : vec) : result nat :=
  match v with
  | [] => Raise ValueError
  | x :: v' => Ok (if is_nan x then 0 else argmin_from 0 x 1 v')
  end.

(** ** The component table and the specification *)

Record ComponenteDados : Type := {
  custos : vec;
  octanagem : vec;
  pressao_vapor : vec;
  teor_benzeno : vec;
  teor_enxofre : vec
}.

Definition ComponenteDados_init : ComponenteDados := {|
  custos := [Fin 2.50; Fin 3.00; Fin 1.80; Fin 2.80];
  octanagem := [Fin 95; Fin 88; Fin 85; Fin 92];
  pressao_vapor := [Fin 65; Fin 55; Fin 58; Fin 64];
  teor_benzeno := [Fin 2.5; Fin 1.5; Fin 1.2; Fin 2.0];
  teor_enxofre := [Fin 60; Fin 40; Fin 35; Fin 55]
|}.

Record Especificacoes : Type := {
  octanagem_min : num;
  pressao_vapor_max : num;
  benzeno_max : num;
  enxofre_max : num
}.

Definition Especificacoes_init : Especificacoes := {|
  octanagem_min := Fin 91;
  pressao_vapor_max := Fin 62;
  benzeno_max := Fin 2.0;
  enxofre_max := Fin 50
|}.

(** ** The instance *)

(** A location of the heap of arrays. *)
Abbreviation loc := nat (only parsing).

(** What a Python variable bound to a one-dimensional array holds: an array
    of its own, or the view [m[i]] of a row of a two-dimensional array. *)
Inductive ref : Type :=
  | ArrRef (l : loc)
  | RowRef (l : loc) (i : nat).

Record AlgoritmoGenetico : Type := {
  tamanho_pop : nat;
  taxa_crossover : num;
  taxa_mutacao : num;
  geracoes : nat;
  torneio_k : nat;
  componentes : ComponenteDados;
  specs : Especificacoes;
  historico_custos : list num;
  melhor_solucao : option ref;
  melhor_custo : num
}.

(** [AlgoritmoGenetico.__init__] *)
Definition AlgoritmoGenetico_init
    (tamanho_pop : nat) (taxa_crossover taxa_mutacao : num)
    (geracoes torneio_k : nat) : AlgoritmoGenetico := {|
  tamanho_pop := tamanho_pop;
  taxa_crossover := taxa_crossover;
  taxa_mutacao := taxa_mutacao;
  geracoes := geracoes;
  torneio_k := torneio_k;
  componentes := ComponenteDados_init;
  specs := Especificacoes_init;
  historico_custos := [];
  melhor_solucao := None;
  melhor_custo := PInf
|}.

(** The module constants. *)
Definition TAMANHO_POPULACAO : nat := 100.
Definition TAXA_CROSSOVER : num := Fin 0.7.
Definition TAXA_MUTACAO : num := Fin 0.01.
Definition NUM_GERACOES : nat := 100.
Definition TORNEIO_K : nat := 3.

(** ** Properties, cost, penalties and fitness *)

Definition calcular_propriedades (self : AlgoritmoGenetico) (individuo : vec)
    : result (num * num * num * num) :=
  oct ← np_dot individuo (octanagem (componentes self));
  pres ← np_dot individuo (pressao_vapor (componentes self));
  benz ← np_dot individuo (teor_benzeno (componentes self));
  enx ← np_dot individuo (teor_enxofre (componentes self));
  mret (oct, pres, benz, enx).

Definition calcular_custo (self : AlgoritmoGenetico) (individuo : vec)
    : result num :=
  np_dot individuo (custos (componentes self)).

Definition calcular_penalidades (self : AlgoritmoGenetico) (individuo : vec)
    : result num :=
  '(oct, pres, benz, enx) ← calcular_propriedades self individuo;
  let penalidade := Fin 0 in
  let penalidade :=
    if (oct <? octanagem_min (specs self))%num
    then (penalidade + Fin 100 * (octanagem_min (specs self) - oct))%num
    else penalidade in
  let penalidade :=
    if (pressao_vapor_max (specs self) <? pres)%num
    then (penalidade + Fin 50 * (pres - pressao_vapor_max (specs self)))%num
    else penalidade in
  let penalidade :=
    if (benzeno_max (specs self) <? benz)%num
    then (penalidade + Fin 200 * (benz - benzeno_max (specs self)))%num
    else penalidade in
  let penalidade :=
    if (enxofre_max (specs self) <? enx)%num
    then (penalidade + Fin 150 * (enx - enxofre_max (specs self)))%num
    else penalidade in
  mret penalidade.

Definition fitness (self : AlgoritmoGenetico) (individuo : vec) : result num :=
  custo ← calcular_custo self individuo;
  pen ← calcular_penalidades self individuo;
  mret (custo + pen)%num.

(** ** What the specification says of the penalty *)

(** A property of the blend: the sum, over the four components, of the
    proportion of the component times its value. *)
Definition mistura_spec (individuo valores : vec) : num :=
  match individuo, valores with
  | [x1; x2; x3; x4], [c1; c2; c3; c4] =>
      (Fin 0 + x1 * c1 + x2 * c2 + x3 * c3 + x4 * c4)%num
  | _, _ => NaN
  end.

(** [max(0, x)] *)
Definition max0 (x : num) : num := if (Fin 0 <? x)%num then x else Fin 0.

(** The weighted sum of the four violation magnitudes. *)
Definition penalty_spec (sp : Especificacoes) (oct pres benz enx : num) : num :=
  (Fin 100 * max0 (octanagem_min sp - oct)
   + Fin 50 * max0 (pres - pressao_vapor_max sp)
   + Fin 200 * max0 (benz - benzeno_max sp)
   + Fin 150 * max0 (enx - enxofre_max sp))%num.

(** The four thresholds are met (the test of [imprimir_resultados]). *)
Definition atende (sp : Especificacoes) (oct pres benz enx : num) : bool :=
  (octanagem_min sp <=? oct)%num && (pres <=? pressao_vapor_max sp)%num
  && (benz <=? benzeno_max sp)%num && (enx <=? enxofre_max sp)%num.

(** ** The heap of arrays *)

Inductive obj : Type :=
  | Arr1 (v : vec)
  | Arr2 (rows : list vec).

Definition heap_read (h : list obj) (r : ref) : result vec :=
  match r with
  | ArrRef l =>
      match h !! l with
      | Some (Arr1 v) => Ok v
      | _ => Raise TypeError
      end
  | RowRef l i =>
      match h !! l with
      | Some (Arr2 rows) =>
          match rows !! i with
          | Some v => Ok v
          | None => Raise IndexError
          end
      | _ => Raise TypeError
      end
  end.

(** Writing through a reference changes the object it points into. *)
Definition heap_write (h : list obj) (r : ref) (v : vec) : list obj :=
  match r with
  | ArrRef l => <[l := Arr1 v]> h
  | RowRef l i =>
      match h !! l with
      | Some (Arr2 rows) => <[l := Arr2 (<[i := v]> rows)]> h
      | _ => h
      end
  end.

(** [len(m)] of a two-dimensional array *)
Definition heap_len (h : list obj) (l : loc) : result nat :=
  match h !! l with
  | Some (Arr2 rows) => Ok (length rows)
  | _ => Raise TypeError
  end.

Definition heap_rows (h : list obj) (l : loc) : result (list vec) :=
  match h !! l with
  | Some (Arr2 rows) => Ok rows
  | _ => Raise TypeError
  end.

(** ** The random source *)

(** [np.random]: a generator state and the three kinds of draw the program
    makes. *)
Class RandomSource (G : Type) : Type := {
  random : G -> Q * G;
  randint : nat -> G -> nat * G;
  normal : Q -> Q -> G -> Q * G;
  random_range : forall g, (0 <= (random g).1)%Q /\ ((random g).1 < 1)%Q;
  randint_range : forall n g, (0 < n)%nat -> ((randint n g).1 < n)%nat
}.

(** Python's [a[i]] on a list or an index array. *)
Definition getitem {A : Type} (l : list A) (i : nat) : result A :=
  match l !! i with
  | Some x => Ok x
  | None => Raise IndexError
  end.

(** [a[idx]] with an array of indices. *)
Definition take_idx {A : Type} (l : list A) (idx : list nat) : result (list A) :=
  mapM (getitem l) idx.

(** An operand of [np.where] is broadcast against a mask of [n >= 2]
    entries: it has [n] entries or one. *)
Definition broadcast (n : nat) (v : vec) : result vec :=
  if Nat.eqb (length v) n then Ok v
  else match v with
       | [x] => Ok (replicate n x)
       | _ => Raise ValueError
       end.

(** One entry of [np.where]: that of the first operand where the mask
    holds. *)
Definition escolher (m : bool) (x y : num) : num := if m then x else y.

(** [np.where(mascara, a, b)] *)
Definition np_where (mascara : list bool) (a b : vec) : result vec :=
  a' ← broadcast (length mascara) a;
  b' ← broadcast (length mascara) b;
  mret (zip_with (fun m xy => escolher m xy.1 xy.2) mascara (zip a' b')).

(** The rows have the length of the first. *)
Definition mesmo_tamanho (rows : list vec) : bool :=
  match rows with
  | [] => true
  | r :: rows' => forallb (fun r' => Nat.eqb (length r') (length r)) rows'
  end.

Section Algoritmo.
Context {G : Type} `{RandomSource G}.

(** The state a computation runs in: the generator and the heap. *)
Record mundo : Type := Mundo {
  gen : G;
  heap : list obj
}.

(** A computation: it reads and changes the state, and returns, raises or
    runs out of fuel. *)
Definition M (A : Type) : Type := mundo -> result (A * mundo).

#[global] Instance M_ret : MRet M := fun A a s => Ok (a, s).
#[global] Instance M_bind : MBind M := fun A B f c s =>
  match c s with
  | Ok (a, s') => f a s'
  | Raise e => Raise e
  | OutOfFuel => OutOfFuel
  end.

Definition lift {A : Type} (c : result A) : M A := fun s =>
  match c with
  | Ok a => Ok (a, s)
  | Raise e => Raise e
  | OutOfFuel => OutOfFuel
  end.

Definition out_of_fuel {A : Type} : M A := fun _ => OutOfFuel.

(** [np.random.random()] *)
Definition np_random_random : M num := fun s =>
  let '(u, g) := random (gen s) in Ok (Fin u, Mundo g (heap s)).

(** [np.random.randint(n)] *)
Definition np_random_randint (n : nat) : M nat := fun s =>
  if Nat.eqb n 0 then Raise ValueError
  else let '(i, g) := randint n (gen s) in Ok (i, Mundo g (heap s)).

(** [np.random.normal(mu, sigma)] *)
Definition np_random_normal (mu sigma : Q) : M num := fun s =>
  let '(x, g) := normal mu sigma (gen s) in Ok (Fin x, Mundo g (heap s)).

(** [n] runs of [c], one after the other. *)
Fixpoint replicateM {A : Type} (n : nat) (c : M A) : M (list A) :=
  match n with
  | O => mret []
  | S n' => x ← c; xs ← replicateM n' c; mret (x :: xs)
  end.

(** [np.random.random(n)] *)
Definition np_random_random_n (n : nat) : M vec := replicateM n np_random_random.

(** [np.random.choice(n, k)]: [k] indices below [n], drawn with
    replacement. *)
Definition np_random_choice (n k : nat) : M (list nat) :=
  if Nat.eqb n 0 && negb (Nat.eqb k 0) then lift (Raise ValueError)
  else replicateM k (np_random_randint n).

(** A new object, at the end of the heap. *)
Definition alloc (o : obj) : M loc := fun s =>
  Ok (length (heap s), Mundo (gen s) (heap s ++ [o])).

Definition read (r : ref) : M vec := fun s =>
  lift (heap_read (heap s) r) s.

(** [r.copy()] *)
Definition copy (r : ref) : M ref :=
  v ← read r; l ← alloc (Arr1 v); mret (ArrRef l).

(** [r[idx] += x], in place. *)
Definition setitem_add (r : ref) (idx : nat) (x : num) : M unit := fun s =>
  match heap_read (heap s) r with
  | Ok v =>
      match v !! idx with
      | Some y => Ok ((), Mundo (gen s) (heap_write (heap s) r (<[idx := (y + x)%num]> v)))
      | None => Raise IndexError
      end
  | Raise e => Raise e
  | OutOfFuel => OutOfFuel
  end.

Definition len (l : loc) : M nat := fun s => lift (heap_len (heap s) l) s.

Definition rows_of (l : loc) : M (list vec) := fun s =>
  lift (heap_rows (heap s) l) s.

(** [np.array(rs)] of a list of one-dimensional arrays: a new
    two-dimensional array holding their values; rows of different lengths
    raise. *)
Definition np_array (rs : list ref) : M loc :=
  rows ← mapM read rs;
  if mesmo_tamanho rows then alloc (Arr2 rows) else lift (Raise ValueError).

(** *** Individuals and the population *)

Definition criar_individuo : M ref :=
  proporcoes ← np_random_random_n 4;
  l ← alloc (Arr1 (vdiv proporcoes (vsum proporcoes)));
  mret (ArrRef l).

Definition criar_populacao (self : AlgoritmoGenetico) : M loc :=
  inds ← replicateM (tamanho_pop self) criar_individuo;
  np_array inds.

(** *** The genetic operators *)

Definition selecao_torneio (self : AlgoritmoGenetico) (populacao : loc)
    (fitness_values : vec) : M ref :=
  n ← len populacao;
  idx ← np_random_choice n (torneio_k self);
  sub ← lift (take_idx fitness_values idx);
  j ← lift (np_argmin sub);
  melhor_idx ← lift (getitem idx j);
  copy (RowRef populacao melhor_idx).

Definition crossover (self : AlgoritmoGenetico) (pai1 pai2 : ref) : M ref :=
  u ← np_random_random;
  if (u <? taxa_crossover self)%num then
    sorteio ← np_random_random_n 4;
    let mascara := map (fun d => (d <? Fin 0.5)%num) sorteio in
    v1 ← read pai1;
    v2 ← read pai2;
    filho ← lift (np_where mascara v1 v2);
    l ← alloc (Arr1 (vdiv filho (vsum filho)));
    mret (ArrRef l)
  else copy pai1.

Definition mutacao (self : AlgoritmoGenetico) (individuo : ref) : M ref :=
  u ← np_random_random;
  if (u <? taxa_mutacao self)%num then
    idx ← np_random_randint 4;
    ruido ← np_random_normal 0 0.1;
    setitem_add individuo idx ruido;;
    v ← read individuo;
    let a := vabs v in
    l ← alloc (Arr1 (vdiv a (vsum a)));
    mret (ArrRef l)
  else mret individuo.

(** *** The run *)

(** [self.historico_custos.append(melhor_fitness)] *)
Definition registrar (self : AlgoritmoGenetico) (melhor_fitness : num)
    : AlgoritmoGenetico := {|
  tamanho_pop := tamanho_pop self;
  taxa_crossover := taxa_crossover self;
  taxa_mutacao := taxa_mutacao self;
  geracoes := geracoes self;
  torneio_k := torneio_k self;
  componentes := componentes self;
  specs := specs self;
  historico_custos := historico_custos self ++ [melhor_fitness];
  melhor_solucao := melhor_solucao self;
  melhor_custo := melhor_custo self
|}.

(** [self.melhor_custo = custo; self.melhor_solucao = solucao] *)
Definition atualizar_melhor (self : AlgoritmoGenetico) (custo : num)
    (solucao : ref) : AlgoritmoGenetico := {|
  tamanho_pop := tamanho_pop self;
  taxa_crossover := taxa_crossover self;
  taxa_mutacao := taxa_mutacao self;
  geracoes := geracoes self;
  torneio_k := torneio_k self;
  componentes := componentes self;
  specs := specs self;
  historico_custos := historico_custos self;
  melhor_solucao := Some solucao;
  melhor_custo := custo
|}.

(** The body of the [while] loop: one offspring. *)
Definition gerar_filho (self : AlgoritmoGenetico) (populacao : loc)
    (fitness_values : vec) : M ref :=
  pai1 ← selecao_torneio self populacao fitness_values;
  pai2 ← selecao_torneio self populacao fitness_values;
  filho ← crossover self pai1 pai2;
  mutacao self filho.

(** [while len(nova_populacao) < self.tamanho_pop: ...]; every test of the
    condition takes one unit of fuel. *)
Fixpoint encher (fuel : nat) (self : AlgoritmoGenetico) (populacao : loc)
    (fitness_values : vec) (nova_populacao : list ref) : M (list ref) :=
  match fuel with
  | O => out_of_fuel
  | S fuel' =>
      if Nat.ltb (length nova_populacao) (tamanho_pop self) then
        filho ← gerar_filho self populacao fitness_values;
        encher fuel' self populacao fitness_values (nova_populacao ++ [filho])
      else mret nova_populacao
  end.

(** The body of the [for] loop: one generation.  The progress line printed
    every tenth generation is left out. *)
Definition geracao (self : AlgoritmoGenetico) (populacao : loc)
    : M (AlgoritmoGenetico * loc) :=
  inds ← rows_of populacao;
  fitness_values ← lift (mapM (fitness self) inds);
  melhor_idx ← lift (np_argmin fitness_values);
  melhor_fitness ← lift (getitem fitness_values melhor_idx);
  let self := registrar self melhor_fitness in
  self ← (if (melhor_fitness <? melhor_custo self)%num then
            solucao ← copy (RowRef populacao melhor_idx);
            mret (atualizar_melhor self melhor_fitness solucao)
          else mret self);
  elite ← copy (RowRef populacao melhor_idx);
  nova_populacao ← encher (S (tamanho_pop self)) self populacao fitness_values [elite];
  populacao' ← np_array nova_populacao;
  mret (self, populacao').

(** [for geracao in range(self.geracoes): ...] *)
Fixpoint laco (range : list nat) (self : AlgoritmoGenetico) (populacao : loc)
    : M (AlgoritmoGenetico * loc) :=
  match range with
  | [] => mret (self, populacao)
  | _ :: range' =>
      '(self', populacao') ← geracao self populacao;
      laco range' self' populacao'
  end.

(** [executar] returns the pair [(melhor_solucao, melhor_custo)]; the
    instance it has updated is returned with it. *)
Definition executar (self : AlgoritmoGenetico)
    : M (option ref * num * AlgoritmoGenetico) :=
  populacao ← criar_populacao self;
  '(self', _) ← laco (seq 0 (geracoes self)) self populacao;
  mret (melhor_solucao self', melhor_custo self', self').

End Algoritmo.

(** ** What the specification says of a candidate *)

Definition nao_negativo (v : vec) : Prop :=
  Forall (fun x => (Fin 0 <=? x)%num = true) v.

(** Four non-negative proportions that sum to 1. *)
Definition valido (v : vec) : Prop :=
  length v = 4%nat /\ nao_negativo v /\ (vsum v == Fin 1)%num.

(** Four non-negative proportions whose sum is within 1e-9 of 1. *)
Definition tolerancia (v : vec) : Prop :=
  length v = 4%nat /\ nao_negativo v /\
  exists q, vsum v = Fin q /\ (Qabs (q - 1) <= 1 # 1000000000)%Q.

(** What dividing a zero vector by its zero sum gives. *)
Definition nan4 : vec := [NaN; NaN; NaN; NaN].

(** A finite, non-negative value. *)
Definition fin_nneg (x : num) : Prop := exists q, x = Fin q /\ (0 <= q)%Q.

(** [m] is the minimum of the values of [hist]. *)
Definition minimo (m : num) (hist : list num) : Prop :=
  In m hist /\ Forall (fun x => (m <=? x)%num = true) hist.

(** The values of [hist] that are not [nan]. *)
Definition sem_nan (hist : list num) : list num :=
  List.filter (fun x => negb (is_nan x)) hist.

(** The index of the best of the values of [v], in words: that of the first
    [nan] when there is one, and otherwise that of the first of the lowest
    values. *)
Definition primeiro_minimo (v : vec) (j : nat) : Prop :=
  exists y, v !! j = Some y /\
    (forall i x, (i < j)%nat -> v !! i = Some x ->
                 x <> NaN /\ (y <> NaN -> (y <? x)%num = true)) /\
    (y <> NaN -> Forall (fun x => (y <=? x)%num = true) v).

(** ** Predicates on tables, heaps and instances *)

(** The columns of the table have one entry per component. *)
Definition tabela_ok (c : ComponenteDados) : Prop :=
  length (custos c) = 4%nat /\ length (octanagem c) = 4%nat /\
  length (pressao_vapor c) = 4%nat /\ length (teor_benzeno c) = 4%nat /\
  length (teor_enxofre c) = 4%nat.

(** A draw of [np.random.random()]: a finite value of [[0, 1)]. *)
Definition unitario (x : num) : Prop :=
  exists u, x = Fin u /\ (0 <= u)%Q /\ (u < 1)%Q.

(** The location of the object a reference points into. *)
Definition base (r : ref) : loc :=
  match r with ArrRef l | RowRef l _ => l end.

(** The population [populacao] points to: a two-dimensional array of
    [n] rows of four entries. *)
Definition populacao_ok (n : nat) (h : list obj) (populacao : loc)
    (rows : list vec) : Prop :=
  h !! populacao = Some (Arr2 rows) /\ length rows = n /\
  Forall (fun v => length v = 4%nat) rows.

(** A reference to an array of four entries. *)
Definition le4 (h : list obj) (r : ref) : Prop :=
  exists v, heap_read h r = Ok v /\ length v = 4%nat.

(** [b] has the hyperparameters, the table and the thresholds of [a]. *)
Definition mesma_config (a b : AlgoritmoGenetico) : Prop :=
  tamanho_pop b = tamanho_pop a /\ taxa_crossover b = taxa_crossover a /\
  taxa_mutacao b = taxa_mutacao a /\ geracoes b = geracoes a /\
  torneio_k b = torneio_k a /\ componentes b = componentes a /\
  specs b = specs a.

(** How the best cost [m'] recorded after some generations stands to the
    best cost [m] recorded before them and to the bests [hs] of these
    generations: it is one of these values, none of the generations' bests
    is strictly below it, and it has not gone up. *)
Definition acompanha (m : num) (hs : list num) (m' : num) : Prop :=
  In m' (m :: hs) /\ Forall (fun x => (x <? m')%num = false) hs /\
  (m' = m \/ (m' <? m)%num = true).

(** [x] is [w] divided by its sum: a candidate, unless the sum is zero, and
    four [nan] when it is. *)
Definition renormalizado (w x : vec) : Prop :=
  x = vdiv w (vsum w) /\
  (~ (vsum w == Fin 0)%num -> valido x /\ tolerancia x) /\
  ((vsum w == Fin 0)%num -> x = nan4).

Section Especificacao.
Context {G : Type} `{RandomSource G}.

(** [c] run in [s] returns a value and a state that satisfy [Q]: it does
    not raise and does not run out of fuel. *)
Definition returns {A : Type} (c : @M G A) (s : @mundo G)
    (Q : A -> @mundo G -> Prop) : Prop :=
  exists a s', c s = Ok (a, s') /\ Q a s'.

(** What one generation does to the instance, to the population and to the
    heap. *)
Definition geracao_post (self : AlgoritmoGenetico) (populacao : loc)
    (rows : list vec) (s : @mundo G) (res : AlgoritmoGenetico * loc)
    (s' : @mundo G) : Prop :=
  exists fit j mf vj rows' sa filhos sb,
    mapM (fitness self) rows = Ok fit /\ np_argmin fit = Ok j /\
    fit !! j = Some mf /\ rows !! j = Some vj /\
    Forall (fun x => (x <? mf)%num = false) fit /\
    historico_custos res.1 = historico_custos self ++ [mf] /\
    melhor_custo res.1
      = (if (mf <? melhor_custo self)%num then mf else melhor_custo self) /\
    (if (mf <? melhor_custo self)%num
     then exists r, melhor_solucao res.1 = Some r /\
                    heap_read (heap s') r = Ok vj
     else melhor_solucao res.1 = melhor_solucao self) /\
    mesma_config self res.1 /\
    populacao_ok (tamanho_pop self) (heap s') res.2 rows' /\
    heap s `prefix_of` heap s' /\
    rows' !! 0%nat = Some vj /\
    gen sa = gen s /\
    heap sa = heap s ++ (if (mf <? melhor_custo self)%num
                         then [Arr1 vj; Arr1 vj] else [Arr1 vj]) /\
    replicateM (tamanho_pop self - 1) (gerar_filho res.1 populacao fit) sa
      = Ok (filhos, sb) /\
    res.2 = length (heap sb) /\ heap s' = heap sb ++ [Arr2 rows'] /\
    gen s' = gen sb /\
    Forall2 (fun r v => heap_read (heap sb) r = Ok v) filhos (tail rows').

(** An offspring, as the specification has it: two tournaments, the
    crossover of the two individuals they return, in this order, and the
    mutation of the child. *)
Definition filho_spec (self : AlgoritmoGenetico) (populacao : loc)
    (fitness_values : vec) (s : @mundo G) (r : ref) (s' : @mundo G) : Prop :=
  exists pai1 s1 pai2 s2 filho s3,
    selecao_torneio self populacao fitness_values s = Ok (pai1, s1) /\
    selecao_torneio self populacao fitness_values s1 = Ok (pai2, s2) /\
    crossover self pai1 pai2 s2 = Ok (filho, s3) /\
    mutacao self filho s3 = Ok (r, s').

(** The offspring [filhos], produced one after the other. *)
Fixpoint prole_spec (self : AlgoritmoGenetico) (populacao : loc)
    (fitness_values : vec) (filhos : list ref) (s s' : @mundo G) : Prop :=
  match filhos with
  | [] => s' = s
  | r :: filhos' =>
      exists s1, filho_spec self populacao fitness_values s r s1 /\
                 prole_spec self populacao fitness_values filhos' s1 s'
  end.

End Especificacao.

(** ** A scripted random source

    The draws are read off three tapes, one per kind of draw; a value that
    is out of range for its draw is brought into range, and an exhausted
    tape keeps giving the same value. *)

Record fita : Type := Fita {
  uniformes : list Q;
  inteiros : list nat;
  normais : list Q
}.

Definition no_intervalo (u : Q) : Q :=
  if Qleb 0 u && Qltb u 1 then u else (1 # 2)%Q.

Definition fita_random (g : fita) : Q * fita :=
  (no_intervalo (hd (1 # 2)%Q (uniformes g)),
   Fita (tl (uniformes g)) (inteiros g) (normais g)).

Definition fita_randint (n : nat) (g : fita) : nat * fita :=
  (hd 0%nat (inteiros g) mod n,
   Fita (uniformes g) (tl (inteiros g)) (normais g)).

Definition fita_normal (mu sigma : Q) (g : fita) : Q * fita :=
  ((mu + sigma * hd 0%Q (normais g))%Q,
   Fita (uniformes g) (inteiros g) (tl (normais g))).

(** ** Instances, candidates and states to run the program on *)

(** The instance that the script creates. *)
Definition ga_padrao : AlgoritmoGenetico :=
  AlgoritmoGenetico_init TAMANHO_POPULACAO TAXA_CROSSOVER TAXA_MUTACAO
    NUM_GERACOES TORNEIO_K.

(** Two individuals, two generations, tournaments of two. *)
Definition ga_pequeno : AlgoritmoGenetico :=
  AlgoritmoGenetico_init 2 TAXA_CROSSOVER TAXA_MUTACAO 2 2.

(** The same with a crossover rate of 0, and with a mutation rate of 1. *)
Definition ga_sem_crossover : AlgoritmoGenetico :=
  AlgoritmoGenetico_init 2 (Fin 0) TAXA_MUTACAO 2 2.

Definition ga_toda_mutacao : AlgoritmoGenetico :=
  AlgoritmoGenetico_init 2 TAXA_CROSSOVER (Fin 1) 2 2.

(** A quarter of each component. *)
Definition blend_igual : vec := [Fin 0.25; Fin 0.25; Fin 0.25; Fin 0.25].

(** The first component alone, and the second alone. *)
Definition puro1 : vec := [Fin 1; Fin 0; Fin 0; Fin 0].
Definition puro2 : vec := [Fin 0; Fin 1; Fin 0; Fin 0].

(** The draw 0 is below the crossover rate; of the four draws of the mask
    only the first is not below 0.5. *)
Definition mundo_cruzamento : @mundo fita :=
  Mundo (Fita [0; 1 # 2; 0; 0; 0]%Q [] []) [Arr1 puro1; Arr1 puro2].

(** The draw 0 is below the mutation rate, the index drawn is 0 and the
    noise is [0 + 0.1 * -10 = -1]. *)
Definition mundo_mutacao : @mundo fita :=
  Mundo (Fita [0]%Q [0%nat] [(-10)%Q]) [Arr1 puro1].

(** A population of two, and the index 0 drawn twice. *)
Definition mundo_torneio : @mundo fita :=
  Mundo (Fita [] [0%nat; 0%nat] []) [Arr2 [puro1; puro2]].

(** An empty heap, and the draws of two individuals. *)
Definition mundo_inicial : @mundo fita :=
  Mundo (Fita [1 # 10; 2 # 10; 3 # 10; 4 # 10;
               4 # 10; 3 # 10; 2 # 10; 1 # 10]%Q [] []) [].

(** The fitness of [puro1] and of [puro2]. *)
Definition fitness_puros : vec := [Fin 1752.5; Fin 303].

(** A population of two and three arrays beside it. *)
Definition mundo_operadores : @mundo fita :=
  Mundo (Fita [] [] [])
    [Arr2 [puro1; puro2]; Arr1 puro1; Arr1 puro2; Arr1 puro1].

(** The two individuals drawn in turn, the first and then the second. *)
Definition mundo_torneio_ambos : @mundo fita :=
  Mundo (Fita [] [0%nat; 1%nat] []) [Arr2 [puro1; puro2]].

(** Three individuals, three generations, tournaments of three. *)
Definition ga_tres : AlgoritmoGenetico :=
  AlgoritmoGenetico_init 3 TAXA_CROSSOVER TAXA_MUTACAO 3 3.

(** A population of three whose second row is made of [nan], its fitness
    values, and the three individuals drawn in turn. *)
Definition fitness_com_nan : vec := [Fin 1752.5; NaN; Fin 303].

Definition mundo_torneio_nan : @mundo fita :=
  Mundo (Fita [] [0%nat; 1%nat; 2%nat] []) [Arr2 [puro1; nan4; puro2]].

(** An empty heap, and draws that are all zero while the two individuals
    of a population are created, twice; the four draws in between are the
    two of each of the two generations of the first run. *)
Definition mundo_zeros : @mundo fita :=
  Mundo (Fita (replicate 8 0 ++ replicate 4 (3 # 4) ++ replicate 8 0)%Q
           [] []) [].

(** An empty heap, and the draws of two individuals, zero for the
    second. *)
Definition mundo_meio_nan : @mundo fita :=
  Mundo (Fita [1 # 10; 2 # 10; 3 # 10; 4 # 10; 0; 0; 0; 0]%Q [] []) [].

(** ** More on the evaluation *)

(** The table and the thresholds are those [__init__] sets. *)
Definition padrao (self : AlgoritmoGenetico) : Prop :=
  componentes self = ComponenteDados_init /\ specs self = Especificacoes_init.

(** What a threshold [lim] adds to the penalty of a finite value [x], with
    the weight [w]: for a minimum, and for a maximum. *)
Definition falta (w lim x : Q) : Q :=
  if Qltb x lim then (w * (lim - x))%Q else 0%Q.

Definition excesso (w lim x : Q) : Q :=
  if Qltb lim x then (w * (x - lim))%Q else 0%Q.

(** A blend that meets the four thresholds, near the cheapest of these. *)
Definition blend_proximo : vec :=
  [Fin 0.5882; Fin 0.0394; Fin 0.3724; Fin 0].

(** *** The end of the report

    [imprimir_resultados] from the line [Verificação de Restrições] to the
    verdict, as the lines it prints and the final value of [atende]; the
    lines above them format numbers and are left out. *)
Definition verificar_restricoes (sp : Especificacoes)
    (oct pres benz enx : num) : list string * bool :=
  let saida := [EmptyString; "Verificação de Restrições:"]%string in
  let atende := true in
  let '(saida, atende) :=
    if (octanagem_min sp <=? oct)%num
    then (saida ++ ["  ✓ Octanagem: ATENDE"%string], atende)
    else (saida ++ ["  ✗ Octanagem: NÃO ATENDE"%string], false) in
  let '(saida, atende) :=
    if (pres <=? pressao_vapor_max sp)%num
    then (saida ++ ["  ✓ Pressão de Vapor: ATENDE"%string], atende)
    else (saida ++ ["  ✗ Pressão de Vapor: NÃO ATENDE"%string], false) in
  let '(saida, atende) :=
    if (benz <=? benzeno_max sp)%num
    then (saida ++ ["  ✓ Teor de Benzeno: ATENDE"%string], atende)
    else (saida ++ ["  ✗ Teor de Benzeno: NÃO ATENDE"%string], false) in
  let '(saida, atende) :=
    if (enx <=? enxofre_max sp)%num
    then (saida ++ ["  ✓ Teor de Enxofre: ATENDE"%string], atende)
    else (saida ++ ["  ✗ Teor de Enxofre: NÃO ATENDE"%string], false) in
  if atende
  then (saida ++ [EmptyString; "  ✓ TODAS AS ESPECIFICAÇÕES FORAM ATENDIDAS!"]%string,
        atende)
  else (saida ++ [EmptyString; "  ✗ Algumas especificações não foram atendidas"]%string,
        atende).

(** ** Instances at the edges *)

(** No generation; no individual; tournaments of no individual; one
    individual alone, with three generations. *)
Definition ga_sem_geracoes : AlgoritmoGenetico :=
  AlgoritmoGenetico_init 2 TAXA_CROSSOVER TAXA_MUTACAO 0 2.

Definition ga_vazio : AlgoritmoGenetico :=
  AlgoritmoGenetico_init 0 TAXA_CROSSOVER TAXA_MUTACAO 2 2.

Definition ga_sem_torneio : AlgoritmoGenetico :=
  AlgoritmoGenetico_init 2 TAXA_CROSSOVER TAXA_MUTACAO 2 0.

Definition ga_um : AlgoritmoGenetico :=
  AlgoritmoGenetico_init 1 TAXA_CROSSOVER TAXA_MUTACAO 3 0.

(** ** What a population holds *)

(** A row of a population: a candidate, or the four [nan] of a zero sum. *)
Definition candidato (v : vec) : Prop := valido v \/ v = nan4.

(** [y] does not exceed [x], or is [nan]. *)
Definition desce (x y : num) : Prop := (y <=? x)%num = true \/ y = NaN.

(** Every value of [hs] but the first stands in [desce] to the one
    before it. *)
Definition cadeia (hs : list num) : Prop :=
  forall i x y, hs !! i = Some x -> hs !! S i = Some y -> desce x y.

(** [x] is the fitness of a row that a population may hold. *)
Definition registrado (self : AlgoritmoGenetico) (x : num) : Prop :=
  exists v, candidato v /\ fitness self v = Ok x.

(** The best solution of the instance, when there is one, is an array of
    the heap that holds a candidate whose fitness is the best cost. *)
Definition melhor_ok (self : AlgoritmoGenetico) (h : list obj) : Prop :=
  match melhor_solucao self with
  | Some r =>
      exists v, heap_read h r = Ok v /\ valido v /\
                fitness self v = Ok (melhor_custo self)
  | None => True
  end.

(** Two arrays that hold the equal blend, and the draws of
    [mundo_cruzamento]. *)
Definition mundo_gemeos : @mundo fita :=
  Mundo (Fita [0; 1 # 2; 0; 0; 0]%Q [] []) [Arr1 blend_igual; Arr1 blend_igual].

(** ** The evaluation in binary64

    The same dot products, cost, penalty and fitness on IEEE 754 doubles,
    the products being accumulated from left to right, to check a value of
    the idealised model against the arithmetic numpy runs. *)
Module Binary64.

Definition dot (a b : list float) : float :=
  fold_left PrimFloat.add (zip_with PrimFloat.mul a b) 0%float.

#[local] Set Warnings "-inexact-float".

Definition custos : list float := [2.50; 3.00; 1.80; 2.80]%float.
Definition octanagem : list float := [95; 88; 85; 92]%float.
Definition pressao_vapor : list float := [65; 55; 58; 64]%float.
Definition teor_benzeno : list float := [2.5; 1.5; 1.2; 2.0]%float.
Definition teor_enxofre : list float := [60; 40; 35; 55]%float.

Definition calcular_penalidades (individuo : list float) : float :=
  let oct := dot individuo octanagem in
  let pres := dot individuo pressao_vapor in
  let benz := dot individuo teor_benzeno in
  let enx := dot individuo teor_enxofre in
  let penalidade := 0%float in
  let penalidade :=
    if PrimFloat.ltb oct 91 then (penalidade + 100 * (91 - oct))%float
    else penalidade in
  let penalidade :=
    if PrimFloat.ltb 62 pres then (penalidade + 50 * (pres - 62))%float
    else penalidade in
  let penalidade :=
    if PrimFloat.ltb 2.0 benz then (penalidade + 200 * (benz - 2.0))%float
    else penalidade in
  let penalidade :=
    if PrimFloat.ltb 50 enx then (penalidade + 150 * (enx - 50))%float
    else penalidade in
  penalidade.

Definition fitness (individuo : list float) : float :=
  (dot individuo custos + calcular_penalidades individuo)%float.

Definition blend_igual : list float := [0.25; 0.25; 0.25; 0.25]%float.

(** The doubles that the literals [1.8], [2.525] and [102.525] denote. *)
Definition d_1_8 : float := 1.8%float.
Definition d_2_525 : float := 2.525%float.
Definition d_102_525 : float := 102.525%float.

End Binary64.

(** ** The scripted source is a random source *)

Lemma Qltb_lt (a b : Q) : Qltb a b = true <-> (a < b)%Q.
Proof.
  unfold Qltb. rewrite Qlt_alt.
  destruct (a ?= b)%Q; split; congruence.
Qed.

Lemma Qleb_le (a b : Q) : Qleb a b = true <-> (a <= b)%Q.
Proof.
  unfold Qleb. rewrite Qle_alt.
  destruct (a ?= b)%Q; split; congruence.
Qed.

Lemma Qltb_ge (a b : Q) : Qltb a b = false <-> (b <= a)%Q.
Proof.
  unfold Qltb. destruct (a ?= b)%Q eqn:Hc.
  - apply Qeq_alt in Hc. split; [lra | reflexivity].
  - apply Qlt_alt in Hc. split; [discriminate | lra].
  - apply Qgt_alt in Hc. split; [lra | reflexivity].
Qed.

Lemma Qleb_gt (a b : Q) : Qleb a b = false <-> (b < a)%Q.
Proof.
  unfold Qleb. destruct (a ?= b)%Q eqn:Hc.
  - apply Qeq_alt in Hc. split; [discriminate | lra].
  - apply Qlt_alt in Hc. split; [discriminate | lra].
  - apply Qgt_alt in Hc. split; [lra | reflexivity].
Qed.

Lemma no_intervalo_range (u : Q) :
  (0 <= no_intervalo u)%Q /\ (no_intervalo u < 1)%Q.
Proof.
  unfold no_intervalo.
  destruct (Qleb 0 u) eqn:Hl, (Qltb u 1) eqn:Hu; simpl;
    [apply Qleb_le in Hl; apply Qltb_lt in Hu; lra | lra ..].
Qed.

Lemma fita_randint_range (n : nat) (g : fita) :
  (0 < n)%nat -> ((fita_randint n g).1 < n)%nat.
Proof. intros Hn. simpl. apply Nat.mod_upper_bound. lia. Qed.

#[global] Instance fita_source : RandomSource fita := {|
  random := fita_random;
  randint := fita_randint;
  normal := fita_normal;
  random_range := fun g => no_intervalo_range _;
  randint_range := fita_randint_range
|}.

(** ** Facts on numbers *)

#[global] Instance num_eq_equiv : Equivalence num_eq.
Proof.
  split.
  - intros [a| | |]; simpl; auto. reflexivity.
  - intros [a| | |] [b| | |]; simpl; auto. intros Hab. now symmetry.
  - intros [a| | |] [b| | |] [c| | |]; simpl; try tauto.
    intros Hab Hbc. now transitivity b.
Qed.

#[global] Instance nadd_proper : Proper (num_eq ==> num_eq ==> num_eq) nadd.
Proof.
  intros [a| | |] [b| | |] Hab [c| | |] [d| | |] Hcd; simpl in *; try tauto.
  now rewrite Hab, Hcd.
Qed.

Lemma nadd_zero_l (z : Q) (x : num) : (z == 0)%Q -> (Fin z + x == x)%num.
Proof. intros Hz. destruct x; simpl; auto. lra. Qed.

Lemma nadd_zero_r (z : Q) (x : num) : (z == 0)%Q -> (x + Fin z == x)%num.
Proof. intros Hz. destruct x; simpl; auto. lra. Qed.

Lemma Qltb_sub (a b : Q) : Qltb a b = Qltb 0 (b + - a).
Proof.
  destruct (Qltb a b) eqn:Hab; symmetry.
  - apply Qltb_lt in Hab. apply Qltb_lt. lra.
  - apply Qltb_ge in Hab. apply Qltb_ge. lra.
Qed.

Lemma nltb_sub (x y : num) : (x <? y)%num = (Fin 0 <? y - x)%num.
Proof. destruct x, y; simpl; auto. apply Qltb_sub. Qed.

Lemma nltb_irrefl (x : num) : (x <? x)%num = false.
Proof. destruct x; simpl; auto. apply Qltb_ge. lra. Qed.

Lemma nltb_trans (x y z : num) :
  (x <? y)%num = true -> (y <? z)%num = true -> (x <? z)%num = true.
Proof.
  destruct x, y, z; simpl; try congruence.
  rewrite !Qltb_lt. lra.
Qed.

Lemma nleb_nltb (x y : num) : (x <=? y)%num = true -> (y <? x)%num = false.
Proof.
  destruct x, y; simpl; try congruence.
  rewrite Qleb_le, Qltb_ge. auto.
Qed.

Lemma nltb_nleb (x y : num) : (x <? y)%num = true -> (x <=? y)%num = true.
Proof.
  destruct x, y; simpl; try congruence.
  rewrite Qltb_lt, Qleb_le. lra.
Qed.

(** On values that are not [nan] the order is total. *)
Lemma nleb_total (x y : num) :
  x <> NaN -> y <> NaN -> (y <? x)%num = false -> (x <=? y)%num = true.
Proof.
  destruct x, y; simpl; try congruence.
  rewrite Qltb_ge, Qleb_le. auto.
Qed.

Lemma nltb_not_nan (x y : num) : (x <? y)%num = true -> x <> NaN /\ y <> NaN.
Proof. destruct x, y; simpl; split; congruence. Qed.

Lemma nleb_refl (x : num) : x <> NaN -> (x <=? x)%num = true.
Proof. destruct x; simpl; try congruence. intros _. apply Qleb_le. lra. Qed.

(** A violated constraint adds a non-negative amount. *)
Lemma parcela_nneg (w : Q) (d : num) :
  (0 < w)%Q -> (Fin 0 <? d)%num = true -> (Fin 0 <=? Fin w * d)%num = true.
Proof.
  intros Hw Hd. destruct d as [q| | |]; simpl in *; try congruence.
  - apply Qltb_lt in Hd. apply Qleb_le.
    apply Qmult_le_0_compat; lra.
  - apply Qgt_alt in Hw. now rewrite Hw.
Qed.

Lemma nadd_nneg (x y : num) :
  (Fin 0 <=? x)%num = true -> (Fin 0 <=? y)%num = true ->
  (Fin 0 <=? x + y)%num = true.
Proof.
  destruct x, y; simpl; try congruence.
  rewrite !Qleb_le. lra.
Qed.

Lemma max0_0 (d : num) : (Fin 0 <? d)%num = false -> max0 d = Fin 0.
Proof. unfold max0. now intros ->. Qed.

Lemma max0_pos (d : num) : (Fin 0 <? d)%num = true -> max0 d = d.
Proof. unfold max0. now intros ->. Qed.

Lemma np_dot_ok (a b : vec) :
  length a = length b -> np_dot a b = Ok (vsum (zip_with nmul a b)).
Proof. intros Hl. unfold np_dot. rewrite Hl, Nat.eqb_refl. reflexivity. Qed.

Lemma calcular_propriedades_ok (self : AlgoritmoGenetico) (individuo : vec) :
  length individuo = 4%nat -> tabela_ok (componentes self) ->
  exists oct pres benz enx,
    calcular_propriedades self individuo = Ok (oct, pres, benz, enx).
Proof.
  intros Hi (_ & Ho & Hp & Hb & He).
  unfold calcular_propriedades.
  rewrite !np_dot_ok by congruence. simpl. eauto.
Qed.

Lemma calcular_propriedades_mistura (self : AlgoritmoGenetico)
    (individuo : vec) :
  length individuo = 4%nat -> tabela_ok (componentes self) ->
  calcular_propriedades self individuo
  = Ok (mistura_spec individuo (octanagem (componentes self)),
        mistura_spec individuo (pressao_vapor (componentes self)),
        mistura_spec individuo (teor_benzeno (componentes self)),
        mistura_spec individuo (teor_enxofre (componentes self))).
Proof.
  intros Hi (_ & Ho & Hp & Hb & He). unfold calcular_propriedades.
  destruct individuo as [|x1 [|x2 [|x3 [|x4 [|]]]]]; try discriminate.
  destruct (octanagem (componentes self)) as [|o1 [|o2 [|o3 [|o4 [|]]]]];
    try discriminate.
  destruct (pressao_vapor (componentes self)) as [|p1 [|p2 [|p3 [|p4 [|]]]]];
    try discriminate.
  destruct (teor_benzeno (componentes self)) as [|b1 [|b2 [|b3 [|b4 [|]]]]];
    try discriminate.
  destruct (teor_enxofre (componentes self)) as [|e1 [|e2 [|e3 [|e4 [|]]]]];
    try discriminate.
  reflexivity.
Qed.

(** C1. On a candidate of four entries the properties that
    [calcular_propriedades] returns are the sums of proportion times
    component value, and [calcular_penalidades] returns the weighted sum of
    the four violation magnitudes of these properties (weights 100, 50, 200
    and 150, a satisfied constraint adding nothing); the result is never
    negative, and it is 0 when the four thresholds are met. *)
Theorem calcular_penalidades_spec (self : AlgoritmoGenetico) (individuo : vec) :
  length individuo = 4%nat -> tabela_ok (componentes self) ->
  let oct := mistura_spec individuo (octanagem (componentes self)) in
  let pres := mistura_spec individuo (pressao_vapor (componentes self)) in
  let benz := mistura_spec individuo (teor_benzeno (componentes self)) in
  let enx := mistura_spec individuo (teor_enxofre (componentes self)) in
  calcular_propriedades self individuo = Ok (oct, pres, benz, enx) /\
  exists p,
    calcular_penalidades self individuo = Ok p /\
    (p == penalty_spec (specs self) oct pres benz enx)%num /\
    (Fin 0 <=? p)%num = true /\
    (atende (specs self) oct pres benz enx = true -> p = Fin 0).
Proof.
  intros Hi Ht oct pres benz enx.
  pose proof (calcular_propriedades_mistura self individuo Hi Ht) as Hprop.
  fold oct pres benz enx in Hprop. clearbody oct pres benz enx.
  split; [exact Hprop|].
  unfold calcular_penalidades. rewrite Hprop.
  cbv [mbind result_bind mret result_ret]. cbv beta iota zeta.
  eexists. split; [reflexivity|].
  unfold penalty_spec, atende.
  rewrite (nltb_sub oct), (nltb_sub _ pres), (nltb_sub _ benz), (nltb_sub _ enx).
  set (d1 := (octanagem_min (specs self) - oct)%num).
  set (d2 := (pres - pressao_vapor_max (specs self))%num).
  set (d3 := (benz - benzeno_max (specs self))%num).
  set (d4 := (enx - enxofre_max (specs self))%num).
  assert (Hw1 : (0 < 100)%Q) by lra. assert (Hw2 : (0 < 50)%Q) by lra.
  assert (Hw3 : (0 < 200)%Q) by lra. assert (Hw4 : (0 < 150)%Q) by lra.
  pose proof (parcela_nneg 100 d1 Hw1) as H1.
  pose proof (parcela_nneg 50 d2 Hw2) as H2.
  pose proof (parcela_nneg 200 d3 Hw3) as H3.
  pose proof (parcela_nneg 150 d4 Hw4) as H4.
  assert (H0 : (Fin 0 <=? Fin 0)%num = true) by reflexivity.
  split; [|split].
  - destruct (Fin 0 <? d1)%num eqn:E1, (Fin 0 <? d2)%num eqn:E2,
      (Fin 0 <? d3)%num eqn:E3, (Fin 0 <? d4)%num eqn:E4;
      rewrite ?(max0_0 _ E1), ?(max0_pos _ E1), ?(max0_0 _ E2),
        ?(max0_pos _ E2), ?(max0_0 _ E3), ?(max0_pos _ E3),
        ?(max0_0 _ E4), ?(max0_pos _ E4);
      change (Fin 100 * Fin 0)%num with (Fin (100 * 0));
      change (Fin 50 * Fin 0)%num with (Fin (50 * 0));
      change (Fin 200 * Fin 0)%num with (Fin (200 * 0));
      change (Fin 150 * Fin 0)%num with (Fin (150 * 0));
      rewrite ?nadd_zero_l, ?nadd_zero_r by lra; reflexivity.
  - destruct (Fin 0 <? d1)%num, (Fin 0 <? d2)%num, (Fin 0 <? d3)%num,
      (Fin 0 <? d4)%num; repeat apply nadd_nneg; auto.
  - rewrite !andb_true_iff. intros [[[F1 F2] F3] F4].
    apply nleb_nltb in F1, F2, F3, F4.
    rewrite nltb_sub in F1, F2, F3, F4.
    fold d1 in F1. fold d2 in F2. fold d3 in F3. fold d4 in F4.
    now rewrite F1, F2, F3, F4.
Qed.

(** ** Reasoning on computations *)

Section Propriedades.
Context {G : Type} `{RandomSource G}.

#[local] Abbreviation mundo := (@mundo G).
#[local] Abbreviation M := (@M G).

Lemma returns_ret {A : Type} (a : A) (s : mundo) (Q : A -> mundo -> Prop) :
  Q a s -> returns (mret a) s Q.
Proof. intros HQ. exists a, s. split; [reflexivity | exact HQ]. Qed.

Lemma returns_bind {A B : Type} (c : M A) (f : A -> M B) (s : mundo)
    (Q : B -> mundo -> Prop) :
  returns c s (fun a s1 => returns (f a) s1 Q) -> returns (c ≫= f) s Q.
Proof.
  intros (a & s1 & Hc & b & s2 & Hf & HQ).
  exists b, s2. split; [|exact HQ].
  unfold mbind, M_bind. now rewrite Hc.
Qed.

Lemma returns_mono {A : Type} (c : M A) (s : mundo)
    (Q Q' : A -> mundo -> Prop) :
  returns c s Q -> (forall a s', Q a s' -> Q' a s') -> returns c s Q'.
Proof. intros (a & s' & Hc & HQ) Himp. exists a, s'. auto. Qed.

Lemma returns_lift {A : Type} (c : result A) (a : A) (s : mundo)
    (Q : A -> mundo -> Prop) :
  c = Ok a -> Q a s -> returns (lift c) s Q.
Proof. intros -> HQ. exists a, s. split; [reflexivity | exact HQ]. Qed.

(** *** The draws *)

Lemma np_random_random_eq (s : mundo) :
  np_random_random s
  = Ok (Fin (random (gen s)).1, Mundo (random (gen s)).2 (heap s)).
Proof. unfold np_random_random. now destruct (random (gen s)). Qed.

Lemma np_random_random_spec (s : mundo) :
  returns np_random_random s (fun x s' =>
    x = Fin (random (gen s)).1 /\ unitario x /\ heap s' = heap s).
Proof.
  eexists _, _. split; [apply np_random_random_eq|].
  split; [reflexivity|]. split; [|reflexivity].
  eexists. split; [reflexivity|]. apply random_range.
Qed.

Lemma np_random_randint_spec (n : nat) (s : mundo) :
  (0 < n)%nat ->
  returns (np_random_randint n) s (fun i s' =>
    (i < n)%nat /\ heap s' = heap s).
Proof.
  intros Hn. unfold returns, np_random_randint.
  destruct (Nat.eqb_spec n 0) as [->|_]; [lia|].
  pose proof (randint_range n (gen s) Hn) as Hr.
  destruct (randint n (gen s)) as [i g]. eexists _, _.
  split; [reflexivity|]. simpl in *. auto.
Qed.

Lemma np_random_normal_spec (mu sigma : Q) (s : mundo) :
  returns (np_random_normal mu sigma) s (fun x s' =>
    (exists q, x = Fin q) /\ heap s' = heap s).
Proof.
  unfold returns, np_random_normal.
  destruct (normal mu sigma (gen s)) as [x g]. eexists _, _.
  split; [reflexivity|]. simpl. eauto.
Qed.

Lemma replicateM_spec {A : Type} (c : M A) (P : A -> Prop) (n : nat)
    (s : mundo) :
  (forall s1, heap s1 = heap s ->
     returns c s1 (fun a s2 => P a /\ heap s2 = heap s)) ->
  returns (replicateM n c) s (fun xs s' =>
    length xs = n /\ Forall P xs /\ heap s' = heap s).
Proof.
  intros Hc. revert s Hc. induction n as [|n IH]; intros s Hc; simpl.
  - apply returns_ret. auto.
  - apply returns_bind.
    eapply returns_mono; [apply Hc; reflexivity|].
    intros a s1 (Ha & Hs1). apply returns_bind.
    eapply returns_mono.
    + apply IH. intros s2 Hs2. rewrite Hs1 in Hs2.
      eapply returns_mono; [apply Hc; exact Hs2|].
      intros b s3 (Hb & Hs3). rewrite Hs1. auto.
    + intros xs s2 (Hl & Hxs & Hs2). apply returns_ret.
      simpl. rewrite Hs2, Hs1. auto.
Qed.

Lemma np_random_random_n_spec (n : nat) (s : mundo) :
  returns (np_random_random_n n) s (fun v s' =>
    length v = n /\ Forall unitario v /\ heap s' = heap s).
Proof.
  apply replicateM_spec. intros s1 Hs1.
  eapply returns_mono; [apply np_random_random_spec|].
  intros x s2 (_ & Hx & Hs2). split; [exact Hx | congruence].
Qed.

Lemma np_random_choice_spec (n k : nat) (s : mundo) :
  (0 < n)%nat ->
  returns (np_random_choice n k) s (fun idx s' =>
    length idx = k /\ Forall (fun i => (i < n)%nat) idx /\ heap s' = heap s).
Proof.
  intros Hn. unfold np_random_choice.
  destruct (Nat.eqb_spec n 0) as [->|_]; [lia|]. simpl.
  apply replicateM_spec. intros s1 Hs1.
  eapply returns_mono; [apply np_random_randint_spec; exact Hn|].
  intros i s2 (Hi & Hs2). split; [exact Hi | congruence].
Qed.

(** *** The heap *)

Lemma alloc_spec (o : obj) (s : mundo) :
  returns (alloc o) s (fun l s' =>
    l = length (heap s) /\ heap s' = heap s ++ [o] /\ gen s' = gen s).
Proof. eexists _, _. split; [reflexivity|]. simpl. auto. Qed.

Lemma read_spec (r : ref) (v : vec) (s : mundo) :
  heap_read (heap s) r = Ok v ->
  returns (read r) s (fun x s' => x = v /\ s' = s).
Proof.
  intros Hr. exists v, s. unfold read. rewrite Hr. auto.
Qed.

Lemma copy_spec (r : ref) (v : vec) (s : mundo) :
  heap_read (heap s) r = Ok v ->
  returns (copy r) s (fun r' s' =>
    r' = ArrRef (length (heap s)) /\ heap s' = heap s ++ [Arr1 v]
    /\ gen s' = gen s).
Proof.
  intros Hr. unfold copy. apply returns_bind.
  eapply returns_mono; [apply read_spec; exact Hr|].
  intros x s1 (-> & ->). apply returns_bind.
  eapply returns_mono; [apply alloc_spec|].
  intros l s1 (-> & Hh & Hg). apply returns_ret. auto.
Qed.

Lemma heap_read_base (h : list obj) (r : ref) (v : vec) :
  heap_read h r = Ok v -> (base r < length h)%nat.
Proof.
  destruct r as [l|l i]; simpl; destruct (h !! l) eqn:Hl; try discriminate;
    intros _; eapply lookup_lt_Some; eauto.
Qed.

Lemma heap_read_app (h k : list obj) (r : ref) (v : vec) :
  heap_read h r = Ok v -> heap_read (h ++ k) r = Ok v.
Proof.
  intros Hr. pose proof (heap_read_base _ _ _ Hr) as Hb.
  destruct r as [l|l i]; simpl in *; rewrite lookup_app_l by exact Hb;
    exact Hr.
Qed.

Lemma heap_read_new (h : list obj) (v : vec) :
  heap_read (h ++ [Arr1 v]) (ArrRef (length h)) = Ok v.
Proof.
  simpl. rewrite lookup_app_r by lia. now rewrite Nat.sub_diag.
Qed.

Lemma heap_read_write (h : list obj) (r : ref) (v w : vec) :
  heap_read h r = Ok v -> heap_read (heap_write h r w) r = Ok w.
Proof.
  intros Hr. pose proof (heap_read_base _ _ _ Hr) as Hb.
  destruct r as [l|l i]; simpl in *.
  - now rewrite list_lookup_insert_eq.
  - destruct (h !! l) as [[|rows]|] eqn:Hl; try discriminate.
    destruct (rows !! i) eqn:Hi; try discriminate.
    rewrite list_lookup_insert_eq by exact Hb.
    rewrite list_lookup_insert_eq; [reflexivity|].
    eapply lookup_lt_Some; eauto.
Qed.

Lemma heap_write_other (h : list obj) (r : ref) (w : vec) (l : loc) :
  l <> base r -> heap_write h r w !! l = h !! l.
Proof.
  intros Hl. destruct r as [l'|l' i]; simpl in *.
  - now rewrite list_lookup_insert_ne.
  - destruct (h !! l') as [[|rows]|]; auto.
    now rewrite list_lookup_insert_ne.
Qed.

Lemma heap_write_length (h : list obj) (r : ref) (w : vec) :
  length (heap_write h r w) = length h.
Proof.
  destruct r as [l|l i]; simpl.
  - apply length_insert.
  - destruct (h !! l) as [[|rows]|]; auto. apply length_insert.
Qed.

(** *** Renormalisation *)

Lemma valido_tolerancia (v : vec) : valido v -> tolerancia v.
Proof.
  intros (Hl & Hn & Hs). split; [exact Hl|]. split; [exact Hn|].
  destruct (vsum v) as [q| | |]; simpl in Hs; try tauto.
  exists q. split; [reflexivity|].
  apply Qabs_Qle_condition. lra.
Qed.

Lemma nan4_not_tolerancia : ~ tolerancia nan4.
Proof.
  intros (_ & Hn & _). inversion Hn as [|x l Hx Hl]. discriminate.
Qed.

Lemma unitario_fin_nneg (x : num) : unitario x -> fin_nneg x.
Proof. intros (u & -> & Hu & _). exists u. auto. Qed.

Lemma valido_fin_nneg (v : vec) : valido v -> Forall fin_nneg v.
Proof.
  intros (Hl & Hn & Hs).
  destruct v as [|a [|b [|c [|d [|]]]]]; try discriminate.
  inversion Hn as [|? ? Ha Hn1]; subst. inversion Hn1 as [|? ? Hb Hn2]; subst.
  inversion Hn2 as [|? ? Hc Hn3]; subst. inversion Hn3 as [|? ? Hd _]; subst.
  destruct a as [a| | |], b as [b| | |], c as [c| | |], d as [d| | |];
    try discriminate; try (exfalso; exact Hs).
  simpl in Ha, Hb, Hc, Hd. apply Qleb_le in Ha, Hb, Hc, Hd.
  repeat constructor; eexists; (split; [reflexivity | assumption]).
Qed.

(** Dividing four finite, non-negative values by their sum gives four
    [nan] when the sum is zero, and four proportions otherwise. *)
Lemma normaliza (w : vec) :
  length w = 4%nat -> Forall fin_nneg w ->
  ((vsum w == Fin 0)%num /\ vdiv w (vsum w) = nan4)
  \/ (~ (vsum w == Fin 0)%num /\ valido (vdiv w (vsum w))).
Proof.
  intros Hl Hw.
  destruct w as [|a [|b [|c [|d [|]]]]]; try discriminate.
  inversion Hw as [|? ? (a' & -> & Ha) Hw1]; subst.
  inversion Hw1 as [|? ? (b' & -> & Hb) Hw2]; subst.
  inversion Hw2 as [|? ? (c' & -> & Hc) Hw3]; subst.
  inversion Hw3 as [|? ? (d' & -> & Hd) _]; subst.
  unfold vsum, vdiv, valido, nao_negativo. cbn [fold_left map nadd ndiv length].
  set (t := (0 + a' + b' + c' + d')%Q).
  destruct (Qeq_bool t 0) eqn:Ht.
  - left. apply Qeq_bool_iff in Ht. split; [exact Ht|].
    assert (Ha0 : (a' == 0)%Q) by (subst t; lra).
    assert (Hb0 : (b' == 0)%Q) by (subst t; lra).
    assert (Hc0 : (c' == 0)%Q) by (subst t; lra).
    assert (Hd0 : (d' == 0)%Q) by (subst t; lra).
    apply Qeq_alt in Ha0, Hb0, Hc0, Hd0.
    now rewrite Ha0, Hb0, Hc0, Hd0.
  - right. apply Qeq_bool_neq in Ht.
    split; [exact Ht|]. split; [reflexivity|].
    assert (Hpos : (0 < t)%Q) by (subst t; lra).
    assert (Hinv : (0 < / t)%Q) by (now apply Qinv_lt_0_compat).
    split.
    + repeat constructor; simpl; apply Qleb_le; unfold Qdiv;
        apply Qmult_le_0_compat; lra.
    + simpl. subst t. field. lra.
Qed.

Lemma vabs_fin_nneg (v : vec) :
  Forall (fun x => is_fin x = true) v -> Forall fin_nneg (vabs v).
Proof.
  intros Hv. unfold vabs. apply Forall_map.
  eapply Forall_impl; [exact Hv|].
  intros [q| | |] Hq; try discriminate.
  exists (Qabs q). split; [reflexivity | apply Qabs_nonneg].
Qed.

Lemma fin_nneg_is_fin (x : num) : fin_nneg x -> is_fin x = true.
Proof. now intros (q & -> & _). Qed.

(** *** The operators, one by one *)

Ltac passo lem :=
  apply returns_bind; eapply returns_mono; [exact lem | cbv beta].

Lemma setitem_add_spec (r : ref) (idx : nat) (x y : num) (v : vec)
    (s : mundo) :
  heap_read (heap s) r = Ok v -> v !! idx = Some y ->
  returns (setitem_add r idx x) s (fun _ s' =>
    heap s' = heap_write (heap s) r (<[idx := (y + x)%num]> v)
    /\ gen s' = gen s).
Proof.
  intros Hr Hy. eexists _, _. unfold setitem_add. rewrite Hr, Hy.
  split; [reflexivity|]. simpl. auto.
Qed.

Lemma len_spec (l : loc) (rows : list vec) (s : mundo) :
  heap s !! l = Some (Arr2 rows) ->
  returns (len l) s (fun n s' => n = length rows /\ s' = s).
Proof.
  intros Hl. exists (length rows), s. unfold len, heap_len. rewrite Hl. auto.
Qed.

Lemma rows_of_spec (l : loc) (rows : list vec) (s : mundo) :
  heap s !! l = Some (Arr2 rows) ->
  returns (rows_of l) s (fun x s' => x = rows /\ s' = s).
Proof.
  intros Hl. exists rows, s. unfold rows_of, heap_rows. rewrite Hl. auto.
Qed.

Lemma criar_individuo_spec (s : mundo) :
  returns criar_individuo s (fun r s' => exists w,
    length w = 4%nat /\ Forall unitario w /\
    r = ArrRef (length (heap s)) /\
    heap s' = heap s ++ [Arr1 (vdiv w (vsum w))]).
Proof.
  unfold criar_individuo.
  passo (np_random_random_n_spec 4 s). intros w s1 (Hl & Hw & Hs1).
  passo (alloc_spec (Arr1 (vdiv w (vsum w))) s1). intros l s2 (-> & Hs2 & _).
  apply returns_ret. exists w. rewrite Hs2, Hs1. auto.
Qed.

(** The child that [np.where] builds from a mask and two parents. *)
Lemma np_where_4 (mascara : list bool) (a b : vec) :
  length mascara = 4%nat -> length a = 4%nat -> length b = 4%nat ->
  np_where mascara a b
  = Ok (zip_with (fun m xy => escolher m xy.1 xy.2) mascara (zip a b)).
Proof.
  intros Hm Ha Hb. unfold np_where, broadcast. now rewrite Hm, Ha, Hb.
Qed.

Lemma np_where_length (mascara : list bool) (a b filho : vec) :
  length mascara = 4%nat -> length a = 4%nat -> length b = 4%nat ->
  np_where mascara a b = Ok filho -> length filho = 4%nat.
Proof.
  intros Hm Ha Hb. rewrite np_where_4 by assumption. intros [= <-].
  destruct mascara as [|? [|? [|? [|? [|]]]]]; try discriminate.
  destruct a as [|? [|? [|? [|? [|]]]]]; try discriminate.
  destruct b as [|? [|? [|? [|? [|]]]]]; try discriminate.
  reflexivity.
Qed.

Lemma np_where_Forall (P : num -> Prop) (mascara : list bool) (a b filho : vec) :
  length mascara = 4%nat -> length a = 4%nat -> length b = 4%nat ->
  Forall P a -> Forall P b ->
  np_where mascara a b = Ok filho -> Forall P filho.
Proof.
  intros Hm Ha Hb HPa HPb. rewrite np_where_4 by assumption. intros [= <-].
  clear Hm Ha Hb. revert a b HPa HPb.
  induction mascara as [|m mascara IH]; intros a b HPa HPb; [constructor|].
  destruct a as [|x a]; [constructor|]. destruct b as [|y b]; [constructor|].
  inversion HPa; subst. inversion HPb; subst. simpl. constructor.
  - destruct m; assumption.
  - apply IH; assumption.
Qed.

Lemma crossover_spec (self : AlgoritmoGenetico) (pai1 pai2 : ref)
    (v1 v2 : vec) (s : mundo) :
  heap_read (heap s) pai1 = Ok v1 -> heap_read (heap s) pai2 = Ok v2 ->
  length v1 = 4%nat -> length v2 = 4%nat ->
  returns (crossover self pai1 pai2) s (fun r s' => exists v,
    r = ArrRef (length (heap s)) /\ heap s' = heap s ++ [Arr1 v] /\
    if (Fin (random (gen s)).1 <? taxa_crossover self)%num
    then exists mascara filho,
           length mascara = 4%nat /\ np_where mascara v1 v2 = Ok filho /\
           v = vdiv filho (vsum filho)
    else v = v1).
Proof.
  intros Hr1 Hr2 Hl1 Hl2. unfold crossover.
  passo (np_random_random_spec s). intros u s1 (-> & _ & Hs1).
  destruct (Fin (random (gen s)).1 <? taxa_crossover self)%num.
  - passo (np_random_random_n_spec 4 s1). intros sorteio s2 (Hl & _ & Hs2).
    rewrite <- Hs1, <- Hs2 in Hr1, Hr2.
    passo (read_spec pai1 v1 s2 Hr1). intros ? ? (-> & ->).
    passo (read_spec pai2 v2 s2 Hr2). intros ? ? (-> & ->).
    set (mascara := map (fun d => (d <? Fin 0.5)%num) sorteio).
    assert (Hm : length mascara = 4%nat)
      by (subst mascara; now rewrite length_map).
    apply returns_bind. eapply returns_lift; [now apply np_where_4|].
    apply returns_bind; eapply returns_mono; [apply alloc_spec|cbv beta].
    intros l s3 (-> & Hs3 & _). apply returns_ret. eexists.
    rewrite Hs3, Hs2, Hs1. split; [reflexivity|]. split; [reflexivity|].
    exists mascara. eexists. split; [exact Hm|].
    split; [now apply np_where_4 | reflexivity].
  - rewrite <- Hs1 in Hr1.
    eapply returns_mono; [exact (copy_spec pai1 v1 s1 Hr1)|]. cbv beta.
    intros r s' (-> & Hs' & _). exists v1. rewrite Hs', Hs1. auto.
Qed.

Lemma mutacao_spec (self : AlgoritmoGenetico) (individuo : ref) (v : vec)
    (s : mundo) :
  heap_read (heap s) individuo = Ok v -> length v = 4%nat ->
  returns (mutacao self individuo) s (fun r s' =>
    if (Fin (random (gen s)).1 <? taxa_mutacao self)%num
    then exists idx y ruido,
           v !! idx = Some y /\
           let v' := <[idx := (y + Fin ruido)%num]> v in
           (r = ArrRef (length (heap s)) /\
            heap s' = (heap_write (heap s) individuo v'
                       ++ [Arr1 (vdiv (vabs v') (vsum (vabs v')))]))
    else (r = individuo /\ heap s' = heap s)).
Proof.
  intros Hr Hl. unfold mutacao.
  passo (np_random_random_spec s). intros u s1 (-> & _ & Hs1).
  destruct (Fin (random (gen s)).1 <? taxa_mutacao self)%num.
  - passo (np_random_randint_spec 4 s1 ltac:(lia)). intros idx s2 (Hidx & Hs2).
    passo (np_random_normal_spec 0 0.1 s2). intros ? s3 ((ruido & ->) & Hs3).
    destruct (lookup_lt_is_Some_2 v idx ltac:(lia)) as [y Hy].
    assert (Hr3 : heap_read (heap s3) individuo = Ok v)
      by (now rewrite Hs3, Hs2, Hs1).
    passo (setitem_add_spec individuo idx (Fin ruido) y v s3 Hr3 Hy).
    intros _ s4 (Hs4 & _).
    set (v' := <[idx := (y + Fin ruido)%num]> v) in *.
    assert (Hr4 : heap_read (heap s4) individuo = Ok v')
      by (rewrite Hs4; eapply heap_read_write; exact Hr3).
    passo (read_spec individuo v' s4 Hr4). intros ? ? (-> & ->).
    passo (alloc_spec (Arr1 (vdiv (vabs v') (vsum (vabs v')))) s4).
    intros l s5 (-> & Hs5 & _). apply returns_ret.
    exists idx, y, ruido. split; [exact Hy|]. cbv zeta. fold v'.
    rewrite Hs5, Hs4, heap_write_length, Hs3, Hs2, Hs1. auto.
  - apply returns_ret. auto.
Qed.

(** *** [np.argmin] and the tournament *)

Lemma nltb_nan_r (x : num) : (x <? NaN)%num = false.
Proof. now destruct x. Qed.

Lemma not_nleb_nltb (x y : num) :
  x <> NaN -> y <> NaN -> (x <=? y)%num = false -> (y <? x)%num = true.
Proof.
  destruct x, y; simpl; try congruence.
  rewrite Qleb_gt, Qltb_lt. auto.
Qed.

Lemma is_nan_false (x : num) : is_nan x = false -> x <> NaN.
Proof. destruct x; simpl; congruence. Qed.

Lemma is_nan_true (x : num) : is_nan x = true -> x = NaN.
Proof. destruct x; simpl; congruence. Qed.

Lemma argmin_from_spec (v pre : vec) (best : nat) (bv : num) :
  bv <> NaN -> pre !! best = Some bv ->
  Forall (fun x => (x <? bv)%num = false) pre ->
  exists y, (pre ++ v) !! argmin_from best bv (length pre) v = Some y /\
            Forall (fun x => (x <? y)%num = false) (pre ++ v).
Proof.
  revert pre best bv.
  induction v as [|x v IH]; intros pre best bv Hbv Hb Hpre; simpl.
  - rewrite app_nil_r. eauto.
  - assert (Hcons : pre ++ x :: v = (pre ++ [x]) ++ v)
      by now rewrite <- app_assoc.
    assert (Hlen : S (length pre) = length (pre ++ [x]))
      by (rewrite length_app; simpl; lia).
    destruct (bv <=? x)%num eqn:Hle; simpl.
    + rewrite Hcons, Hlen. apply IH; [exact Hbv | |].
      * now apply lookup_app_l_Some.
      * apply Forall_app. split; [exact Hpre|].
        constructor; [now apply nleb_nltb | constructor].
    + destruct (is_nan x) eqn:Hn.
      * apply is_nan_true in Hn. subst x. exists NaN.
        split; [apply list_lookup_middle; reflexivity|].
        apply Forall_forall. intros ? _. apply nltb_nan_r.
      * apply is_nan_false in Hn.
        pose proof (not_nleb_nltb bv x Hbv Hn Hle) as Hlt.
        rewrite Hcons, Hlen. apply IH; [exact Hn | |].
        -- apply list_lookup_middle. reflexivity.
        -- apply Forall_app. split.
           ++ eapply Forall_impl; [exact Hpre|]. intros e He. cbv beta in He |- *.
              destruct (e <? x)%num eqn:Hex; [|reflexivity].
              rewrite (nltb_trans e x bv Hex Hlt) in He. discriminate.
           ++ constructor; [apply nltb_irrefl | constructor].
Qed.

(** [np.argmin] of a non-empty array returns the index of an entry that no
    entry is strictly below. *)
Lemma np_argmin_spec (v : vec) :
  v <> [] ->
  exists j y, np_argmin v = Ok j /\ v !! j = Some y /\
              Forall (fun x => (x <? y)%num = false) v.
Proof.
  destruct v as [|x v]; [congruence|]. intros _. simpl.
  destruct (is_nan x) eqn:Hn.
  - apply is_nan_true in Hn. subst x. exists 0%nat, NaN.
    split; [reflexivity|]. split; [reflexivity|].
    apply Forall_forall. intros ? _. apply nltb_nan_r.
  - apply is_nan_false in Hn.
    destruct (argmin_from_spec v [x] 0 x Hn eq_refl) as (y & Hy & Hall).
    + constructor; [apply nltb_irrefl | constructor].
    + eexists _, y. split; [reflexivity|]. auto.
Qed.

Lemma nleb_not_nan (x y : num) :
  (x <=? y)%num = true -> x <> NaN /\ y <> NaN.
Proof. destruct x, y; simpl; split; congruence. Qed.

Lemma nltb_nleb_trans (x y z : num) :
  (x <? y)%num = true -> (y <=? z)%num = true -> (x <? z)%num = true.
Proof.
  destruct x, y, z; simpl; try congruence.
  rewrite !Qltb_lt, Qleb_le. lra.
Qed.

(** [np.argmin] of a non-empty array returns the index of the first [nan],
    or that of the first of the lowest values when there is no [nan]. *)
Lemma argmin_from_forte (v pre : vec) (best : nat) (bv : num) :
  bv <> NaN -> pre !! best = Some bv ->
  Forall (fun x => (bv <=? x)%num = true) pre ->
  (forall i x, (i < best)%nat -> pre !! i = Some x -> (bv <? x)%num = true) ->
  primeiro_minimo (pre ++ v) (argmin_from best bv (length pre) v).
Proof.
  revert pre best bv.
  induction v as [|x v IH]; intros pre best bv Hbv Hb Hle Hlt; simpl.
  - rewrite app_nil_r. exists bv. split; [exact Hb|]. split.
    + intros i e Hi He. split; [|eauto].
      pose proof (Forall_lookup_1 _ _ _ _ Hle He) as Hbe.
      now apply nleb_not_nan in Hbe.
    + intros _. exact Hle.
  - assert (Hcons : pre ++ x :: v = (pre ++ [x]) ++ v)
      by now rewrite <- app_assoc.
    assert (Hlen : S (length pre) = length (pre ++ [x]))
      by (rewrite length_app; simpl; lia).
    assert (Hbl : (best < length pre)%nat) by (eapply lookup_lt_Some; eauto).
    destruct (bv <=? x)%num eqn:E; simpl.
    + rewrite Hcons, Hlen. apply IH; [exact Hbv | | |].
      * now apply lookup_app_l_Some.
      * apply Forall_app. split; [exact Hle | now constructor].
      * intros i e Hi He. apply (Hlt i e Hi).
        rewrite lookup_app_l in He by lia. exact He.
    + destruct (is_nan x) eqn:Hn.
      * apply is_nan_true in Hn. subst x. exists NaN.
        split; [apply list_lookup_middle; reflexivity|]. split.
        -- intros i e Hi He. rewrite lookup_app_l in He by exact Hi.
           split; [|congruence].
           pose proof (Forall_lookup_1 _ _ _ _ Hle He) as Hbe.
           now apply nleb_not_nan in Hbe.
        -- congruence.
      * apply is_nan_false in Hn.
        pose proof (not_nleb_nltb bv x Hbv Hn E) as Hx.
        rewrite Hcons, Hlen. apply IH; [exact Hn | | |].
        -- apply list_lookup_middle. reflexivity.
        -- apply Forall_app. split.
           ++ eapply Forall_impl; [exact Hle|]. intros e He. cbv beta in He |- *.
              apply nltb_nleb. eapply nltb_nleb_trans; eauto.
           ++ constructor; [now apply nleb_refl | constructor].
        -- intros i e Hi He. rewrite lookup_app_l in He by exact Hi.
           pose proof (Forall_lookup_1 _ _ _ _ Hle He) as Hbe.
           eapply nltb_nleb_trans; eauto.
Qed.

Lemma np_argmin_forte (v : vec) :
  v <> [] -> exists j, np_argmin v = Ok j /\ primeiro_minimo v j.
Proof.
  destruct v as [|x v]; [congruence|]. intros _. simpl.
  destruct (is_nan x) eqn:Hn.
  - apply is_nan_true in Hn. subst x. exists 0%nat. split; [reflexivity|].
    exists NaN. split; [reflexivity|]. split; [|congruence].
    intros i e Hi. lia.
  - apply is_nan_false in Hn. eexists. split; [reflexivity|].
    apply (argmin_from_forte v [x] 0 x Hn eq_refl).
    + constructor; [now apply nleb_refl | constructor].
    + intros i e Hi. lia.
Qed.

Lemma primeiro_minimo_nltb (v : vec) (j : nat) (y : num) :
  primeiro_minimo v j -> v !! j = Some y ->
  Forall (fun x => (x <? y)%num = false) v.
Proof.
  intros (y' & Hy' & _ & Hmin) Hy. assert (y' = y) by congruence. subst y'.
  destruct (is_nan y) eqn:Hn.
  - apply is_nan_true in Hn. subst y. apply Forall_forall. intros x _.
    apply nltb_nan_r.
  - apply is_nan_false in Hn. eapply Forall_impl; [exact (Hmin Hn)|].
    intros x. apply nleb_nltb.
Qed.

Lemma getitem_ok {A : Type} (l : list A) (i : nat) (x : A) :
  l !! i = Some x -> getitem l i = Ok x.
Proof. unfold getitem. now intros ->. Qed.

Lemma take_idx_spec {A : Type} (l : list A) (idx : list nat) :
  Forall (fun i => (i < length l)%nat) idx ->
  exists sub, take_idx l idx = Ok sub /\
              Forall2 (fun i x => l !! i = Some x) idx sub.
Proof.
  unfold take_idx. induction 1 as [|i idx Hi _ (sub & Hsub & Hall)]; simpl.
  - exists []. split; [reflexivity | constructor].
  - destruct (lookup_lt_is_Some_2 l i Hi) as [x Hx].
    exists (x :: sub). rewrite (getitem_ok _ _ _ Hx). simpl.
    rewrite Hsub. simpl. split; [reflexivity|]. now constructor.
Qed.

Lemma Forall2_lookup_Forall {A : Type} (Q : A -> Prop) (l : list A)
    (idx : list nat) (sub : list A) :
  Forall2 (fun i x => l !! i = Some x) idx sub -> Forall Q sub ->
  Forall (fun i => forall x, l !! i = Some x -> Q x) idx.
Proof.
  induction 1 as [|i x idx sub Hi _ IH]; intros Hall; [constructor|].
  inversion Hall; subst. constructor; [|now apply IH].
  intros x' Hx'. congruence.
Qed.

Lemma selecao_torneio_spec (self : AlgoritmoGenetico) (populacao : loc)
    (rows : list vec) (fitness_values : vec) (s : mundo) :
  heap s !! populacao = Some (Arr2 rows) ->
  (0 < length rows)%nat -> (1 <= torneio_k self)%nat ->
  length fitness_values = length rows ->
  returns (selecao_torneio self populacao fitness_values) s (fun r s' =>
    exists idx s1 m v y,
      np_random_choice (length rows) (torneio_k self) s = Ok (idx, s1) /\
      m ∈ idx /\ rows !! m = Some v /\ fitness_values !! m = Some y /\
      Forall (fun i => forall x, fitness_values !! i = Some x ->
                                 (x <? y)%num = false) idx /\
      r = ArrRef (length (heap s)) /\ heap s' = heap s ++ [Arr1 v] /\
      gen s' = gen s1).
Proof.
  intros Hp Hn Hk Hfit. unfold selecao_torneio.
  passo (len_spec populacao rows s Hp). intros ? ? (-> & ->).
  destruct (np_random_choice_spec (length rows) (torneio_k self) s Hn)
    as (idx & s1 & Hch & Hlen & Hidx & Hs1).
  apply returns_bind. exists idx, s1. split; [exact Hch|].
  rewrite <- Hfit in Hidx.
  destruct (take_idx_spec fitness_values idx Hidx) as (sub & Hsub & Hall).
  apply returns_bind. eapply returns_lift; [exact Hsub|].
  assert (Hne : sub <> []).
  { intros ->. apply Forall2_length in Hall. simpl in Hall. lia. }
  destruct (np_argmin_spec sub Hne) as (j & y & Hj & Hy & Hmin).
  apply returns_bind. eapply returns_lift; [exact Hj|].
  destruct (Forall2_lookup_r _ _ _ _ _ Hall Hy) as (m & Hm & Hfm).
  apply returns_bind. eapply returns_lift;
    [exact (getitem_ok _ _ _ Hm)|].
  assert (Hmlt : (m < length rows)%nat).
  { rewrite <- Hfit. eapply lookup_lt_Some; exact Hfm. }
  destruct (lookup_lt_is_Some_2 rows m Hmlt) as [v Hv].
  assert (Hr : heap_read (heap s1) (RowRef populacao m) = Ok v)
    by (simpl; now rewrite Hs1, Hp, Hv).
  eapply returns_mono; [exact (copy_spec _ v s1 Hr)|]. cbv beta.
  intros r s' (-> & Hs' & Hg). exists idx, s1, m, v, y.
  rewrite Hs', Hs1. repeat split; auto.
  - eapply list_elem_of_lookup_2; exact Hm.
  - eapply Forall2_lookup_Forall; [exact Hall | exact Hmin].
Qed.

(** *** Offspring *)

Lemma heap_read_prefix (h h' : list obj) (r : ref) (v : vec) :
  h `prefix_of` h' -> heap_read h r = Ok v -> heap_read h' r = Ok v.
Proof. intros [k ->]. apply heap_read_app. Qed.

Lemma le4_prefix (h h' : list obj) (r : ref) :
  le4 h r -> h `prefix_of` h' -> le4 h' r.
Proof. intros (v & Hr & Hl) Hp. exists v. eauto using heap_read_prefix. Qed.

Lemma populacao_ok_prefix (n : nat) (h h' : list obj) (p : loc)
    (rows : list vec) :
  populacao_ok n h p rows -> h `prefix_of` h' -> populacao_ok n h' p rows.
Proof.
  intros (Hp & Hn & Hr) Hpre. split; [|auto].
  eapply prefix_lookup_Some; eauto.
Qed.

Lemma populacao_ok_row (n : nat) (h : list obj) (p : loc) (rows : list vec)
    (i : nat) (v : vec) :
  populacao_ok n h p rows -> rows !! i = Some v ->
  heap_read h (RowRef p i) = Ok v /\ length v = 4%nat.
Proof.
  intros (Hp & _ & Hr) Hi. split.
  - simpl. now rewrite Hp, Hi.
  - eapply Forall_lookup_1 in Hr; eauto.
Qed.

Lemma replicateM_ext {A : Type} (c : M A) (I : list obj -> Prop)
    (P : list obj -> A -> Prop) (n : nat) (s : mundo) :
  (forall s1, I (heap s1) ->
     returns c s1 (fun a s2 => P (heap s2) a /\ heap s1 `prefix_of` heap s2)) ->
  (forall h h', I h -> h `prefix_of` h' -> I h') ->
  (forall h h' a, P h a -> h `prefix_of` h' -> P h' a) ->
  I (heap s) ->
  returns (replicateM n c) s (fun xs s' =>
    length xs = n /\ Forall (P (heap s')) xs /\ heap s `prefix_of` heap s').
Proof.
  intros Hc HI HP. revert s. induction n as [|n IH]; intros s Hs; simpl.
  - apply returns_ret. auto.
  - passo (Hc s Hs). intros a s1 (Ha & Hs1).
    passo (IH s1 (HI _ _ Hs Hs1)). intros xs s2 (Hl & Hxs & Hs2).
    apply returns_ret. simpl. split; [congruence|]. split.
    + constructor; [eapply HP; eauto | exact Hxs].
    + etransitivity; eauto.
Qed.

Lemma vdiv_length (v : vec) (x : num) : length (vdiv v x) = length v.
Proof. apply length_map. Qed.

Lemma vabs_length (v : vec) : length (vabs v) = length v.
Proof. apply length_map. Qed.

Lemma criar_individuo_le4 (s : mundo) :
  returns criar_individuo s (fun r s' =>
    le4 (heap s') r /\ heap s `prefix_of` heap s').
Proof.
  eapply returns_mono; [apply criar_individuo_spec|]. cbv beta.
  intros r s' (w & Hl & _ & -> & ->). split.
  - eexists. split; [apply heap_read_new|]. now rewrite vdiv_length.
  - now apply prefix_app_r.
Qed.

Lemma insert_last (h : list obj) (x y : obj) :
  <[length h := x]> (h ++ [y]) = h ++ [x].
Proof.
  rewrite insert_app_r_alt by lia. now rewrite Nat.sub_diag.
Qed.

(** One offspring: the heap that was there is kept as it is, the offspring
    is a new array of four entries. *)
Lemma gerar_filho_spec (self : AlgoritmoGenetico) (populacao : loc)
    (rows : list vec) (fitness_values : vec) (s : mundo) :
  populacao_ok (tamanho_pop self) (heap s) populacao rows ->
  (0 < tamanho_pop self)%nat -> (1 <= torneio_k self)%nat ->
  length fitness_values = tamanho_pop self ->
  returns (gerar_filho self populacao fitness_values) s (fun r s' =>
    (length (heap s) <= base r)%nat /\ le4 (heap s') r /\
    heap s `prefix_of` heap s').
Proof.
  intros Hok Hn Hk Hfit. pose proof Hok as (Hp & Hlen & Hrows).
  unfold gerar_filho.
  assert (Hpos : (0 < length rows)%nat) by lia.
  assert (Hfl : length fitness_values = length rows) by lia.
  passo (selecao_torneio_spec self populacao rows fitness_values s
           Hp Hpos Hk Hfl).
  intros pai1 s1 (_ & _ & m1 & va & _ & _ & _ & Hva & _ & _ & -> & Hs1 & _).
  assert (Hla : length va = 4%nat) by (eapply Forall_lookup_1 in Hrows; eauto).
  assert (Hp1 : heap s1 !! populacao = Some (Arr2 rows)).
  { rewrite Hs1. apply lookup_app_l_Some. exact Hp. }
  passo (selecao_torneio_spec self populacao rows fitness_values s1
           Hp1 Hpos Hk Hfl).
  intros pai2 s2 (_ & _ & m2 & vb & _ & _ & _ & Hvb & _ & _ & -> & Hs2 & _).
  assert (Hlb : length vb = 4%nat) by (eapply Forall_lookup_1 in Hrows; eauto).
  assert (Hra : heap_read (heap s2) (ArrRef (length (heap s))) = Ok va).
  { rewrite Hs2, Hs1. apply heap_read_app, heap_read_new. }
  assert (Hrb : heap_read (heap s2) (ArrRef (length (heap s1))) = Ok vb).
  { rewrite Hs2. apply heap_read_new. }
  passo (crossover_spec self _ _ va vb s2 Hra Hrb Hla Hlb).
  intros filho s3 (vc & -> & Hs3 & Hvc).
  assert (Hlc : length vc = 4%nat).
  { destruct (_ <? _)%num; [|congruence].
    destruct Hvc as (mascara & w & Hm & Hw & ->).
    rewrite vdiv_length.
    exact (np_where_length mascara va vb w Hm Hla Hlb Hw). }
  assert (Hrc : heap_read (heap s3) (ArrRef (length (heap s2))) = Ok vc).
  { rewrite Hs3. apply heap_read_new. }
  assert (Hpre : heap s `prefix_of` heap s2).
  { rewrite Hs2, Hs1. now apply prefix_app_r, prefix_app_r. }
  assert (Hge : (length (heap s) <= length (heap s2))%nat)
    by now apply prefix_length.
  eapply returns_mono; [exact (mutacao_spec self _ vc s3 Hrc Hlc)|]. cbv beta.
  clear Hvc. intros r s'.
  destruct (Fin (random (gen s3)).1 <? taxa_mutacao self)%num.
  - intros (idx & y & ruido & Hy & Hpost). cbv zeta in Hpost.
    destruct Hpost as (-> & ->). simpl base.
    rewrite Hs3. simpl heap_write. rewrite insert_last, length_app. simpl.
    split; [lia|]. split.
    + eexists. split.
      * replace (length (heap s2) + 1)%nat with
          (length (heap s2 ++ [Arr1 (<[idx:=(y + Fin ruido)%num]> vc)]))
          by (rewrite length_app; reflexivity).
        apply heap_read_new.
      * now rewrite vdiv_length, vabs_length, length_insert.
    + now apply prefix_app_r, prefix_app_r.
  - intros (-> & ->). simpl base. split; [lia|]. split.
    + exists vc. auto.
    + rewrite Hs3. now apply prefix_app_r.
Qed.

(** *** The [while] loop *)

Lemma bind_ok_eq {A B : Type} (c : M A) (f : A -> M B) (s s1 : mundo)
    (a : A) :
  c s = Ok (a, s1) -> (c ≫= f) s = f a s1.
Proof. unfold mbind, M_bind. now intros ->. Qed.

Lemma bind_raise_eq {A B : Type} (c : M A) (f : A -> M B) (s : mundo)
    (e : exn) :
  c s = Raise e -> (c ≫= f) s = Raise e.
Proof. unfold mbind, M_bind. now intros ->. Qed.

Lemma bind_fuel_eq {A B : Type} (c : M A) (f : A -> M B) (s : mundo) :
  c s = OutOfFuel -> (c ≫= f) s = OutOfFuel.
Proof. unfold mbind, M_bind. now intros ->. Qed.

Lemma bind_assoc_eq {A B C : Type} (c : M A) (f : A -> M B) (g : B -> M C)
    (s : mundo) :
  ((c ≫= f) ≫= g) s = (c ≫= (fun a => f a ≫= g)) s.
Proof.
  unfold mbind, M_bind. now destruct (c s) as [[a s1]| |].
Qed.

Lemma lift_ok_eq {A B : Type} (c : result A) (a : A) (f : A -> M B)
    (s : mundo) :
  c = Ok a -> (lift c ≫= f) s = f a s.
Proof. now intros ->. Qed.

Lemma lift_raise_eq {A B : Type} (c : result A) (e : exn) (f : A -> M B)
    (s : mundo) :
  c = Raise e -> (lift c ≫= f) s = Raise e.
Proof. now intros ->. Qed.

Lemma ret_bind_eq {A B : Type} (a : A) (f : A -> M B) (s : mundo) :
  (mret a ≫= f) s = f a s.
Proof. reflexivity. Qed.

Lemma len_eq (l : loc) (rows : list vec) (s : mundo) :
  heap s !! l = Some (Arr2 rows) -> len l s = Ok (length rows, s).
Proof. intros Hl. unfold len, heap_len. now rewrite Hl. Qed.

Lemma rows_of_eq (l : loc) (rows : list vec) (s : mundo) :
  heap s !! l = Some (Arr2 rows) -> rows_of l s = Ok (rows, s).
Proof. intros Hl. unfold rows_of, heap_rows. now rewrite Hl. Qed.

Lemma copy_eq (r : ref) (v : vec) (s : mundo) :
  heap_read (heap s) r = Ok v ->
  copy r s
  = Ok (ArrRef (length (heap s)), Mundo (gen s) (heap s ++ [Arr1 v])).
Proof. intros Hr. unfold copy, read, mbind, M_bind. now rewrite Hr. Qed.

Lemma read_eq (r : ref) (v : vec) (s : mundo) :
  heap_read (heap s) r = Ok v -> read r s = Ok (v, s).
Proof. intros Hr. unfold read. now rewrite Hr. Qed.

Lemma np_random_randint_eq (n : nat) (s : mundo) :
  n <> 0%nat ->
  np_random_randint n s
  = Ok ((randint n (gen s)).1, Mundo (randint n (gen s)).2 (heap s)).
Proof.
  intros Hn. unfold np_random_randint.
  destruct (Nat.eqb_spec n 0); [contradiction|].
  now destruct (randint n (gen s)).
Qed.

Lemma np_random_normal_eq (mu sigma : Q) (s : mundo) :
  np_random_normal mu sigma s
  = Ok (Fin (normal mu sigma (gen s)).1,
        Mundo (normal mu sigma (gen s)).2 (heap s)).
Proof. unfold np_random_normal. now destruct (normal mu sigma (gen s)). Qed.

Lemma setitem_add_eq (r : ref) (idx : nat) (x y : num) (v : vec)
    (s : mundo) :
  heap_read (heap s) r = Ok v -> v !! idx = Some y ->
  setitem_add r idx x s
  = Ok ((), Mundo (gen s) (heap_write (heap s) r (<[idx := (y + x)%num]> v))).
Proof. intros Hr Hy. unfold setitem_add. now rewrite Hr, Hy. Qed.

(** With enough fuel the loop is the sequence of the offspring that fill
    the population, whatever they do. *)
Lemma encher_replicateM (fuel : nat) (self : AlgoritmoGenetico)
    (populacao : loc) (fitness_values : vec) (nova_populacao : list ref)
    (s : mundo) :
  (tamanho_pop self - length nova_populacao < fuel)%nat ->
  encher fuel self populacao fitness_values nova_populacao s
  = (filhos ← replicateM (tamanho_pop self - length nova_populacao)
                (gerar_filho self populacao fitness_values);
     mret (nova_populacao ++ filhos)) s.
Proof.
  revert nova_populacao s.
  induction fuel as [|fuel IH]; intros nova s Hfuel; [lia|].
  simpl encher. destruct (Nat.ltb_spec (length nova) (tamanho_pop self)).
  - destruct (tamanho_pop self - length nova)%nat as [|n] eqn:E; [lia|].
    simpl replicateM. rewrite !bind_assoc_eq.
    destruct (gerar_filho self populacao fitness_values s)
      as [[filho s1]| |] eqn:Hg.
    + rewrite !(bind_ok_eq _ _ _ _ _ Hg).
      assert (Hn : (tamanho_pop self - length (nova ++ [filho]) = n)%nat)
        by (rewrite length_app; simpl; lia).
      rewrite IH by lia. rewrite Hn, !bind_assoc_eq.
      destruct (replicateM n (gerar_filho self populacao fitness_values) s1)
        as [[xs s2]| |] eqn:Hr.
      * rewrite !(bind_ok_eq _ _ _ _ _ Hr).
        unfold mbind, M_bind, mret, M_ret. now rewrite <- app_assoc.
      * now rewrite !(bind_raise_eq _ _ _ _ Hr).
      * now rewrite !(bind_fuel_eq _ _ _ Hr).
    + now rewrite !(bind_raise_eq _ _ _ _ Hg).
    + now rewrite !(bind_fuel_eq _ _ _ Hg).
  - replace (tamanho_pop self - length nova)%nat with 0%nat by lia.
    simpl. unfold mbind, M_bind, mret, M_ret. now rewrite app_nil_r.
Qed.

Lemma mapM_read_spec (rs : list ref) (s : mundo) :
  Forall (le4 (heap s)) rs ->
  returns (mapM read rs) s (fun rows s' =>
    s' = s /\ Forall2 (fun r v => heap_read (heap s) r = Ok v) rs rows /\
    Forall (fun v => length v = 4%nat) rows).
Proof.
  induction 1 as [|r rs (v & Hr & Hl) _ IH]; simpl.
  - apply returns_ret. auto.
  - passo (read_spec r v s Hr). intros ? ? (-> & ->).
    passo IH. intros rows ? (-> & Hrows & Hlen).
    apply returns_ret. auto.
Qed.

Lemma mesmo_tamanho_4 (rows : list vec) :
  Forall (fun v => length v = 4%nat) rows -> mesmo_tamanho rows = true.
Proof.
  destruct 1 as [|v rows Hv Hrows]; [reflexivity|]. simpl.
  apply forallb_forall. intros w Hw. apply Nat.eqb_eq.
  rewrite Forall_forall in Hrows. rewrite Hv. apply Hrows.
  now apply list_elem_of_In.
Qed.

Lemma np_array_spec (rs : list ref) (s : mundo) :
  Forall (le4 (heap s)) rs ->
  returns (np_array rs) s (fun l s' => exists rows,
    l = length (heap s) /\ heap s' = heap s ++ [Arr2 rows] /\
    Forall2 (fun r v => heap_read (heap s) r = Ok v) rs rows /\
    Forall (fun v => length v = 4%nat) rows /\ gen s' = gen s).
Proof.
  intros Hrs. unfold np_array.
  passo (mapM_read_spec rs s Hrs). intros rows ? (-> & Hrows & Hlen).
  rewrite (mesmo_tamanho_4 rows Hlen).
  eapply returns_mono; [apply alloc_spec|]. cbv beta.
  intros l s' (-> & Hs' & Hg). exists rows. auto.
Qed.

Lemma criar_populacao_spec (self : AlgoritmoGenetico) (s : mundo) :
  returns (criar_populacao self) s (fun populacao s' => exists rows,
    populacao_ok (tamanho_pop self) (heap s') populacao rows /\
    heap s `prefix_of` heap s').
Proof.
  unfold criar_populacao.
  passo (replicateM_ext criar_individuo (fun _ => True) le4
           (tamanho_pop self) s
           (fun s1 _ => criar_individuo_le4 s1)
           (fun _ _ _ _ => I) le4_prefix I).
  intros inds s1 (Hlen & Hinds & Hs1).
  eapply returns_mono; [exact (np_array_spec inds s1 Hinds)|]. cbv beta.
  intros l s' (rows & -> & Hs' & Hrows & Hl4 & _). exists rows. split.
  - split; [|split].
    + rewrite Hs'. apply list_lookup_middle. reflexivity.
    + apply Forall2_length in Hrows. congruence.
    + exact Hl4.
  - rewrite Hs'. now apply prefix_app_r.
Qed.

(** *** One generation *)

Lemma fitness_ok (self : AlgoritmoGenetico) (individuo : vec) :
  length individuo = 4%nat -> tabela_ok (componentes self) ->
  exists f, fitness self individuo = Ok f.
Proof.
  intros Hi Ht.
  destruct (calcular_propriedades_ok self individuo Hi Ht)
    as (oct & pres & benz & enx & Hprop).
  unfold fitness, calcular_custo, calcular_penalidades.
  destruct Ht as (Hc & _). rewrite np_dot_ok by congruence.
  rewrite Hprop. cbv [mbind result_bind mret result_ret]. eauto.
Qed.

Lemma mapM_fitness_ok (self : AlgoritmoGenetico) (rows : list vec) :
  Forall (fun v => length v = 4%nat) rows -> tabela_ok (componentes self) ->
  exists fit, mapM (fitness self) rows = Ok fit /\ length fit = length rows.
Proof.
  intros Hrows Ht. induction Hrows as [|v rows Hv _ (fit & Hfit & Hlen)].
  - exists []. auto.
  - destruct (fitness_ok self v Hv Ht) as (f & Hf).
    exists (f :: fit). simpl. rewrite Hf. simpl. rewrite Hfit. simpl.
    split; [reflexivity | congruence].
Qed.

Lemma mesma_config_refl (a : AlgoritmoGenetico) : mesma_config a a.
Proof. repeat split. Qed.

Lemma mesma_config_trans (a b c : AlgoritmoGenetico) :
  mesma_config a b -> mesma_config b c -> mesma_config a c.
Proof.
  intros (?&?&?&?&?&?&?) (?&?&?&?&?&?&?). repeat split; congruence.
Qed.

Lemma returns_ext {A : Type} (c c' : M A) (s : mundo)
    (Q : A -> mundo -> Prop) :
  c s = c' s -> returns c' s Q -> returns c s Q.
Proof. intros Heq (a & s' & Hc & HQ). exists a, s'. split; congruence. Qed.

Lemma geracao_spec (self : AlgoritmoGenetico) (populacao : loc)
    (rows : list vec) (s : mundo) :
  populacao_ok (tamanho_pop self) (heap s) populacao rows ->
  (0 < tamanho_pop self)%nat -> (1 <= torneio_k self)%nat ->
  tabela_ok (componentes self) ->
  returns (geracao self populacao) s (geracao_post self populacao rows s).
Proof.
  intros Hok Hn Hk Ht. pose proof Hok as (Hp & Hlen & Hrows).
  unfold geracao.
  passo (rows_of_spec populacao rows s Hp). intros ? ? (-> & ->).
  destruct (mapM_fitness_ok self rows Hrows Ht) as (fit & Hfit & Hfl).
  apply returns_bind. eapply returns_lift; [exact Hfit|].
  assert (Hne : fit <> []) by (intros ->; simpl in Hfl; lia).
  destruct (np_argmin_spec fit Hne) as (j & mf & Hj & Hmf & Hmin).
  apply returns_bind. eapply returns_lift; [exact Hj|].
  apply returns_bind. eapply returns_lift; [exact (getitem_ok _ _ _ Hmf)|].
  cbv zeta.
  assert (Hjlt : (j < length rows)%nat)
    by (rewrite <- Hfl; eapply lookup_lt_Some; eauto).
  destruct (lookup_lt_is_Some_2 rows j Hjlt) as [vj Hvj].
  destruct (populacao_ok_row _ _ _ _ _ _ Hok Hvj) as (Hrj & Hlj).
  apply returns_bind.
  apply (returns_mono _ _ (fun self2 s2 =>
    gen s2 = gen s /\
    heap s2 = heap s ++ (if (mf <? melhor_custo self)%num
                         then [Arr1 vj] else []) /\
    heap s `prefix_of` heap s2 /\ mesma_config self self2 /\
    historico_custos self2 = historico_custos self ++ [mf] /\
    melhor_custo self2
      = (if (mf <? melhor_custo self)%num then mf else melhor_custo self) /\
    (if (mf <? melhor_custo self)%num
     then exists r, melhor_solucao self2 = Some r /\
                    heap_read (heap s2) r = Ok vj
     else melhor_solucao self2 = melhor_solucao self))).
  { change (melhor_custo (registrar self mf)) with (melhor_custo self).
    destruct (mf <? melhor_custo self)%num.
    - passo (copy_spec _ vj s Hrj). intros r s1 (-> & Hs1 & Hg1).
      apply returns_ret. rewrite Hs1.
      split; [exact Hg1|]. split; [reflexivity|].
      split; [now apply prefix_app_r|]. split; [repeat split|].
      split; [reflexivity|]. split; [reflexivity|].
      eexists. split; [reflexivity | apply heap_read_new].
    - apply returns_ret. rewrite app_nil_r. repeat split; reflexivity. }
  intros self2 s2 (Hg2 & Hh2 & Hs2 & Hcfg & Hh & Hmc & Hms).
  pose proof Hcfg as (HP & _ & _ & _ & HK & HC & _).
  assert (Hok2 : populacao_ok (tamanho_pop self2) (heap s2) populacao rows)
    by (rewrite HP; eapply populacao_ok_prefix; eauto).
  destruct (populacao_ok_row _ _ _ _ _ _ Hok2 Hvj) as (Hrj2 & _).
  passo (copy_spec _ vj s2 Hrj2). intros elite sE (-> & HsE & HgE).
  apply returns_bind.
  eapply returns_ext; [apply encher_replicateM; simpl; lia|].
  simpl length.
  assert (HokE : populacao_ok (tamanho_pop self2) (heap sE) populacao rows).
  { eapply populacao_ok_prefix; [exact Hok2|].
    rewrite HsE. now apply prefix_app_r. }
  destruct (replicateM_ext (gerar_filho self2 populacao fit)
              (fun h => populacao_ok (tamanho_pop self2) h populacao rows)
              le4 (tamanho_pop self2 - 1) sE) as (filhos & sb & Hrep & HQ).
  { intros s1 Hs1. eapply returns_mono.
    - apply (gerar_filho_spec self2 populacao rows fit s1 Hs1); lia.
    - cbv beta. intros a s3 (_ & Ha & Hs3). auto. }
  { intros h h' Hh1 Hpre. eapply populacao_ok_prefix; eauto. }
  { exact le4_prefix. }
  { exact HokE. }
  destruct HQ as (Hlf & Hf4 & Hsb).
  apply returns_bind. exists filhos, sb. split; [exact Hrep|].
  apply returns_ret.
  assert (HrE : heap_read (heap sb) (ArrRef (length (heap s2))) = Ok vj).
  { eapply heap_read_prefix; [exact Hsb|]. rewrite HsE. apply heap_read_new. }
  assert (Hall : Forall (le4 (heap sb)) ([ArrRef (length (heap s2))] ++ filhos)).
  { constructor; [|exact Hf4]. exists vj. auto. }
  passo (np_array_spec _ sb Hall).
  intros p' s' (rows' & -> & Hs' & Hrows' & Hl4 & Hg'). apply returns_ret.
  inversion Hrows' as [|r0 v0 rs0 rows0 Hr0 Hrest]; subst.
  assert (v0 = vj) by congruence. subst v0.
  assert (HsE2 : heap s `prefix_of` heap sE).
  { etransitivity; [exact Hs2|]. rewrite HsE. now apply prefix_app_r. }
  assert (Hsb' : heap sb `prefix_of` heap s')
    by (rewrite Hs'; now apply prefix_app_r).
  exists fit, j, mf, vj, (vj :: rows0), sE, filhos, sb. simpl fst. simpl snd.
  assert (Hs2' : heap s2 `prefix_of` heap s').
  { etransitivity; [|exact Hsb']. etransitivity; [|exact Hsb].
    rewrite HsE. now apply prefix_app_r. }
  rewrite <- !HP.
  repeat match goal with |- _ /\ _ => split end; auto.
  - destruct (mf <? melhor_custo self)%num; [|exact Hms].
    destruct Hms as (r & Hr1 & Hr2). exists r. split; [exact Hr1|].
    eapply heap_read_prefix; eauto.
  - split; [|split].
    + rewrite Hs'. apply list_lookup_middle. reflexivity.
    + apply Forall2_length in Hrest. simpl. lia.
    + exact Hl4.
  - etransitivity; [exact Hs2 | exact Hs2'].
  - congruence.
  - rewrite HsE, Hh2. destruct (mf <? melhor_custo self)%num.
    + now rewrite <- app_assoc.
    + now rewrite app_nil_r.
Qed.

(** *** The record of the best cost *)

Lemma acompanha_nil (m : num) : acompanha m [] m.
Proof. split; [now left|]. split; [constructor | now left]. Qed.

Lemma acompanha_passo (m mf : num) :
  acompanha m [mf] (if (mf <? m)%num then mf else m).
Proof.
  destruct (mf <? m)%num eqn:E; split; simpl; auto; split; auto.
  constructor; [apply nltb_irrefl | constructor].
Qed.

Lemma acompanha_trans (m m1 m2 : num) (hs1 hs2 : list num) :
  acompanha m hs1 m1 -> acompanha m1 hs2 m2 ->
  acompanha m (hs1 ++ hs2) m2.
Proof.
  intros (Hin1 & Hall1 & Hle1) (Hin2 & Hall2 & Hle2). split; [|split].
  - destruct Hin2 as [<-|Hin2].
    + destruct Hin1 as [<-|Hin1]; [now left|]. right. apply in_or_app. auto.
    + right. apply in_or_app. auto.
  - apply Forall_app. split; [|exact Hall2].
    destruct Hle2 as [->|Hlt]; [exact Hall1|].
    eapply Forall_impl; [exact Hall1|]. intros x Hx. cbv beta in Hx |- *.
    destruct (x <? m2)%num eqn:E; [|reflexivity].
    rewrite (nltb_trans x m2 m1 E Hlt) in Hx. discriminate.
  - destruct Hle2 as [->|Hlt2]; [exact Hle1|].
    destruct Hle1 as [->|Hlt1]; [now right|].
    right. eapply nltb_trans; eauto.
Qed.

Lemma acompanha_not_nan (m m' : num) (hs : list num) :
  acompanha m hs m' -> m <> NaN -> m' <> NaN.
Proof.
  intros (_ & _ & [->|Hlt]) Hm; [exact Hm|]. now apply nltb_not_nan in Hlt.
Qed.

Lemma acompanha_nleb (m m' : num) (hs : list num) :
  acompanha m hs m' -> m <> NaN -> (m' <=? m)%num = true.
Proof.
  intros (_ & _ & [->|Hlt]) Hm; [now apply nleb_refl | now apply nltb_nleb].
Qed.

(** Without [nan] among the recorded values, the best cost of a fresh
    instance is their minimum. *)
Lemma acompanha_minimo (m : num) (hs : list num) :
  acompanha PInf hs m -> hs <> [] -> Forall (fun x => x <> NaN) hs ->
  minimo m hs.
Proof.
  intros (Hin & Hall & _) Hne Hnan.
  assert (Hm : m <> NaN).
  { destruct Hin as [<-|Hin]; [discriminate|].
    rewrite Forall_forall in Hnan. apply Hnan. now apply list_elem_of_In. }
  assert (Hle : Forall (fun x => (m <=? x)%num = true) hs).
  { rewrite Forall_forall in *. intros x Hx.
    apply nleb_total; auto. }
  split; [|exact Hle].
  destruct Hin as [<-|Hin]; [|exact Hin].
  destruct hs as [|x hs]; [congruence|]. left.
  inversion Hle as [|? ? Hx _]; subst. now destruct x.
Qed.

(** *** The [for] loop and the run *)

Lemma laco_spec (range : list nat) (self : AlgoritmoGenetico)
    (populacao : loc) (rows : list vec) (s : mundo) :
  populacao_ok (tamanho_pop self) (heap s) populacao rows ->
  (0 < tamanho_pop self)%nat -> (1 <= torneio_k self)%nat ->
  tabela_ok (componentes self) ->
  returns (laco range self populacao) s (fun res s' => exists hs rows',
    historico_custos res.1 = historico_custos self ++ hs /\
    length hs = length range /\
    acompanha (melhor_custo self) hs (melhor_custo res.1) /\
    mesma_config self res.1 /\
    populacao_ok (tamanho_pop self) (heap s') res.2 rows' /\
    heap s `prefix_of` heap s').
Proof.
  revert self populacao rows s.
  induction range as [|g range IH]; intros self populacao rows s Hok Hn Hk Ht;
    simpl laco.
  - apply returns_ret. exists [], rows. simpl. rewrite app_nil_r.
    split; [reflexivity|]. split; [reflexivity|].
    split; [apply acompanha_nil|]. split; [apply mesma_config_refl|].
    split; [exact Hok | reflexivity].
  - passo (geracao_spec self populacao rows s Hok Hn Hk Ht).
    intros [self1 p1] s1
      (fit & j & mf & vj & rows1 & _ & _ & _ & _ & _ & _ & _ & _ & Hh1 & Hm1
       & _ & Hcfg1 & Hok1 & Hs1 & _).
    simpl fst in *. simpl snd in *.
    pose proof Hcfg1 as (HP & _ & _ & _ & HK & HC & _).
    rewrite <- HP in Hok1.
    eapply returns_mono.
    + apply (IH self1 p1 rows1 s1 Hok1); congruence.
    + cbv beta. intros [self' p'] s' (hs & rows' & Hh & Hl & Hac & Hcfg & Hok' & Hs').
      simpl fst in *. simpl snd in *.
      exists (mf :: hs), rows'. rewrite Hh, Hh1, <- app_assoc. simpl.
      split; [reflexivity|]. split; [congruence|]. split.
      * change (mf :: hs) with ([mf] ++ hs).
        eapply acompanha_trans; [|exact Hac]. rewrite Hm1.
        apply acompanha_passo.
      * split; [eapply mesma_config_trans; eauto|].
        split; [now rewrite <- HP | etransitivity; eauto].
Qed.

Lemma executar_spec (self : AlgoritmoGenetico) (s : mundo) :
  (0 < tamanho_pop self)%nat -> (1 <= torneio_k self)%nat ->
  tabela_ok (componentes self) ->
  returns (executar self) s (fun res s' => exists hs,
    res.1.1 = melhor_solucao res.2 /\ res.1.2 = melhor_custo res.2 /\
    historico_custos res.2 = historico_custos self ++ hs /\
    length hs = geracoes self /\
    acompanha (melhor_custo self) hs (melhor_custo res.2) /\
    mesma_config self res.2).
Proof.
  intros Hn Hk Ht. unfold executar.
  passo (criar_populacao_spec self s). intros p s1 (rows & Hok & _).
  passo (laco_spec (seq 0 (geracoes self)) self p rows s1 Hok Hn Hk Ht).
  intros [self' p'] s' (hs & rows' & Hh & Hl & Hac & Hcfg & _).
  apply returns_ret. exists hs. simpl in *. rewrite length_seq in Hl.
  do 4 (split; [auto|]). split; assumption.
Qed.

Lemma laco_app (r1 r2 : list nat) (self : AlgoritmoGenetico)
    (populacao : loc) (s : mundo) :
  laco (r1 ++ r2) self populacao s
  = (res ← laco r1 self populacao; laco r2 res.1 res.2) s.
Proof.
  revert self populacao s. induction r1 as [|g r1 IH]; intros self p s; simpl.
  - reflexivity.
  - rewrite bind_assoc_eq. unfold mbind at 1 2, M_bind.
    destruct (geracao self p s) as [[[self1 p1] s1]| |]; [|reflexivity..].
    apply IH.
Qed.

(** ** The operators on candidates *)

Lemma renormaliza (w : vec) :
  length w = 4%nat -> Forall fin_nneg w -> renormalizado w (vdiv w (vsum w)).
Proof.
  intros Hl Hw. split; [reflexivity|].
  destruct (normaliza w Hl Hw) as [(H0 & Hn)|(Hnz & Hv)]; split.
  - intros Hz. contradiction.
  - auto.
  - auto using valido_tolerancia.
  - intros Hz. contradiction.
Qed.

Lemma insert_fin (v : vec) (idx : nat) (y : num) (ruido : Q) :
  Forall fin_nneg v -> v !! idx = Some y ->
  Forall (fun x => is_fin x = true) (<[idx := (y + Fin ruido)%num]> v).
Proof.
  intros Hv Hy. apply Forall_insert.
  - eapply Forall_impl; [exact Hv|]. exact fin_nneg_is_fin.
  - eapply Forall_lookup_1 in Hv; [|exact Hy]. now destruct Hv as (q & -> & _).
Qed.

(** The three operators as equations on the draws they make. *)
Lemma criar_individuo_eq (s : mundo) :
  exists w sw,
    np_random_random_n 4 s = Ok (w, sw) /\ length w = 4%nat /\
    Forall unitario w /\
    criar_individuo s
    = Ok (ArrRef (length (heap s)),
          Mundo (gen sw) (heap s ++ [Arr1 (vdiv w (vsum w))])).
Proof.
  destruct (np_random_random_n_spec 4 s) as (w & sw & Hw & Hl & Hu & Hh).
  exists w, sw. do 3 (split; [assumption|]).
  unfold criar_individuo. rewrite (bind_ok_eq _ _ _ _ _ Hw).
  unfold alloc, mbind, M_bind, mret, M_ret. now rewrite Hh.
Qed.

Lemma crossover_eq (self : AlgoritmoGenetico) (pai1 pai2 : ref)
    (v1 v2 : vec) (s : mundo) :
  heap_read (heap s) pai1 = Ok v1 -> heap_read (heap s) pai2 = Ok v2 ->
  length v1 = 4%nat -> length v2 = 4%nat ->
  let u := Fin (random (gen s)).1 in
  let s1 := Mundo (random (gen s)).2 (heap s) in
  if (u <? taxa_crossover self)%num
  then exists sorteio s2 filho,
         np_random_random_n 4 s1 = Ok (sorteio, s2) /\
         np_where (map (fun d => (d <? Fin 0.5)%num) sorteio) v1 v2
         = Ok filho /\
         length filho = 4%nat /\
         crossover self pai1 pai2 s
         = Ok (ArrRef (length (heap s)),
               Mundo (gen s2) (heap s ++ [Arr1 (vdiv filho (vsum filho))]))
  else crossover self pai1 pai2 s
       = Ok (ArrRef (length (heap s)), Mundo (gen s1) (heap s ++ [Arr1 v1])).
Proof.
  intros Hr1 Hr2 Hl1 Hl2 u s1.
  assert (E : crossover self pai1 pai2 s
              = (if (u <? taxa_crossover self)%num then
                   sorteio ← np_random_random_n 4;
                   let mascara := map (fun d => (d <? Fin 0.5)%num) sorteio in
                   v1 ← read pai1;
                   v2 ← read pai2;
                   filho ← lift (np_where mascara v1 v2);
                   l ← alloc (Arr1 (vdiv filho (vsum filho)));
                   mret (ArrRef l)
                 else copy pai1) s1).
  { unfold crossover.
    now rewrite (bind_ok_eq _ _ _ _ _ (np_random_random_eq s)). }
  rewrite E. clear E. destruct (u <? taxa_crossover self)%num.
  - destruct (np_random_random_n_spec 4 s1) as (sorteio & s2 & Hso & Hl & _ & Hh).
    set (mascara := map (fun d => (d <? Fin 0.5)%num) sorteio).
    assert (Hm : length mascara = 4%nat)
      by (subst mascara; now rewrite length_map).
    pose proof (np_where_4 mascara v1 v2 Hm Hl1 Hl2) as Hnp.
    change (heap s1) with (heap s) in Hh.
    exists sorteio, s2. eexists. split; [exact Hso|]. split; [exact Hnp|].
    split; [exact (np_where_length mascara v1 v2 _ Hm Hl1 Hl2 Hnp)|].
    rewrite (bind_ok_eq _ _ _ _ _ Hso). cbv zeta. fold mascara.
    rewrite <- Hh in Hr1, Hr2.
    rewrite (bind_ok_eq _ _ _ _ _ (read_eq _ _ _ Hr1)).
    rewrite (bind_ok_eq _ _ _ _ _ (read_eq _ _ _ Hr2)).
    rewrite (lift_ok_eq _ _ _ _ Hnp).
    unfold alloc, mbind, M_bind, mret, M_ret. now rewrite Hh.
  - apply (copy_eq pai1 v1 s1). exact Hr1.
Qed.

Lemma mutacao_eq (self : AlgoritmoGenetico) (individuo : ref) (v : vec)
    (s : mundo) :
  heap_read (heap s) individuo = Ok v -> length v = 4%nat ->
  let u := Fin (random (gen s)).1 in
  let s1 := Mundo (random (gen s)).2 (heap s) in
  let idx := (randint 4 (gen s1)).1 in
  let ruido := (normal 0 0.1 (randint 4 (gen s1)).2).1 in
  let g3 := (normal 0 0.1 (randint 4 (gen s1)).2).2 in
  if (u <? taxa_mutacao self)%num
  then exists y,
         (idx < 4)%nat /\ v !! idx = Some y /\
         let v' := <[idx := (y + Fin ruido)%num]> v in
         mutacao self individuo s
         = Ok (ArrRef (length (heap s)),
               Mundo g3 (heap_write (heap s) individuo v'
                         ++ [Arr1 (vdiv (vabs v') (vsum (vabs v')))]))
  else mutacao self individuo s = Ok (individuo, s1).
Proof.
  intros Hr Hl u s1 idx ruido g3.
  assert (E : mutacao self individuo s
              = (if (u <? taxa_mutacao self)%num then
                   idx ← np_random_randint 4;
                   ruido ← np_random_normal 0 0.1;
                   setitem_add individuo idx ruido;;
                   v ← read individuo;
                   let a := vabs v in
                   l ← alloc (Arr1 (vdiv a (vsum a)));
                   mret (ArrRef l)
                 else mret individuo) s1).
  { unfold mutacao.
    now rewrite (bind_ok_eq _ _ _ _ _ (np_random_random_eq s)). }
  rewrite E. clear E. destruct (u <? taxa_mutacao self)%num; [|reflexivity].
  assert (Hidx : (idx < 4)%nat) by (apply randint_range; lia).
  destruct (lookup_lt_is_Some_2 v idx ltac:(lia)) as [y Hy].
  exists y. split; [exact Hidx|]. split; [exact Hy|]. cbv zeta.
  rewrite (bind_ok_eq _ _ _ _ _ (np_random_randint_eq 4 s1 ltac:(lia))).
  rewrite (bind_ok_eq _ _ _ _ _ (np_random_normal_eq 0 0.1 _)).
  fold idx ruido g3. cbn [gen heap].
  set (s3 := Mundo g3 (heap s)).
  assert (Hr3 : heap_read (heap s3) individuo = Ok v) by exact Hr.
  rewrite (bind_ok_eq _ _ _ _ _ (setitem_add_eq _ idx (Fin ruido) y v s3 Hr3 Hy)).
  set (v' := <[idx := (y + Fin ruido)%num]> v).
  set (s4 := Mundo (gen s3) (heap_write (heap s3) individuo v')).
  assert (Hr4 : heap_read (heap s4) individuo = Ok v')
    by (eapply heap_read_write; exact Hr3).
  rewrite (bind_ok_eq _ _ _ _ _ (read_eq _ _ _ Hr4)). cbv zeta.
  unfold alloc, mbind, M_bind, mret, M_ret. subst s4 s3. cbn [gen heap].
  now rewrite heap_write_length.
Qed.

(** C2, as amended.  [criar_individuo] returns the four draws it makes
    divided by their sum; [crossover], on two candidates, returns a copy of
    the first or the entries the mask takes from the two, divided by their
    sum; [mutacao], on a candidate, returns the array it is given or the
    absolute values of its entries, the noise added to one of them, divided
    by their sum.  What is divided by its sum is a candidate, of four
    non-negative entries that sum to exactly 1, and so to 1 within 1e-9,
    unless the sum is zero: it is then made of four [nan]. *)
Theorem candidatos_validos_ou_nan (self : AlgoritmoGenetico)
    (pai1 pai2 individuo : ref) (v1 v2 v : vec) (s : mundo) :
  heap_read (heap s) pai1 = Ok v1 -> valido v1 ->
  heap_read (heap s) pai2 = Ok v2 -> valido v2 ->
  heap_read (heap s) individuo = Ok v -> valido v ->
  let u := Fin (random (gen s)).1 in
  let s1 := Mundo (random (gen s)).2 (heap s) in
  let idx := (randint 4 (gen s1)).1 in
  let ruido := (normal 0 0.1 (randint 4 (gen s1)).2).1 in
  let g3 := (normal 0 0.1 (randint 4 (gen s1)).2).2 in
  (exists w sw x,
     np_random_random_n 4 s = Ok (w, sw) /\
     criar_individuo s
     = Ok (ArrRef (length (heap s)), Mundo (gen sw) (heap s ++ [Arr1 x])) /\
     renormalizado w x)
  /\ (if (u <? taxa_crossover self)%num
      then exists sorteio s2 filho x,
             np_random_random_n 4 s1 = Ok (sorteio, s2) /\
             np_where (map (fun d => (d <? Fin 0.5)%num) sorteio) v1 v2
             = Ok filho /\
             crossover self pai1 pai2 s
             = Ok (ArrRef (length (heap s)),
                   Mundo (gen s2) (heap s ++ [Arr1 x])) /\
             renormalizado filho x
      else crossover self pai1 pai2 s
           = Ok (ArrRef (length (heap s)),
                 Mundo (gen s1) (heap s ++ [Arr1 v1])))
  /\ (if (u <? taxa_mutacao self)%num
      then exists y x,
             v !! idx = Some y /\
             let v' := <[idx := (y + Fin ruido)%num]> v in
             mutacao self individuo s
             = Ok (ArrRef (length (heap s)),
                   Mundo g3 (heap_write (heap s) individuo v' ++ [Arr1 x])) /\
             renormalizado (vabs v') x
      else mutacao self individuo s = Ok (individuo, s1)).
Proof.
  intros Hr1 Hv1 Hr2 Hv2 Hr Hv u s1 idx ruido g3.
  pose proof Hv1 as (Hl1 & _). pose proof Hv2 as (Hl2 & _).
  pose proof Hv as (Hl & _).
  split; [|split].
  - destruct (criar_individuo_eq s) as (w & sw & Hw & Hlw & Hu & Hc).
    exists w, sw, (vdiv w (vsum w)). split; [exact Hw|]. split; [exact Hc|].
    apply renormaliza; [exact Hlw|].
    eapply Forall_impl; [exact Hu | exact unitario_fin_nneg].
  - pose proof (crossover_eq self pai1 pai2 v1 v2 s Hr1 Hr2 Hl1 Hl2) as Hc.
    cbv zeta in Hc. fold u s1 in Hc.
    destruct (u <? taxa_crossover self)%num; [|exact Hc].
    destruct Hc as (sorteio & s2 & filho & Hso & Hnp & Hlf & Hc).
    exists sorteio, s2, filho, (vdiv filho (vsum filho)).
    do 3 (split; [assumption|]).
    apply renormaliza; [exact Hlf|].
    assert (Hm : length (map (fun d => (d <? Fin 0.5)%num) sorteio) = 4%nat).
    { rewrite length_map.
      destruct (np_random_random_n_spec 4 s1) as (? & ? & Hso' & Hl4 & _).
      congruence. }
    exact (np_where_Forall fin_nneg _ v1 v2 filho Hm Hl1 Hl2
             (valido_fin_nneg _ Hv1) (valido_fin_nneg _ Hv2) Hnp).
  - pose proof (mutacao_eq self individuo v s Hr Hl) as Hm.
    cbv zeta in Hm. fold u s1 idx ruido g3 in Hm.
    destruct (u <? taxa_mutacao self)%num; [|exact Hm].
    destruct Hm as (y & Hidx & Hy & Hm).
    exists y. eexists. split; [exact Hy|]. cbv zeta. split; [exact Hm|].
    apply renormaliza.
    + now rewrite vabs_length, length_insert.
    + apply vabs_fin_nneg, insert_fin; auto using valido_fin_nneg.
Qed.

(** C6. With a crossover rate of 0 [crossover] returns a new array that
    holds the entries of [pai1]; so it does, whatever the rate, when the
    draw is not below the rate, which is the branch without crossover. *)
Theorem crossover_sem_cruzamento (self : AlgoritmoGenetico) (pai1 pai2 : ref)
    (v1 : vec) (s : mundo) :
  heap_read (heap s) pai1 = Ok v1 ->
  let copia := fun (r : ref) (s' : mundo) =>
    r = ArrRef (length (heap s)) /\ heap s' = heap s ++ [Arr1 v1] /\
    heap_read (heap s') r = Ok v1 /\ heap_read (heap s') pai1 = Ok v1 in
  ((taxa_crossover self == Fin 0)%num ->
   returns (crossover self pai1 pai2) s copia)
  /\ ((Fin (random (gen s)).1 <? taxa_crossover self)%num = false ->
      returns (crossover self pai1 pai2) s copia).
Proof.
  intros Hr1 copia.
  assert (Hramo : (Fin (random (gen s)).1 <? taxa_crossover self)%num = false ->
                  returns (crossover self pai1 pai2) s copia).
  { intros Hu. unfold crossover.
    passo (np_random_random_spec s). intros u s1 (-> & _ & Hs1).
    rewrite Hu. rewrite <- Hs1 in Hr1.
    eapply returns_mono; [exact (copy_spec pai1 v1 s1 Hr1)|]. cbv beta.
    intros r s' (-> & Hs' & _). subst copia. cbv beta.
    rewrite Hs', Hs1. split; [reflexivity|]. split; [reflexivity|].
    split; [apply heap_read_new|].
    rewrite <- Hs1. now apply heap_read_app. }
  split; [|exact Hramo].
  intros Hzero. apply Hramo.
  destruct (random_range (gen s)) as (Hge & _).
  destruct (taxa_crossover self) as [z| | |]; simpl in Hzero; try tauto.
  simpl. apply Qltb_ge. lra.
Qed.

(** C7, as amended.  When the sum a child is divided by is zero, neither
    [crossover] nor [mutacao] raises an error: each returns a candidate,
    and this candidate is made of four [nan]. *)
Theorem renormalizacao_por_zero (self : AlgoritmoGenetico)
    (pai1 pai2 individuo : ref) (v1 v2 v : vec) (s : mundo) :
  heap_read (heap s) pai1 = Ok v1 -> valido v1 ->
  heap_read (heap s) pai2 = Ok v2 -> valido v2 ->
  heap_read (heap s) individuo = Ok v -> valido v ->
  returns (crossover self pai1 pai2) s (fun r s' =>
    exists x, heap_read (heap s') r = Ok x /\
      (x = v1 \/
       exists mascara filho,
         np_where mascara v1 v2 = Ok filho /\ x = vdiv filho (vsum filho) /\
         ((vsum filho == Fin 0)%num -> x = nan4)))
  /\ returns (mutacao self individuo) s (fun r s' =>
       (r = individuo /\ heap s' = heap s) \/
       exists idx y ruido x,
         v !! idx = Some y /\
         let a := vabs (<[idx := (y + Fin ruido)%num]> v) in
         heap_read (heap s') r = Ok x /\ x = vdiv a (vsum a) /\
         ((vsum a == Fin 0)%num -> x = nan4)).
Proof.
  intros Hr1 Hv1 Hr2 Hv2 Hr Hv. split.
  - pose proof Hv1 as (Hl1 & _). pose proof Hv2 as (Hl2 & _).
    eapply returns_mono; [exact (crossover_spec self _ _ _ _ s Hr1 Hr2 Hl1 Hl2)|].
    cbv beta. intros r s' (x & -> & -> & Hx). exists x.
    split; [apply heap_read_new|].
    destruct (_ <? _)%num; [|now left]. right.
    destruct Hx as (mascara & filho & Hm & Hf & ->).
    exists mascara, filho. split; [exact Hf|]. split; [reflexivity|].
    intros Hz.
    destruct (normaliza filho) as [(_ & Hn)|(Hnz & _)]; [| |exact Hn|tauto].
    + exact (np_where_length mascara v1 v2 filho Hm Hl1 Hl2 Hf).
    + exact (np_where_Forall fin_nneg mascara v1 v2 filho Hm Hl1 Hl2
               (valido_fin_nneg _ Hv1) (valido_fin_nneg _ Hv2) Hf).
  - pose proof Hv as (Hl & _).
    eapply returns_mono; [exact (mutacao_spec self _ _ s Hr Hl)|].
    cbv beta. intros r s'. destruct (_ <? _)%num; [|now left].
    intros (idx & y & ruido & Hy & Hpost). cbv zeta in Hpost.
    destruct Hpost as (-> & ->). right.
    exists idx, y, ruido. eexists. split; [exact Hy|]. cbv zeta. split.
    + rewrite <- (heap_write_length (heap s) individuo
                   (<[idx := (y + Fin ruido)%num]> v)).
      apply heap_read_new.
    + split; [reflexivity|]. intros Hz.
      destruct (normaliza (vabs (<[idx := (y + Fin ruido)%num]> v)))
        as [(_ & Hn)|(Hnz & _)]; [| |exact Hn|tauto].
      * now rewrite vabs_length, length_insert.
      * apply vabs_fin_nneg, insert_fin; auto using valido_fin_nneg.
Qed.

(** ** The tournament *)

(** C5, as amended.  [selecao_torneio] draws [torneio_k] indices, with
    replacement, and returns a copy of the individual whose fitness is the
    best of the fitness values of the individuals drawn, in the order of
    the draws: the first individual drawn with a [nan] fitness when there
    is one, and otherwise the first individual drawn of lowest fitness.
    So, when none of the individuals drawn has a [nan] fitness, none of
    them has a lower fitness than the one returned, and this one is the
    individual of strictly smallest fitness of the population whenever
    the index of that one is among those drawn; this holds whatever
    [torneio_k >= 1] is, the size of the population included. *)
Theorem selecao_torneio_melhor_sorteado (self : AlgoritmoGenetico)
    (populacao : loc) (rows : list vec) (fitness_values : vec) (s : mundo) :
  heap s !! populacao = Some (Arr2 rows) ->
  (0 < length rows)%nat -> (1 <= torneio_k self)%nat ->
  length fitness_values = length rows ->
  returns (selecao_torneio self populacao fitness_values) s (fun r s' =>
    exists idx s1 sub p j v y,
      np_random_choice (length rows) (torneio_k self) s = Ok (idx, s1) /\
      length idx = torneio_k self /\
      Forall2 (fun i x => fitness_values !! i = Some x) idx sub /\
      primeiro_minimo sub p /\ sub !! p = Some y /\ idx !! p = Some j /\
      rows !! j = Some v /\ fitness_values !! j = Some y /\
      r = ArrRef (length (heap s)) /\ heap s' = heap s ++ [Arr1 v] /\
      heap_read (heap s') r = Ok v /\
      (Exists (fun x => x = NaN) sub -> y = NaN) /\
      (Forall (fun x => x <> NaN) sub ->
       Forall (fun i => forall x, fitness_values !! i = Some x ->
                                  (y <=? x)%num = true) idx /\
       forall m ym,
         fitness_values !! m = Some ym ->
         (forall i x, i <> m -> fitness_values !! i = Some x ->
                      (ym <? x)%num = true) ->
         m ∈ idx -> j = m)).
Proof.
  intros Hp Hn Hk Hfit. unfold selecao_torneio.
  passo (len_spec populacao rows s Hp). intros ? ? (-> & ->).
  destruct (np_random_choice_spec (length rows) (torneio_k self) s Hn)
    as (idx & s1 & Hch & Hlen & Hidx & Hs1).
  apply returns_bind. exists idx, s1. split; [exact Hch|].
  rewrite <- Hfit in Hidx.
  destruct (take_idx_spec fitness_values idx Hidx) as (sub & Hsub & Hall).
  apply returns_bind. eapply returns_lift; [exact Hsub|].
  assert (Hne : sub <> []).
  { intros ->. apply Forall2_length in Hall. simpl in Hall. lia. }
  destruct (np_argmin_forte sub Hne) as (p & Hj & Hpm).
  pose proof Hpm as (y & Hy & Hantes & Hmin).
  apply returns_bind. eapply returns_lift; [exact Hj|].
  destruct (Forall2_lookup_r _ _ _ _ _ Hall Hy) as (j & Hm & Hfj).
  apply returns_bind. eapply returns_lift;
    [exact (getitem_ok _ _ _ Hm)|].
  assert (Hjlt : (j < length rows)%nat).
  { rewrite <- Hfit. eapply lookup_lt_Some; exact Hfj. }
  destruct (lookup_lt_is_Some_2 rows j Hjlt) as [v Hv].
  assert (Hr : heap_read (heap s1) (RowRef populacao j) = Ok v)
    by (simpl; now rewrite Hs1, Hp, Hv).
  eapply returns_mono; [exact (copy_spec _ v s1 Hr)|]. cbv beta.
  intros r s' (-> & Hs' & Hg). exists idx, s1, sub, p, j, v, y.
  rewrite Hs', Hs1.
  do 10 (split; [auto|]). split; [apply heap_read_new|]. split.
  - intros Hex. destruct (is_nan y) eqn:Hny; [now apply is_nan_true|].
    apply is_nan_false in Hny. specialize (Hmin Hny).
    apply Exists_exists in Hex. destruct Hex as (x & Hx & ->).
    rewrite Forall_forall in Hmin. specialize (Hmin NaN Hx).
    now destruct y.
  - intros Hnn.
    assert (Hny : y <> NaN).
    { rewrite Forall_forall in Hnn. apply Hnn.
      eapply list_elem_of_lookup_2; exact Hy. }
    assert (Hle : Forall (fun i => forall x, fitness_values !! i = Some x ->
                            (y <=? x)%num = true) idx)
      by (eapply Forall2_lookup_Forall; [exact Hall | exact (Hmin Hny)]).
    split; [exact Hle|].
    intros m ym Hym Hstrict Hin.
    destruct (decide (j = m)) as [|Hne']; [assumption|].
    rewrite Forall_forall in Hle. specialize (Hle m Hin ym Hym).
    apply nleb_nltb in Hle. rewrite (Hstrict j y Hne' Hfj) in Hle.
    discriminate.
Qed.

(** ** The population is not changed in place *)

Lemma mutacao_frame (self : AlgoritmoGenetico) (individuo : ref) (v : vec)
    (s : mundo) :
  heap_read (heap s) individuo = Ok v -> length v = 4%nat ->
  returns (mutacao self individuo) s (fun r s' =>
    forall l, l <> base individuo -> (l < length (heap s))%nat ->
              heap s' !! l = heap s !! l).
Proof.
  intros Hr Hl.
  eapply returns_mono; [exact (mutacao_spec self _ _ s Hr Hl)|].
  cbv beta. intros r s'. destruct (_ <? _)%num.
  - intros (idx & y & ruido & Hy & Hpost). cbv zeta in Hpost.
    destruct Hpost as (-> & ->). intros l Hne Hlt.
    rewrite lookup_app_l by now rewrite heap_write_length.
    now apply heap_write_other.
  - intros (-> & ->). auto.
Qed.

(** C8. The operators do not change the individuals of the current
    population: [selecao_torneio] returns a new array that holds a row of
    the population, [crossover] returns a new array, [mutacao] changes no
    array but the one it is given, and so an offspring is produced, and a
    whole generation is run, with every array that was in the heap left as
    it was. *)
Theorem operadores_preservam_populacao (self : AlgoritmoGenetico)
    (populacao : loc) (rows : list vec) (fitness_values : vec)
    (pai1 pai2 filho : ref) (v1 v2 vf : vec) (s : mundo) :
  populacao_ok (tamanho_pop self) (heap s) populacao rows ->
  (0 < tamanho_pop self)%nat -> (1 <= torneio_k self)%nat ->
  length fitness_values = tamanho_pop self ->
  tabela_ok (componentes self) ->
  heap_read (heap s) pai1 = Ok v1 -> length v1 = 4%nat ->
  heap_read (heap s) pai2 = Ok v2 -> length v2 = 4%nat ->
  heap_read (heap s) filho = Ok vf -> length vf = 4%nat ->
  returns (selecao_torneio self populacao fitness_values) s (fun r s' =>
    r = ArrRef (length (heap s)) /\
    exists j v, rows !! j = Some v /\ heap s' = heap s ++ [Arr1 v])
  /\ returns (crossover self pai1 pai2) s (fun r s' =>
       r = ArrRef (length (heap s)) /\
       exists v, heap s' = heap s ++ [Arr1 v])
  /\ returns (mutacao self filho) s (fun r s' =>
       forall l, l <> base filho -> (l < length (heap s))%nat ->
                 heap s' !! l = heap s !! l)
  /\ returns (gerar_filho self populacao fitness_values) s (fun r s' =>
       (length (heap s) <= base r)%nat /\ heap s `prefix_of` heap s' /\
       heap s' !! populacao = Some (Arr2 rows))
  /\ returns (geracao self populacao) s (fun res s' =>
       heap s `prefix_of` heap s' /\ heap s' !! populacao = Some (Arr2 rows)).
Proof.
  intros Hok Hn Hk Hfit Ht Hr1 Hl1 Hr2 Hl2 Hrf Hlf.
  pose proof Hok as (Hp & Hlen & Hrows).
  split; [|split; [|split; [|split]]].
  - eapply returns_mono.
    + apply (selecao_torneio_spec self populacao rows fitness_values s Hp);
        lia.
    + cbv beta.
      intros r s' (idx & s1 & j & v & y & _ & _ & Hv & _ & _ & -> & Hs' & _).
      eauto.
  - eapply returns_mono; [exact (crossover_spec self _ _ _ _ s Hr1 Hr2 Hl1 Hl2)|].
    cbv beta. intros r s' (v & -> & -> & _). eauto.
  - exact (mutacao_frame self filho vf s Hrf Hlf).
  - eapply returns_mono;
      [exact (gerar_filho_spec self populacao rows fitness_values s
                Hok Hn Hk Hfit)|].
    cbv beta. intros r s' (Hb & _ & Hpre). split; [exact Hb|].
    split; [exact Hpre|]. eapply prefix_lookup_Some; eauto.
  - eapply returns_mono; [exact (geracao_spec self populacao rows s Hok Hn Hk Ht)|].
    intros res s' (fit & j & mf & vj & rows' & sa & filhos & sb & Hpost).
    destruct Hpost as (_ & _ & _ & _ & _ & _ & _ & _ & _ & _ & Hpre & _).
    split; [exact Hpre|]. eapply prefix_lookup_Some; eauto.
Qed.

(** ** Offspring and the record, as the specification has them *)

Lemma mapM_Forall2 {A B : Type} (f : A -> result B) (l : list A)
    (l' : list B) :
  mapM f l = Ok l' -> Forall2 (fun x y => f x = Ok y) l l'.
Proof.
  revert l'. induction l as [|x l IH]; intros l' Hm; cbn [mapM] in Hm.
  - injection Hm as <-. constructor.
  - destruct (f x) as [y| |] eqn:Hy; try discriminate.
    destruct (mapM f l) as [k| |]; try discriminate.
    injection Hm as <-. constructor; auto.
Qed.

Lemma gerar_filho_filho_spec (self : AlgoritmoGenetico) (populacao : loc)
    (fitness_values : vec) (s s' : mundo) (r : ref) :
  gerar_filho self populacao fitness_values s = Ok (r, s') ->
  filho_spec self populacao fitness_values s r s'.
Proof.
  unfold gerar_filho, filho_spec, mbind, M_bind.
  destruct (selecao_torneio self populacao fitness_values s)
    as [[pai1 s1]| |] eqn:H1; try discriminate.
  destruct (selecao_torneio self populacao fitness_values s1)
    as [[pai2 s2]| |] eqn:H2; try discriminate.
  destruct (crossover self pai1 pai2 s2) as [[filho s3]| |] eqn:H3;
    try discriminate.
  intros H4. exists pai1, s1, pai2, s2, filho, s3. auto.
Qed.

Lemma replicateM_prole_spec (self : AlgoritmoGenetico) (populacao : loc)
    (fitness_values : vec) (n : nat) (filhos : list ref) (s s' : mundo) :
  replicateM n (gerar_filho self populacao fitness_values) s
  = Ok (filhos, s') ->
  length filhos = n /\ prole_spec self populacao fitness_values filhos s s'.
Proof.
  revert filhos s. induction n as [|n IH]; intros filhos s; simpl.
  - intros [= <- <-]. split; reflexivity.
  - unfold mbind at 1, M_bind.
    destruct (gerar_filho self populacao fitness_values s)
      as [[r s1]| |] eqn:Hg; try discriminate.
    unfold mbind at 1, M_bind.
    destruct (replicateM n (gerar_filho self populacao fitness_values) s1)
      as [[xs s2]| |] eqn:Hr; try discriminate.
    intros [= <- <-]. destruct (IH xs s1 Hr) as (Hl & Hp).
    split; [simpl; congruence|].
    exists s1. split; [now apply gerar_filho_filho_spec | exact Hp].
Qed.

(** The best cost of an instance that had none is the lowest of the values
    recorded that are not [nan], and infinity when there is none. *)
Lemma acompanha_minimo_sem_nan (m : num) (hs : list num) :
  acompanha PInf hs m -> minimo m (PInf :: sem_nan hs).
Proof.
  intros Hac.
  assert (Hm : m <> NaN)
    by (eapply acompanha_not_nan; [exact Hac | discriminate]).
  destruct Hac as (Hin & Hall & _). split.
  - destruct Hin as [<-|Hin]; [now left | right].
    apply filter_In. split; [exact Hin | now destruct m].
  - constructor; [now destruct m|].
    apply Forall_forall. intros x Hx. apply list_elem_of_In in Hx.
    apply filter_In in Hx. destruct Hx as (Hx & Hnx).
    rewrite Forall_forall in Hall.
    apply nleb_total; [exact Hm | now destruct x |].
    apply Hall. now apply list_elem_of_In.
Qed.

(** ** The run *)

(** C4, as amended.  With at least one generation, one individual and one
    draw per tournament, [executar] returns: it does not raise and its
    [while] loop does not run out of fuel.  Its [for] loop runs over
    [range(geracoes)] and adds one entry to [historico_custos] per
    generation, [geracoes] in all.  Every generation, which leaves the
    hyperparameters as they are, builds a population of [tamanho_pop]
    rows.  The first row holds the entries of the individual whose fitness
    is the best of the fitness values of the current population: the first
    individual of lowest fitness when no fitness is [nan], and the first
    individual with a [nan] fitness otherwise.  The other [tamanho_pop - 1]
    rows hold the offspring, each produced by two tournaments, the
    crossover of the two individuals selected and the mutation of the
    child, one offspring after the other. *)
Theorem executar_termina (self : AlgoritmoGenetico) (s : mundo) :
  (0 < geracoes self)%nat -> (0 < tamanho_pop self)%nat ->
  (1 <= torneio_k self)%nat -> tabela_ok (componentes self) ->
  (exists sol custo self' s' hs,
     executar self s = Ok (sol, custo, self', s') /\
     historico_custos self' = historico_custos self ++ hs /\
     length hs = geracoes self /\
     (historico_custos self = [] ->
      length (historico_custos self') = geracoes self))
  /\ (exists populacao s0 rows,
        criar_populacao self s = Ok (populacao, s0) /\
        populacao_ok (tamanho_pop self) (heap s0) populacao rows)
  /\ (forall populacao rows s1,
        populacao_ok (tamanho_pop self) (heap s1) populacao rows ->
        exists self' populacao' s' fit j mf elite rows' sa filhos sb,
          geracao self populacao s1 = Ok (self', populacao', s') /\
          mesma_config self self' /\
          historico_custos self' = historico_custos self ++ [mf] /\
          Forall2 (fun v x => fitness self v = Ok x) rows fit /\
          primeiro_minimo fit j /\
          fit !! j = Some mf /\ rows !! j = Some elite /\
          Forall (fun x => (x <? mf)%num = false) fit /\
          populacao_ok (tamanho_pop self) (heap s') populacao' rows' /\
          rows' !! 0%nat = Some elite /\
          gen sa = gen s1 /\
          heap sa = heap s1 ++ (if (mf <? melhor_custo self)%num
                                then [Arr1 elite; Arr1 elite]
                                else [Arr1 elite]) /\
          prole_spec self' populacao fit filhos sa sb /\
          populacao' = length (heap sb) /\
          heap s' = heap sb ++ [Arr2 rows'] /\ gen s' = gen sb /\
          length filhos = (tamanho_pop self - 1)%nat /\
          Forall2 (fun r v => heap_read (heap sb) r = Ok v)
            filhos (tail rows')).
Proof.
  intros Hg Hn Hk Ht. split; [|split].
  - destruct (executar_spec self s Hn Hk Ht)
      as ([[sol custo] self'] & s' & Hex & hs & _ & _ & Hh & Hl & _).
    simpl in *. exists sol, custo, self', s', hs.
    do 3 (split; [assumption|]). intros Hnil.
    now rewrite Hh, Hnil.
  - destruct (criar_populacao_spec self s) as (p & s0 & Hc & rows & Hok & _).
    eauto.
  - intros populacao rows s1 Hok.
    destruct (geracao_spec self populacao rows s1 Hok Hn Hk Ht)
      as ([self' p'] & s' & Hge & fit & j & mf & vj & rows' & sa & filhos
          & sb & Hpost).
    simpl in Hpost.
    destruct Hpost as (Hfit & Hj & Hmf & Hvj & Hmin & Hh & _ & _ & Hcfg & Hok'
                       & _ & H0 & Hga & Hha & Hrep & Hp' & Hs' & Hg' & Hf).
    assert (Hne : fit <> []) by (intros ->; discriminate).
    destruct (np_argmin_forte fit Hne) as (j' & Hj' & Hpm).
    assert (j' = j) by congruence. subst j'.
    destruct (replicateM_prole_spec _ _ _ _ _ _ _ Hrep) as (Hlf & Hprole).
    exists self', p', s', fit, j, mf, vj, rows', sa, filhos, sb.
    split; [exact Hge|]. split; [exact Hcfg|]. split; [exact Hh|].
    split; [exact (mapM_Forall2 _ _ _ Hfit)|]. split; [exact Hpm|].
    do 7 (split; [assumption|]). split; [exact Hprole|].
    do 3 (split; [assumption|]). split; [exact Hlf | exact Hf].
Qed.

(** C3, as amended.  In a run on a fresh instance, take the state after the
    generations before [g] and the state after generation [g] (the state
    [executar] ends in when [geracoes] is [g + 1]).  Generation [g] adds
    its best fitness to [historico_custos] and overwrites [melhor_custo]
    with it only when it is strictly smaller, so that [melhor_custo] does
    not go up; after generation [g] it is the lowest of the values recorded
    that are not [nan], and infinity when all of them are [nan]: it is the
    minimum of the values recorded when none of them is [nan]. *)
Theorem melhor_custo_minimo (self : AlgoritmoGenetico) (s : mundo) (g : nat) :
  historico_custos self = [] -> melhor_custo self = PInf ->
  (0 < tamanho_pop self)%nat -> (1 <= torneio_k self)%nat ->
  tabela_ok (componentes self) ->
  exists populacao s0 self_g pop_g s_g self' pop' s' mf,
    criar_populacao self s = Ok (populacao, s0) /\
    laco (seq 0 g) self populacao s0 = Ok (self_g, pop_g, s_g) /\
    laco (seq 0 (S g)) self populacao s0 = Ok (self', pop', s') /\
    length (historico_custos self_g) = g /\
    historico_custos self' = historico_custos self_g ++ [mf] /\
    melhor_custo self'
      = (if (mf <? melhor_custo self_g)%num then mf else melhor_custo self_g) /\
    (melhor_custo self' <=? melhor_custo self_g)%num = true /\
    acompanha PInf (historico_custos self') (melhor_custo self') /\
    minimo (melhor_custo self') (PInf :: sem_nan (historico_custos self')) /\
    (Forall (fun x => x <> NaN) (historico_custos self') ->
     minimo (melhor_custo self') (historico_custos self')) /\
    (geracoes self = S g ->
     executar self s
     = Ok (melhor_solucao self', melhor_custo self', self', s')).
Proof.
  intros Hnil Hinf Hn Hk Ht.
  destruct (criar_populacao_spec self s) as (p & s0 & Hc & rows & Hok & _).
  destruct (laco_spec (seq 0 g) self p rows s0 Hok Hn Hk Ht)
    as ([self_g pop_g] & s_g & Hl & hs & rows_g & Hh & Hlen & Hac & Hcfg
        & Hokg & _).
  simpl in Hh, Hlen, Hac, Hcfg, Hokg. rewrite Hnil in Hh. simpl in Hh.
  rewrite Hinf in Hac. rewrite length_seq in Hlen.
  pose proof Hcfg as (HP & _ & _ & _ & HK & HC & _).
  rewrite <- HP in Hokg.
  destruct (geracao_spec self_g pop_g rows_g s_g Hokg)
    as ([self' pop'] & s' & Hge & fit & j & mf & vj & rows' & sa & filhos
        & sb & Hpost); try congruence.
  simpl in Hpost.
  destruct Hpost as (_ & _ & _ & _ & _ & Hh' & Hm' & _).
  assert (Hpasso : acompanha (melhor_custo self_g) [mf] (melhor_custo self'))
    by (rewrite Hm'; apply acompanha_passo).
  assert (Hg_nan : melhor_custo self_g <> NaN)
    by (eapply acompanha_not_nan; [exact Hac | discriminate]).
  assert (Hac' : acompanha PInf (historico_custos self') (melhor_custo self')).
  { rewrite Hh', Hh. eapply acompanha_trans; eauto. }
  assert (Hl' : laco (seq 0 (S g)) self p s0 = Ok (self', pop', s')).
  { rewrite seq_S, laco_app. rewrite (bind_ok_eq _ _ _ _ _ Hl). simpl.
    now rewrite (bind_ok_eq _ _ _ _ _ Hge). }
  exists p, s0, self_g, pop_g, s_g, self', pop', s', mf.
  split; [exact Hc|]. split; [exact Hl|]. split; [exact Hl'|].
  split; [now rewrite Hh|]. split; [exact Hh'|]. split; [exact Hm'|].
  split; [eapply acompanha_nleb; eauto|]. split; [exact Hac'|].
  split; [exact (acompanha_minimo_sem_nan _ _ Hac')|]. split.
  - intros Hnan. apply acompanha_minimo; [exact Hac' | | exact Hnan].
    rewrite Hh'. now destruct (historico_custos self_g).
  - intros HG. unfold executar. rewrite (bind_ok_eq _ _ _ _ _ Hc), HG.
    now rewrite (bind_ok_eq _ _ _ _ _ Hl').
Qed.

(** C10, as amended.  A second call of [executar] on the instance the first
    call has left starts from the history and the best cost of the first:
    the history keeps the [geracoes] entries of the first run and grows to
    twice as many, and the best cost returned is the lowest of the values
    recorded over the two runs that are not [nan], and infinity when all of
    them are [nan]: it is the minimum of the values recorded over the two
    runs when none of them is [nan]. *)
Theorem executar_segunda_vez (self : AlgoritmoGenetico) (s : mundo) :
  historico_custos self = [] -> melhor_custo self = PInf ->
  (0 < geracoes self)%nat -> (0 < tamanho_pop self)%nat ->
  (1 <= torneio_k self)%nat -> tabela_ok (componentes self) ->
  exists sol1 custo1 self1 s1 sol2 custo2 self2 s2 hs2,
    executar self s = Ok (sol1, custo1, self1, s1) /\
    executar self1 s1 = Ok (sol2, custo2, self2, s2) /\
    length (historico_custos self1) = geracoes self /\
    historico_custos self2 = historico_custos self1 ++ hs2 /\
    length hs2 = geracoes self /\
    length (historico_custos self2) = (2 * geracoes self)%nat /\
    custo2 = melhor_custo self2 /\
    acompanha PInf (historico_custos self2) custo2 /\
    (custo2 <=? custo1)%num = true /\
    minimo custo2 (PInf :: sem_nan (historico_custos self2)) /\
    (Forall (fun x => x <> NaN) (historico_custos self2) ->
     minimo custo2 (historico_custos self2)).
Proof.
  intros Hnil Hinf Hg Hn Hk Ht.
  destruct (executar_spec self s Hn Hk Ht)
    as ([[sol1 custo1] self1] & s1 & Hex1 & hs1 & _ & Hc1 & Hh1 & Hl1 & Hac1
        & Hcfg1).
  simpl in Hc1, Hh1, Hac1, Hcfg1. rewrite Hnil in Hh1. simpl in Hh1.
  rewrite Hinf in Hac1.
  pose proof Hcfg1 as (HP & _ & _ & HG & HK & HC & _).
  destruct (executar_spec self1 s1)
    as ([[sol2 custo2] self2] & s2 & Hex2 & hs2 & _ & Hc2 & Hh2 & Hl2 & Hac2
        & _); try congruence.
  simpl in Hc2, Hh2, Hac2.
  assert (Hac : acompanha PInf (historico_custos self2) (melhor_custo self2)).
  { rewrite Hh2, Hh1. eapply acompanha_trans; eauto. }
  assert (H1nan : melhor_custo self1 <> NaN)
    by (eapply acompanha_not_nan; [exact Hac1 | discriminate]).
  exists sol1, custo1, self1, s1, sol2, custo2, self2, s2, hs2.
  split; [exact Hex1|]. split; [exact Hex2|].
  split; [now rewrite Hh1|]. split; [exact Hh2|]. split; [congruence|].
  split; [rewrite Hh2, Hh1, length_app; lia|]. split; [exact Hc2|].
  subst custo1 custo2. split; [exact Hac|].
  split; [eapply acompanha_nleb; eauto|].
  split; [exact (acompanha_minimo_sem_nan _ _ Hac)|].
  intros Hnan. apply acompanha_minimo; [exact Hac | | exact Hnan].
  rewrite Hh2, Hh1. destruct hs1; simpl in *; [lia | discriminate].
Qed.

End Propriedades.

(** ** The equal blend *)

(** C9. With the table and the thresholds of the program, the blend of a
    quarter of each component has octane 90, below the minimum of 91, and
    vapour pressure 60.5, benzene 1.8 and sulphur 47.5, within their
    maxima; its penalty is 100, its cost 2.525 and its fitness 102.525. *)
Theorem blend_igual_inviavel :
  exists oct pres benz enx pen custo fit,
    calcular_propriedades ga_padrao blend_igual = Ok (oct, pres, benz, enx) /\
    (oct == Fin 90)%num /\
    (oct <? octanagem_min (specs ga_padrao))%num = true /\
    (pres == Fin 60.5)%num /\
    (pres <=? pressao_vapor_max (specs ga_padrao))%num = true /\
    (benz == Fin 1.8)%num /\
    (benz <=? benzeno_max (specs ga_padrao))%num = true /\
    (enx == Fin 47.5)%num /\
    (enx <=? enxofre_max (specs ga_padrao))%num = true /\
    atende (specs ga_padrao) oct pres benz enx = false /\
    calcular_penalidades ga_padrao blend_igual = Ok pen /\
    (pen == Fin 100)%num /\
    (pen == Fin 100 * (Fin 91 - Fin 90))%num /\
    calcular_custo ga_padrao blend_igual = Ok custo /\
    (custo == Fin 2.525)%num /\
    fitness ga_padrao blend_igual = Ok fit /\
    (fit == Fin 102.525)%num.
Proof.
  do 7 eexists.
  split; [vm_compute; reflexivity|].
  do 9 (split; [vm_compute; reflexivity|]).
  split; [vm_compute; reflexivity|].
  do 2 (split; [vm_compute; reflexivity|]).
  split; [vm_compute; reflexivity|].
  split; [vm_compute; reflexivity|].
  split; vm_compute; reflexivity.
Qed.

(** ** Concrete runs *)

(** The penalty of the first component alone, on the instance of the
    script. *)
Lemma calcular_penalidades_spec_witness :
  let oct := mistura_spec puro1 (octanagem (componentes ga_padrao)) in
  let pres := mistura_spec puro1 (pressao_vapor (componentes ga_padrao)) in
  let benz := mistura_spec puro1 (teor_benzeno (componentes ga_padrao)) in
  let enx := mistura_spec puro1 (teor_enxofre (componentes ga_padrao)) in
  calcular_propriedades ga_padrao puro1 = Ok (oct, pres, benz, enx) /\
  exists p,
    calcular_penalidades ga_padrao puro1 = Ok p /\
    (p == penalty_spec (specs ga_padrao) oct pres benz enx)%num /\
    (Fin 0 <=? p)%num = true /\
    (atende (specs ga_padrao) oct pres benz enx = true -> p = Fin 0).
Proof.
  apply (calcular_penalidades_spec ga_padrao puro1).
  - reflexivity.
  - repeat split.
Defined.

(** C2 does not hold as stated: the two parents are candidates, the draws
    make [crossover] mix them and take from each parent entries that are
    zero, and the child it returns is not a candidate. *)
Lemma crossover_fora_da_tolerancia :
  valido puro1 /\ valido puro2 /\
  heap_read (heap mundo_cruzamento) (ArrRef 0) = Ok puro1 /\
  heap_read (heap mundo_cruzamento) (ArrRef 1) = Ok puro2 /\
  exists s',
    crossover ga_padrao (ArrRef 0) (ArrRef 1) mundo_cruzamento
    = Ok (ArrRef 2, s') /\
    heap_read (heap s') (ArrRef 2) = Ok nan4 /\
    ~ tolerancia nan4.
Proof.
  split; [split; [reflexivity | split; [repeat constructor | reflexivity]]|].
  split; [split; [reflexivity | split; [repeat constructor | reflexivity]]|].
  split; [reflexivity|]. split; [reflexivity|].
  eexists. split; [vm_compute; reflexivity|]. split; [reflexivity|].
  exact nan4_not_tolerancia.
Qed.

(** The three operators on [puro1] and [puro2]. *)
Lemma candidatos_validos_ou_nan_witness :
  let s := mundo_cruzamento in
  let u := Fin (random (gen s)).1 in
  let s1 := Mundo (random (gen s)).2 (heap s) in
  let idx := (randint 4 (gen s1)).1 in
  let ruido := (normal 0 0.1 (randint 4 (gen s1)).2).1 in
  let g3 := (normal 0 0.1 (randint 4 (gen s1)).2).2 in
  (exists w sw x,
     np_random_random_n 4 s = Ok (w, sw) /\
     criar_individuo s
     = Ok (ArrRef (length (heap s)), Mundo (gen sw) (heap s ++ [Arr1 x])) /\
     renormalizado w x)
  /\ (if (u <? taxa_crossover ga_padrao)%num
      then exists sorteio s2 filho x,
             np_random_random_n 4 s1 = Ok (sorteio, s2) /\
             np_where (map (fun d => (d <? Fin 0.5)%num) sorteio) puro1 puro2
             = Ok filho /\
             crossover ga_padrao (ArrRef 0) (ArrRef 1) s
             = Ok (ArrRef (length (heap s)),
                   Mundo (gen s2) (heap s ++ [Arr1 x])) /\
             renormalizado filho x
      else crossover ga_padrao (ArrRef 0) (ArrRef 1) s
           = Ok (ArrRef (length (heap s)),
                 Mundo (gen s1) (heap s ++ [Arr1 puro1])))
  /\ (if (u <? taxa_mutacao ga_padrao)%num
      then exists y x,
             puro1 !! idx = Some y /\
             let v' := <[idx := (y + Fin ruido)%num]> puro1 in
             mutacao ga_padrao (ArrRef 0) s
             = Ok (ArrRef (length (heap s)),
                   Mundo g3 (heap_write (heap s) (ArrRef 0) v' ++ [Arr1 x])) /\
             renormalizado (vabs v') x
      else mutacao ga_padrao (ArrRef 0) s = Ok (ArrRef 0, s1)).
Proof.
  apply (candidatos_validos_ou_nan ga_padrao (ArrRef 0) (ArrRef 1) (ArrRef 0)
           puro1 puro2 puro1 mundo_cruzamento).
  - reflexivity.
  - split; [reflexivity | split; [repeat constructor | reflexivity]].
  - reflexivity.
  - split; [reflexivity | split; [repeat constructor | reflexivity]].
  - reflexivity.
  - split; [reflexivity | split; [repeat constructor | reflexivity]].
Defined.

(** [crossover] with the rate 0 on [puro1] and [puro2]. *)
Lemma crossover_sem_cruzamento_witness :
  let copia := fun (r : ref) (s' : mundo) =>
    r = ArrRef (length (heap mundo_cruzamento)) /\
    heap s' = heap mundo_cruzamento ++ [Arr1 puro1] /\
    heap_read (heap s') r = Ok puro1 /\
    heap_read (heap s') (ArrRef 0) = Ok puro1 in
  ((taxa_crossover ga_sem_crossover == Fin 0)%num ->
   returns (crossover ga_sem_crossover (ArrRef 0) (ArrRef 1))
     mundo_cruzamento copia)
  /\ ((Fin (random (gen mundo_cruzamento)).1
       <? taxa_crossover ga_sem_crossover)%num = false ->
      returns (crossover ga_sem_crossover (ArrRef 0) (ArrRef 1))
        mundo_cruzamento copia).
Proof.
  apply (crossover_sem_cruzamento ga_sem_crossover (ArrRef 0) (ArrRef 1)
           puro1 mundo_cruzamento).
  reflexivity.
Defined.

(** C7 does not hold as stated: in these two runs the vector to normalise
    sums to zero, and [crossover] and [mutacao] return a candidate, of four
    [nan], where the claim has them fail. *)
Lemma soma_zero_sem_erro :
  np_where [false; true; true; true] puro1 puro2
  = Ok [Fin 0; Fin 0; Fin 0; Fin 0] /\
  (vsum [Fin 0; Fin 0; Fin 0; Fin 0] == Fin 0)%num /\
  (exists s',
     crossover ga_padrao (ArrRef 0) (ArrRef 1) mundo_cruzamento
     = Ok (ArrRef 2, s') /\
     heap_read (heap s') (ArrRef 2) = Ok nan4) /\
  (forall e, crossover ga_padrao (ArrRef 0) (ArrRef 1) mundo_cruzamento
             <> Raise e) /\
  (exists s',
     mutacao ga_toda_mutacao (ArrRef 0) mundo_mutacao = Ok (ArrRef 1, s') /\
     heap_read (heap s') (ArrRef 0) = Ok [Fin (1 + (0 + 0.1 * -10)); Fin 0; Fin 0; Fin 0] /\
     heap_read (heap s') (ArrRef 1) = Ok nan4) /\
  (forall e, mutacao ga_toda_mutacao (ArrRef 0) mundo_mutacao <> Raise e).
Proof.
  split; [reflexivity|]. split; [reflexivity|].
  split; [eexists; split; [vm_compute; reflexivity | reflexivity]|].
  split; [intros e; vm_compute; discriminate|].
  split; [eexists; split; [vm_compute; reflexivity | split; reflexivity]|].
  intros e. vm_compute. discriminate.
Qed.

(** [crossover] and [mutacao] on [puro1] and [puro2]. *)
Lemma renormalizacao_por_zero_witness :
  returns (crossover ga_padrao (ArrRef 0) (ArrRef 1)) mundo_cruzamento
    (fun r s' =>
       exists x, heap_read (heap s') r = Ok x /\
         (x = puro1 \/
          exists mascara filho,
            np_where mascara puro1 puro2 = Ok filho /\
            x = vdiv filho (vsum filho) /\
            ((vsum filho == Fin 0)%num -> x = nan4)))
  /\ returns (mutacao ga_padrao (ArrRef 0)) mundo_cruzamento (fun r s' =>
       (r = ArrRef 0 /\ heap s' = heap mundo_cruzamento) \/
       exists idx y ruido x,
         puro1 !! idx = Some y /\
         let a := vabs (<[idx := (y + Fin ruido)%num]> puro1) in
         heap_read (heap s') r = Ok x /\ x = vdiv a (vsum a) /\
         ((vsum a == Fin 0)%num -> x = nan4)).
Proof.
  apply (renormalizacao_por_zero ga_padrao (ArrRef 0) (ArrRef 1) (ArrRef 0)
           puro1 puro2 puro1 mundo_cruzamento).
  - reflexivity.
  - split; [reflexivity | split; [repeat constructor | reflexivity]].
  - reflexivity.
  - split; [reflexivity | split; [repeat constructor | reflexivity]].
  - reflexivity.
  - split; [reflexivity | split; [repeat constructor | reflexivity]].
Defined.

(** C5 does not hold as stated: the tournament has the size of the
    population, the two fitness values differ, and the draws (with
    replacement) pick the first individual twice; it is returned, though
    the second has the smaller fitness. *)
Lemma torneio_nao_devolve_minimo :
  torneio_k ga_pequeno = length [puro1; puro2] /\
  heap mundo_torneio !! 0%nat = Some (Arr2 [puro1; puro2]) /\
  (exists f1 f2,
     fitness ga_pequeno puro1 = Ok f1 /\ fitness ga_pequeno puro2 = Ok f2 /\
     (f1 == Fin 1752.5)%num /\ (f2 == Fin 303)%num) /\
  (Fin 303 <? Fin 1752.5)%num = true /\
  exists s',
    selecao_torneio ga_pequeno 0%nat fitness_puros mundo_torneio
    = Ok (ArrRef 1, s') /\
    heap_read (heap s') (ArrRef 1) = Ok puro1 /\
    heap_read (heap s') (ArrRef 1) <> Ok puro2.
Proof.
  split; [reflexivity|]. split; [reflexivity|].
  split; [do 2 eexists; repeat split; vm_compute; reflexivity|].
  split; [reflexivity|].
  eexists. split; [vm_compute; reflexivity|]. split; [reflexivity|].
  simpl. discriminate.
Qed.

(** A tournament of two in the population of [puro1] and [puro2], where
    the second has the strictly smaller fitness; the two individuals are
    drawn, the first and then the second. *)
Lemma selecao_torneio_melhor_sorteado_witness :
  returns (selecao_torneio ga_pequeno 0%nat fitness_puros)
    mundo_torneio_ambos
    (fun r s' =>
       exists idx s1 sub p j v y,
         np_random_choice (length [puro1; puro2]) (torneio_k ga_pequeno)
           mundo_torneio_ambos = Ok (idx, s1) /\
         length idx = torneio_k ga_pequeno /\
         Forall2 (fun i x => fitness_puros !! i = Some x) idx sub /\
         primeiro_minimo sub p /\ sub !! p = Some y /\ idx !! p = Some j /\
         [puro1; puro2] !! j = Some v /\ fitness_puros !! j = Some y /\
         r = ArrRef (length (heap mundo_torneio_ambos)) /\
         heap s' = heap mundo_torneio_ambos ++ [Arr1 v] /\
         heap_read (heap s') r = Ok v /\
         (Exists (fun x => x = NaN) sub -> y = NaN) /\
         (Forall (fun x => x <> NaN) sub ->
          Forall (fun i => forall x, fitness_puros !! i = Some x ->
                                     (y <=? x)%num = true) idx /\
          forall m ym,
            fitness_puros !! m = Some ym ->
            (forall i x, i <> m -> fitness_puros !! i = Some x ->
                         (ym <? x)%num = true) ->
            m ∈ idx -> j = m)).
Proof.
  apply (selecao_torneio_melhor_sorteado ga_pequeno 0%nat [puro1; puro2]
           fitness_puros mundo_torneio_ambos).
  - reflexivity.
  - simpl. lia.
  - simpl. lia.
  - reflexivity.
Defined.

(** In that tournament the draws are 0 and 1, the fitness values of the
    individuals drawn are 1752.5 and 303, and the copy returned is that of
    the second individual, of strictly smallest fitness. *)
Lemma torneio_devolve_minimo_sorteado :
  exists s1 s',
    np_random_choice 2 (torneio_k ga_pequeno) mundo_torneio_ambos
    = Ok ([0%nat; 1%nat], s1) /\
    take_idx fitness_puros [0%nat; 1%nat] = Ok [Fin 1752.5; Fin 303] /\
    selecao_torneio ga_pequeno 0%nat fitness_puros mundo_torneio_ambos
    = Ok (ArrRef 1, s') /\
    heap_read (heap s') (ArrRef 1) = Ok puro2.
Proof.
  do 2 eexists. split; [vm_compute; reflexivity|].
  split; [reflexivity|]. split; [vm_compute; reflexivity | reflexivity].
Qed.

(** With a [nan] among the fitness values of the individuals drawn, the
    copy returned is that of the individual whose fitness is [nan], though
    the fitness of the two others, 1752.5 and 303, is finite. *)
Lemma torneio_devolve_nan :
  exists s1 s',
    np_random_choice 3 (torneio_k ga_tres) mundo_torneio_nan
    = Ok ([0%nat; 1%nat; 2%nat], s1) /\
    take_idx fitness_com_nan [0%nat; 1%nat; 2%nat]
    = Ok [Fin 1752.5; NaN; Fin 303] /\
    selecao_torneio ga_tres 0%nat fitness_com_nan mundo_torneio_nan
    = Ok (ArrRef 1, s') /\
    heap_read (heap s') (ArrRef 1) = Ok nan4.
Proof.
  do 2 eexists. split; [vm_compute; reflexivity|].
  split; [reflexivity|]. split; [vm_compute; reflexivity | reflexivity].
Qed.

(** The operators, an offspring and a generation on the population of
    [puro1] and [puro2]. *)
Lemma operadores_preservam_populacao_witness :
  returns (selecao_torneio ga_pequeno 0%nat fitness_puros) mundo_operadores
    (fun r s' =>
       r = ArrRef (length (heap mundo_operadores)) /\
       exists j v, [puro1; puro2] !! j = Some v /\
                   heap s' = heap mundo_operadores ++ [Arr1 v])
  /\ returns (crossover ga_pequeno (ArrRef 1) (ArrRef 2)) mundo_operadores
       (fun r s' =>
          r = ArrRef (length (heap mundo_operadores)) /\
          exists v, heap s' = heap mundo_operadores ++ [Arr1 v])
  /\ returns (mutacao ga_pequeno (ArrRef 3)) mundo_operadores (fun r s' =>
       forall l, l <> base (ArrRef 3) ->
                 (l < length (heap mundo_operadores))%nat ->
                 heap s' !! l = heap mundo_operadores !! l)
  /\ returns (gerar_filho ga_pequeno 0%nat fitness_puros) mundo_operadores
       (fun r s' =>
          (length (heap mundo_operadores) <= base r)%nat /\
          heap mundo_operadores `prefix_of` heap s' /\
          heap s' !! 0%nat = Some (Arr2 [puro1; puro2]))
  /\ returns (geracao ga_pequeno 0%nat) mundo_operadores (fun res s' =>
       heap mundo_operadores `prefix_of` heap s' /\
       heap s' !! 0%nat = Some (Arr2 [puro1; puro2])).
Proof.
  apply (operadores_preservam_populacao ga_pequeno 0%nat [puro1; puro2]
           fitness_puros (ArrRef 1) (ArrRef 2) (ArrRef 3)
           puro1 puro2 puro1 mundo_operadores).
  - split; [reflexivity | split; [reflexivity | repeat constructor]].
  - simpl. lia.
  - simpl. lia.
  - reflexivity.
  - repeat split.
  - reflexivity.
  - reflexivity.
  - reflexivity.
  - reflexivity.
  - reflexivity.
  - reflexivity.
Defined.

(** C4 does not hold as stated: the population created holds a candidate,
    of fitness 162.51, and four [nan], of fitness [nan]; the generation
    records [nan] and the first row of the population it builds is made of
    the four [nan], not of the entries of the candidate.  The run of
    two generations that starts so records two [nan] and returns no
    solution. *)
Lemma elite_nan :
  exists populacao s0 v f self' populacao' s' rows' self2 s2,
    criar_populacao ga_pequeno mundo_meio_nan = Ok (populacao, s0) /\
    heap s0 !! populacao = Some (Arr2 [v; nan4]) /\ valido v /\
    fitness ga_pequeno v = Ok (Fin f) /\ (f == 162.51)%Q /\
    fitness ga_pequeno nan4 = Ok NaN /\
    geracao ga_pequeno populacao s0 = Ok (self', populacao', s') /\
    historico_custos self' = [NaN] /\
    heap s' !! populacao' = Some (Arr2 rows') /\
    rows' !! 0%nat = Some nan4 /\ rows' !! 0%nat <> Some v /\
    executar ga_pequeno mundo_meio_nan = Ok (None, PInf, self2, s2) /\
    historico_custos self2 = [NaN; NaN].
Proof.
  do 10 eexists. split; [vm_compute; reflexivity|].
  split; [reflexivity|].
  split; [split; [reflexivity | split; [repeat constructor | reflexivity]]|].
  split; [vm_compute; reflexivity|]. split; [reflexivity|].
  split; [reflexivity|].
  split; [vm_compute; reflexivity|]. split; [reflexivity|].
  split; [reflexivity|]. split; [reflexivity|]. split; [discriminate|].
  split; [vm_compute; reflexivity | reflexivity].
Qed.

(** A run of two generations on a population of two. *)
Lemma executar_termina_witness :
  exists sol custo self' s' hs,
    executar ga_pequeno mundo_inicial = Ok (sol, custo, self', s') /\
    historico_custos self' = historico_custos ga_pequeno ++ hs /\
    length hs = geracoes ga_pequeno /\
    (historico_custos ga_pequeno = [] ->
     length (historico_custos self') = geracoes ga_pequeno).
Proof.
  apply (proj1 (executar_termina ga_pequeno mundo_inicial
                  ltac:(simpl; lia) ltac:(simpl; lia) ltac:(simpl; lia)
                  ltac:(repeat split))).
Defined.

(** C3 does not hold as stated: the eight draws that create the population
    are zero, the two individuals are made of [nan] and so is the
    offspring of each of the two generations; the values recorded are two
    [nan], and the best cost is still infinity, which is none of them. *)
Lemma melhor_custo_fora_do_historico :
  exists self' s',
    executar ga_pequeno mundo_zeros = Ok (None, PInf, self', s') /\
    historico_custos self' = [NaN; NaN] /\ melhor_custo self' = PInf /\
    ~ In (melhor_custo self') (historico_custos self') /\
    ~ minimo (melhor_custo self') (historico_custos self').
Proof.
  do 2 eexists. split; [vm_compute; reflexivity|].
  split; [reflexivity|]. split; [reflexivity|].
  assert (Hin : ~ In PInf [NaN; NaN])
    by (intros [H|[H|[]]]; discriminate).
  split; [exact Hin|]. intros (H & _). exact (Hin H).
Qed.

(** The second generation of that run. *)
Lemma melhor_custo_minimo_witness :
  exists populacao s0 self_g pop_g s_g self' pop' s' mf,
    criar_populacao ga_pequeno mundo_inicial = Ok (populacao, s0) /\
    laco (seq 0 1) ga_pequeno populacao s0 = Ok (self_g, pop_g, s_g) /\
    laco (seq 0 2) ga_pequeno populacao s0 = Ok (self', pop', s') /\
    length (historico_custos self_g) = 1%nat /\
    historico_custos self' = historico_custos self_g ++ [mf] /\
    melhor_custo self'
      = (if (mf <? melhor_custo self_g)%num then mf else melhor_custo self_g) /\
    (melhor_custo self' <=? melhor_custo self_g)%num = true /\
    acompanha PInf (historico_custos self') (melhor_custo self') /\
    minimo (melhor_custo self') (PInf :: sem_nan (historico_custos self')) /\
    (Forall (fun x => x <> NaN) (historico_custos self') ->
     minimo (melhor_custo self') (historico_custos self')) /\
    (geracoes ga_pequeno = 2%nat ->
     executar ga_pequeno mundo_inicial
     = Ok (melhor_solucao self', melhor_custo self', self', s')).
Proof.
  apply (melhor_custo_minimo ga_pequeno mundo_inicial 1).
  - reflexivity.
  - reflexivity.
  - simpl. lia.
  - simpl. lia.
  - repeat split.
Defined.

(** C10 does not hold as stated: in two runs on the same instance whose
    populations are made of [nan], the four values recorded are [nan], and
    the best cost that the second run returns is infinity, which is none
    of them. *)
Lemma segunda_execucao_fora_do_historico :
  exists sol1 custo1 self1 s1 self2 s2,
    executar ga_pequeno mundo_zeros = Ok (sol1, custo1, self1, s1) /\
    executar self1 s1 = Ok (None, PInf, self2, s2) /\
    historico_custos self2 = [NaN; NaN; NaN; NaN] /\
    ~ In PInf (historico_custos self2) /\
    ~ minimo PInf (historico_custos self2).
Proof.
  do 6 eexists. split; [vm_compute; reflexivity|].
  split; [vm_compute; reflexivity|]. split; [reflexivity|].
  assert (Hin : ~ In PInf [NaN; NaN; NaN; NaN])
    by (intros [H|[H|[H|[H|[]]]]]; discriminate).
  split; [exact Hin|]. intros (H & _). exact (Hin H).
Qed.

(** That run, and a second one on the instance it leaves. *)
Lemma executar_segunda_vez_witness :
  exists sol1 custo1 self1 s1 sol2 custo2 self2 s2 hs2,
    executar ga_pequeno mundo_inicial = Ok (sol1, custo1, self1, s1) /\
    executar self1 s1 = Ok (sol2, custo2, self2, s2) /\
    length (historico_custos self1) = geracoes ga_pequeno /\
    historico_custos self2 = historico_custos self1 ++ hs2 /\
    length hs2 = geracoes ga_pequeno /\
    length (historico_custos self2) = (2 * geracoes ga_pequeno)%nat /\
    custo2 = melhor_custo self2 /\
    acompanha PInf (historico_custos self2) custo2 /\
    (custo2 <=? custo1)%num = true /\
    minimo custo2 (PInf :: sem_nan (historico_custos self2)) /\
    (Forall (fun x => x <> NaN) (historico_custos self2) ->
     minimo custo2 (historico_custos self2)).
Proof.
  apply (executar_segunda_vez ga_pequeno mundo_inicial).
  - reflexivity.
  - reflexivity.
  - simpl. lia.
  - simpl. lia.
  - simpl. lia.
  - repeat split.
Defined.

(** In binary64 too the equal blend has octane 90, vapour pressure 60.5,
    benzene 1.8, sulphur 47.5, penalty 100, cost 2.525 and fitness
    102.525, each decimal standing for the double nearest to it. *)
Lemma blend_igual_binary64 :
  PrimFloat.eqb (Binary64.dot Binary64.blend_igual Binary64.octanagem) 90
  && PrimFloat.eqb (Binary64.dot Binary64.blend_igual Binary64.pressao_vapor)
       60.5
  && PrimFloat.eqb (Binary64.dot Binary64.blend_igual Binary64.teor_benzeno)
       Binary64.d_1_8
  && PrimFloat.eqb (Binary64.dot Binary64.blend_igual Binary64.teor_enxofre)
       47.5
  && PrimFloat.eqb (Binary64.calcular_penalidades Binary64.blend_igual) 100
  && PrimFloat.eqb (Binary64.dot Binary64.blend_igual Binary64.custos)
       Binary64.d_2_525
  && PrimFloat.eqb (Binary64.fitness Binary64.blend_igual) Binary64.d_102_525
  = true.
Proof. vm_compute. reflexivity. Qed.

(** * More properties of the program *)

(** ** The evaluation of a candidate *)

Lemma np_dot_raise (a b : vec) :
  length a <> length b -> np_dot a b = Raise ValueError.
Proof.
  intros Hl. unfold np_dot.
  destruct (Nat.eqb_spec (length a) (length b)); [contradiction | reflexivity].
Qed.

(** X1. A candidate that has not four entries makes every function of the
    evaluation raise [ValueError], the error of [np.dot] on shapes that do
    not agree. *)
Theorem avaliacao_tamanho_errado (self : AlgoritmoGenetico) (individuo : vec) :
  tabela_ok (componentes self) -> length individuo <> 4%nat ->
  calcular_propriedades self individuo = Raise ValueError /\
  calcular_custo self individuo = Raise ValueError /\
  calcular_penalidades self individuo = Raise ValueError /\
  fitness self individuo = Raise ValueError.
Proof.
  intros (Hc & Ho & _) Hl.
  assert (Hp : calcular_propriedades self individuo = Raise ValueError).
  { unfold calcular_propriedades. rewrite (np_dot_raise individuo (octanagem (componentes self)))
      by (rewrite Ho; exact Hl).
    reflexivity. }
  assert (Hcu : calcular_custo self individuo = Raise ValueError).
  { unfold calcular_custo. apply np_dot_raise. rewrite Hc. exact Hl. }
  split; [exact Hp|]. split; [exact Hcu|]. split.
  - unfold calcular_penalidades. now rewrite Hp.
  - unfold fitness. now rewrite Hcu.
Qed.

Lemma avaliacao_tamanho_errado_witness :
  calcular_propriedades ga_padrao [Fin 1; Fin 0; Fin 0] = Raise ValueError /\
  calcular_custo ga_padrao [Fin 1; Fin 0; Fin 0] = Raise ValueError /\
  calcular_penalidades ga_padrao [Fin 1; Fin 0; Fin 0] = Raise ValueError /\
  fitness ga_padrao [Fin 1; Fin 0; Fin 0] = Raise ValueError.
Proof.
  apply (avaliacao_tamanho_errado ga_padrao [Fin 1; Fin 0; Fin 0]).
  - repeat split.
  - simpl. lia.
Defined.

Lemma nadd_nan_l (x : num) : (NaN + x)%num = NaN.
Proof. reflexivity. Qed.

Lemma nadd_nan_r (x : num) : (x + NaN)%num = NaN.
Proof. now destruct x. Qed.

Lemma fold_nadd_nan (l : vec) : fold_left nadd l NaN = NaN.
Proof. induction l as [|x l IH]; simpl; auto. Qed.

Lemma vsum_nan (l : vec) : In NaN l -> vsum l = NaN.
Proof.
  unfold vsum. generalize (Fin 0). induction l as [|x l IH]; intros acc Hin.
  - destruct Hin.
  - simpl. destruct Hin as [->|Hin].
    + rewrite nadd_nan_r. apply fold_nadd_nan.
    + now apply IH.
Qed.

Lemma np_dot_nan (a b : vec) :
  length a = length b -> In NaN a -> np_dot a b = Ok NaN.
Proof.
  intros Hl Hin. rewrite np_dot_ok by exact Hl. f_equal. apply vsum_nan.
  revert b Hl. induction a as [|x a IH]; intros [|y b] Hl; simpl in *;
    try discriminate; try tauto.
  destruct Hin as [->|Hin]; [now left | right].
  apply IH; [exact Hin | lia].
Qed.

(** X2. A candidate of four entries with a [nan] among them has a [nan]
    cost and a [nan] fitness, whatever the table; all its properties are
    [nan], so that no comparison holds: its penalty is 0, as that of a
    candidate that meets the thresholds, and the report has it meet
    none. *)
Theorem avaliacao_nan (self : AlgoritmoGenetico) (individuo : vec) :
  tabela_ok (componentes self) -> length individuo = 4%nat ->
  In NaN individuo ->
  calcular_propriedades self individuo = Ok (NaN, NaN, NaN, NaN) /\
  calcular_custo self individuo = Ok NaN /\
  calcular_penalidades self individuo = Ok (Fin 0) /\
  fitness self individuo = Ok NaN /\
  verificar_restricoes (specs self) NaN NaN NaN NaN
  = ([EmptyString;
      "Verificação de Restrições:";
      "  ✗ Octanagem: NÃO ATENDE";
      "  ✗ Pressão de Vapor: NÃO ATENDE";
      "  ✗ Teor de Benzeno: NÃO ATENDE";
      "  ✗ Teor de Enxofre: NÃO ATENDE";
      EmptyString;
      "  ✗ Algumas especificações não foram atendidas"]%string, false).
Proof.
  intros (Hc & Ho & Hp & Hb & He) Hl Hin.
  assert (Hprop : calcular_propriedades self individuo = Ok (NaN, NaN, NaN, NaN)).
  { unfold calcular_propriedades. rewrite !np_dot_nan by congruence.
    reflexivity. }
  assert (Hcu : calcular_custo self individuo = Ok NaN).
  { unfold calcular_custo. apply np_dot_nan; congruence. }
  assert (Hpen : calcular_penalidades self individuo = Ok (Fin 0)).
  { unfold calcular_penalidades. rewrite Hprop.
    cbv [mbind result_bind mret result_ret]. cbv beta iota zeta.
    now destruct (octanagem_min (specs self)),
      (pressao_vapor_max (specs self)), (benzeno_max (specs self)),
      (enxofre_max (specs self)). }
  split; [exact Hprop|]. split; [exact Hcu|]. split; [exact Hpen|]. split.
  - unfold fitness. rewrite Hcu, Hpen. reflexivity.
  - unfold verificar_restricoes.
    now destruct (octanagem_min (specs self)),
      (pressao_vapor_max (specs self)), (benzeno_max (specs self)),
      (enxofre_max (specs self)).
Qed.

Lemma avaliacao_nan_witness :
  calcular_propriedades ga_padrao nan4 = Ok (NaN, NaN, NaN, NaN) /\
  calcular_custo ga_padrao nan4 = Ok NaN /\
  calcular_penalidades ga_padrao nan4 = Ok (Fin 0) /\
  fitness ga_padrao nan4 = Ok NaN /\
  verificar_restricoes (specs ga_padrao) NaN NaN NaN NaN
  = ([EmptyString;
      "Verificação de Restrições:";
      "  ✗ Octanagem: NÃO ATENDE";
      "  ✗ Pressão de Vapor: NÃO ATENDE";
      "  ✗ Teor de Benzeno: NÃO ATENDE";
      "  ✗ Teor de Enxofre: NÃO ATENDE";
      EmptyString;
      "  ✗ Algumas especificações não foram atendidas"]%string, false).
Proof.
  apply (avaliacao_nan ga_padrao nan4).
  - repeat split.
  - reflexivity.
  - simpl. auto.
Defined.

Ltac qcmp :=
  repeat match goal with
  | H : Qltb _ _ = true |- _ => apply Qltb_lt in H
  | H : Qltb _ _ = false |- _ => apply Qltb_ge in H
  | H : Qleb _ _ = true |- _ => apply Qleb_le in H
  | H : Qleb _ _ = false |- _ => apply Qleb_gt in H
  end.

(** The evaluation of four finite entries on the table of the program. *)
Lemma avaliacao_finita (self : AlgoritmoGenetico) (a b c d : Q) :
  padrao self ->
  let v := [Fin a; Fin b; Fin c; Fin d] in
  let oct := (0 + a * 95 + b * 88 + c * 85 + d * 92)%Q in
  let pres := (0 + a * 65 + b * 55 + c * 58 + d * 64)%Q in
  let benz := (0 + a * 2.5 + b * 1.5 + c * 1.2 + d * 2.0)%Q in
  let enx := (0 + a * 60 + b * 40 + c * 35 + d * 55)%Q in
  let cst := (0 + a * 2.50 + b * 3.00 + c * 1.80 + d * 2.80)%Q in
  calcular_propriedades self v = Ok (Fin oct, Fin pres, Fin benz, Fin enx) /\
  calcular_custo self v = Ok (Fin cst) /\
  exists p,
    calcular_penalidades self v = Ok (Fin p) /\
    fitness self v = Ok (Fin (cst + p)) /\
    (p == falta 100 91 oct + excesso 50 62 pres + excesso 200 2.0 benz
          + excesso 150 50 enx)%Q.
Proof.
  intros (Hc & Hs) v oct pres benz enx cst.
  split; [|split].
  - unfold calcular_propriedades. rewrite Hc. reflexivity.
  - unfold calcular_custo. rewrite Hc. reflexivity.
  - unfold fitness, calcular_custo, calcular_penalidades,
      calcular_propriedades, falta, excesso.
    rewrite Hc, Hs. cbn -[Qplus Qmult Qminus Qopp Qltb].
    fold oct pres benz enx cst.
    destruct (Qltb oct 91), (Qltb 62 pres), (Qltb 2.0 benz), (Qltb 50 enx);
      cbn -[Qplus Qmult Qminus Qopp Qltb];
      (eexists; split; [reflexivity|]; split; [reflexivity|]; ring).
Qed.



Lemma padrao_tabela_ok (self : AlgoritmoGenetico) :
  padrao self -> tabela_ok (componentes self).
Proof. intros (-> & _). repeat split. Qed.





(** Four non-negative entries whose sum is within 1e-9 of 1 are finite. *)
Lemma tolerancia_entradas (v : vec) :
  tolerancia v ->
  exists a b c d,
    v = [Fin a; Fin b; Fin c; Fin d] /\
    (0 <= a)%Q /\ (0 <= b)%Q /\ (0 <= c)%Q /\ (0 <= d)%Q /\
    (1 - (1 # 1000000000) <= 0 + a + b + c + d)%Q /\
    (0 + a + b + c + d <= 1 + (1 # 1000000000))%Q.
Proof.
  intros (Hl & Hn & q & Hq & Habs).
  destruct v as [|x1 [|x2 [|x3 [|x4 [|]]]]]; try discriminate.
  inversion Hn as [|? ? H1 Hn1]; subst. inversion Hn1 as [|? ? H2 Hn2]; subst.
  inversion Hn2 as [|? ? H3 Hn3]; subst. inversion Hn3 as [|? ? H4 _]; subst.
  destruct x1 as [a| | |], x2 as [b| | |], x3 as [c| | |], x4 as [d| | |];
    try discriminate.
  simpl in H1, H2, H3, H4. apply Qleb_le in H1, H2, H3, H4.
  unfold vsum in Hq. simpl in Hq. injection Hq as <-.
  apply Qabs_Qle_condition in Habs.
  exists a, b, c, d. split; [reflexivity|].
  do 4 (split; [assumption|]). split; lra.
Qed.



(** On the table of the program the fitness of four non-negative entries
    whose sum is within 1e-9 of 1 is at least 2.2588. *)
Lemma fitness_tolerancia_minimo (self : AlgoritmoGenetico) (v : vec) :
  padrao self -> tolerancia v ->
  exists f, fitness self v = Ok (Fin f) /\ (2.2588 <= f)%Q.
Proof.
  intros Hp Hv.
  destruct (tolerancia_entradas v Hv)
    as (a & b & c & d & -> & Ha & Hb & Hc & Hd & Hlo & Hhi).
  destruct (avaliacao_finita self a b c d Hp) as (_ & _ & p & _ & Hf & Hpen).
  cbv zeta in Hf, Hpen. eexists. split; [exact Hf|].
  rewrite Hpen. unfold falta, excesso.
  destruct (Qltb _ 91) eqn:E1, (Qltb 62 _) eqn:E2, (Qltb 2.0 _) eqn:E3,
    (Qltb 50 _) eqn:E4; qcmp; lra.
Qed.

(** X4. On the table of the program no vector of four non-negative entries
    whose sum is within 1e-9 of 1, and so no candidate, has a fitness
    below 2.2588, a penalty included; and the blend of 0.5882, 0.0394,
    0.3724 and 0 is such a vector, meets the four thresholds, has no
    penalty and has a fitness, its cost, of at most 2.2591. *)
Theorem fitness_minimo (self : AlgoritmoGenetico) (v : vec) :
  padrao self -> tolerancia v ->
  (exists f, fitness self v = Ok (Fin f) /\ (2.2588 <= f)%Q)
  /\ tolerancia blend_proximo
  /\ exists oct pres benz enx f,
       calcular_propriedades self blend_proximo = Ok (oct, pres, benz, enx) /\
       atende (specs self) oct pres benz enx = true /\
       calcular_penalidades self blend_proximo = Ok (Fin 0) /\
       calcular_custo self blend_proximo = Ok (Fin f) /\
       fitness self blend_proximo = Ok (Fin (f + 0)) /\
       (2.2588 <= f)%Q /\ (f <= 2.2591)%Q.
Proof.
  intros Hp Hv. split; [|split].
  - exact (fitness_tolerancia_minimo self v Hp Hv).
  - apply valido_tolerancia.
    split; [reflexivity | split; [repeat constructor | reflexivity]].
  - destruct Hp as (Hc & Hs).
    unfold fitness, calcular_custo, calcular_penalidades,
      calcular_propriedades. rewrite Hc, Hs.
    do 5 eexists. split; [reflexivity|]. split; [reflexivity|].
    split; [reflexivity|]. split; [reflexivity|]. split; [reflexivity|].
    split; vm_compute; discriminate.
Qed.

Lemma fitness_minimo_witness :
  (exists f, fitness ga_padrao blend_igual = Ok (Fin f) /\ (2.2588 <= f)%Q)
  /\ tolerancia blend_proximo
  /\ exists oct pres benz enx f,
       calcular_propriedades ga_padrao blend_proximo
       = Ok (oct, pres, benz, enx) /\
       atende (specs ga_padrao) oct pres benz enx = true /\
       calcular_penalidades ga_padrao blend_proximo = Ok (Fin 0) /\
       calcular_custo ga_padrao blend_proximo = Ok (Fin f) /\
       fitness ga_padrao blend_proximo = Ok (Fin (f + 0)) /\
       (2.2588 <= f)%Q /\ (f <= 2.2591)%Q.
Proof.
  apply (fitness_minimo ga_padrao blend_igual).
  - split; reflexivity.
  - apply valido_tolerancia.
    split; [reflexivity | split; [repeat constructor | reflexivity]].
Defined.

(** ** The rows of a population *)

Lemma fitness_nan (self : AlgoritmoGenetico) (v : vec) :
  tabela_ok (componentes self) -> length v = 4%nat -> In NaN v ->
  fitness self v = Ok NaN.
Proof.
  intros Ht Hl Hin. destruct (fitness_ok self v Hl Ht) as (f & Hf).
  rewrite Hf. f_equal. revert Hf. unfold fitness, calcular_custo.
  destruct Ht as (Hc & _). rewrite np_dot_nan by congruence.
  cbn [mbind result_bind].
  destruct (calcular_penalidades self v); simpl; unfold mret, result_ret;
    congruence.
Qed.

Lemma fitness_config (a b : AlgoritmoGenetico) (v : vec) :
  mesma_config a b -> fitness b v = fitness a v.
Proof.
  intros (_ & _ & _ & _ & _ & HC & HS).
  unfold fitness, calcular_custo, calcular_penalidades, calcular_propriedades.
  now rewrite HC, HS.
Qed.

Lemma vdiv_nan (w : vec) : vdiv w NaN = map (fun _ => NaN) w.
Proof. unfold vdiv. apply map_ext. now intros []. Qed.

(** Dividing by their sum four values that are finite and non-negative, or
    [nan], gives a candidate or four [nan]. *)
Lemma normaliza_candidato (w : vec) :
  length w = 4%nat -> Forall (fun x => fin_nneg x \/ x = NaN) w ->
  candidato (vdiv w (vsum w)).
Proof.
  intros Hl Hw.
  assert (Hdec : In NaN w \/ Forall fin_nneg w).
  { clear Hl. induction Hw as [|x w [Hx| ->] _ [Hin|Hf]].
    - right. constructor.
    - left. now right.
    - right. now constructor.
    - left. now left.
    - left. now left. }
  destruct Hdec as [Hin|Hf].
  - right. rewrite (vsum_nan w Hin), vdiv_nan.
    now destruct w as [|? [|? [|? [|? [|]]]]].
  - destruct (normaliza w Hl Hf) as [(_ & Hn)|(_ & Hv)]; [right | left];
      assumption.
Qed.

Lemma candidato_entradas (v : vec) :
  candidato v ->
  length v = 4%nat /\ Forall (fun x => fin_nneg x \/ x = NaN) v.
Proof.
  intros [Hv| ->].
  - split; [apply Hv|].
    eapply Forall_impl; [exact (valido_fin_nneg v Hv)|]. auto.
  - split; [reflexivity|]. repeat constructor; now right.
Qed.

Lemma mutado_entradas (v : vec) (idx : nat) (y : num) (ruido : Q) :
  Forall (fun x => fin_nneg x \/ x = NaN) v -> v !! idx = Some y ->
  Forall (fun x => fin_nneg x \/ x = NaN)
    (vabs (<[idx := (y + Fin ruido)%num]> v)).
Proof.
  intros Hv Hy. unfold vabs. apply Forall_map. apply Forall_insert.
  - eapply Forall_impl; [exact Hv|].
    intros x [(q & -> & Hq)| ->]; cbn [nabs]; [left | now right].
    exists (Qabs q). split; [reflexivity | apply Qabs_nonneg].
  - eapply Forall_lookup_1 in Hv; [|exact Hy].
    destruct Hv as [(q & -> & _)| ->]; cbn [nabs nadd]; [left | now right].
    exists (Qabs (q + ruido)). split; [reflexivity | apply Qabs_nonneg].
Qed.

(** The fitness of a row is [nan] or, on the table of the program, finite
    and at least 2.2588. *)
Lemma registrado_minimo (self : AlgoritmoGenetico) (x : num) :
  padrao self -> registrado self x ->
  x = NaN \/ exists f, x = Fin f /\ (2.2588 <= f)%Q.
Proof.
  intros Hp (v & [Hv| ->] & Hf).
  - destruct (fitness_tolerancia_minimo self v Hp (valido_tolerancia v Hv))
      as (f & Hf' & Hle).
    right. exists f. split; [congruence | exact Hle].
  - left. rewrite (fitness_nan self nan4) in Hf.
    + congruence.
    + now apply padrao_tabela_ok.
    + reflexivity.
    + now left.
Qed.

Lemma cadeia_cons (x : num) (hs : list num) :
  (forall e, hs !! 0%nat = Some e -> desce x e) -> cadeia hs ->
  cadeia (x :: hs).
Proof.
  intros Hx Hc [|i] a b Ha Hb; simpl in Ha, Hb.
  - injection Ha as <-. auto.
  - eapply Hc; eauto.
Qed.

Lemma cadeia_nan (hs : list num) (i j : nat) (y : num) :
  cadeia hs -> (i <= j)%nat -> hs !! i = Some NaN -> hs !! j = Some y ->
  y = NaN.
Proof.
  intros Hc Hij Hi. revert y. induction Hij as [|j Hij IH]; intros y Hj.
  - congruence.
  - destruct (lookup_lt_is_Some_2 hs j) as [x Hx].
    { apply lookup_lt_Some in Hj. lia. }
    rewrite (IH x Hx) in Hx.
    destruct (Hc j NaN y Hx Hj) as [Hle| ->]; [|reflexivity].
    now destruct y.
Qed.

Lemma melhor_ok_prefix (self : AlgoritmoGenetico) (h h' : list obj) :
  melhor_ok self h -> h `prefix_of` h' -> melhor_ok self h'.
Proof.
  unfold melhor_ok. destruct (melhor_solucao self) as [r|]; [|auto].
  intros (v & Hr & Hv) Hp. exists v. eauto using heap_read_prefix.
Qed.

Lemma Forall2_read_candidato (h : list obj) (rs : list ref)
    (rows : list vec) :
  Forall (fun r => exists v, heap_read h r = Ok v /\ candidato v) rs ->
  Forall2 (fun r v => heap_read h r = Ok v) rs rows ->
  Forall candidato rows.
Proof.
  intros Hrs Hrows. induction Hrows as [|r v rs rows Hr _ IH]; [constructor|].
  inversion Hrs as [|? ? (v' & Hr' & Hv') Hrs']; subst.
  constructor; [congruence | auto].
Qed.

(** ** The operators and the run *)

Section Corrida.
Context {G : Type} `{RandomSource G}.

#[local] Abbreviation mundo := (@mundo G).
#[local] Abbreviation M := (@M G).

Ltac passo lem :=
  apply returns_bind; eapply returns_mono; [exact lem | cbv beta].

(** *** The tournament *)

Lemma selecao_torneio_k0 (self : AlgoritmoGenetico) (populacao : loc)
    (rows : list vec) (fitness_values : vec) (s : mundo) :
  heap s !! populacao = Some (Arr2 rows) -> torneio_k self = 0%nat ->
  selecao_torneio self populacao fitness_values s = Raise ValueError.
Proof.
  intros Hp Hk. unfold selecao_torneio.
  rewrite (bind_ok_eq _ _ _ _ _ (len_eq _ _ _ Hp)), Hk.
  unfold np_random_choice. simpl negb. rewrite andb_false_r. reflexivity.
Qed.

(** X5. A tournament of no individual ([torneio_k] is 0) raises
    [ValueError], that of [np.argmin] on an empty array, and so does a
    tournament on a population without rows, where it is
    [np.random.choice] that raises. *)
Theorem selecao_torneio_sem_candidatos (self : AlgoritmoGenetico)
    (populacao : loc) (rows : list vec) (fitness_values : vec) (s : mundo) :
  heap s !! populacao = Some (Arr2 rows) ->
  torneio_k self = 0%nat \/ rows = [] ->
  selecao_torneio self populacao fitness_values s = Raise ValueError.
Proof.
  intros Hp [Hk| ->]; [exact (selecao_torneio_k0 _ _ _ _ _ Hp Hk)|].
  destruct (torneio_k self) as [|k] eqn:Hk;
    [exact (selecao_torneio_k0 _ _ _ _ _ Hp Hk)|].
  unfold selecao_torneio.
  rewrite (bind_ok_eq _ _ _ _ _ (len_eq _ _ _ Hp)), Hk. reflexivity.
Qed.

(** *** Mutation in place *)

(** X6. When the draw is not below the rate, as it always is with a rate
    of 0 or less, [mutacao] returns the very array it is given, not a copy,
    and nothing but the generator changes.  When the draw is below the
    rate, as it always is with a rate of 1 or more, the array it is given
    is left with the noise added to one of its four entries, neither made
    positive nor renormalised, and the candidate returned is another
    array, a new one. *)
Theorem mutacao_no_lugar (self : AlgoritmoGenetico) (individuo : ref)
    (v : vec) (s : mundo) :
  heap_read (heap s) individuo = Ok v -> length v = 4%nat ->
  let u := Fin (random (gen s)).1 in
  ((taxa_mutacao self <=? Fin 0)%num = true ->
   (u <? taxa_mutacao self)%num = false)
  /\ ((Fin 1 <=? taxa_mutacao self)%num = true ->
      (u <? taxa_mutacao self)%num = true)
  /\ ((u <? taxa_mutacao self)%num = false ->
      mutacao self individuo s
      = Ok (individuo, Mundo (random (gen s)).2 (heap s)))
  /\ ((u <? taxa_mutacao self)%num = true ->
      returns (mutacao self individuo) s (fun r s' =>
        exists idx y ruido,
          (idx < 4)%nat /\ v !! idx = Some y /\
          let v' := <[idx := (y + Fin ruido)%num]> v in
          heap_read (heap s') individuo = Ok v' /\
          r = ArrRef (length (heap s)) /\ r <> individuo /\
          heap_read (heap s') r = Ok (vdiv (vabs v') (vsum (vabs v'))) /\
          length (heap s') = S (length (heap s)))).
Proof.
  intros Hr Hl u. subst u.
  destruct (random_range (gen s)) as (Hge & Hlt).
  split; [|split; [|split]].
  - destruct (taxa_mutacao self) as [t| | |]; simpl; try congruence.
    rewrite Qleb_le, Qltb_ge. lra.
  - destruct (taxa_mutacao self) as [t| | |]; simpl; try congruence.
    rewrite Qleb_le, Qltb_lt. lra.
  - intros Hu. unfold mutacao.
    rewrite (bind_ok_eq _ _ _ _ _ (np_random_random_eq s)), Hu. reflexivity.
  - intros Hu.
    eapply returns_mono; [exact (mutacao_spec self _ _ s Hr Hl)|].
    cbv beta. intros r s'. rewrite Hu.
    intros (idx & y & ruido & Hy & Hpost). cbv zeta in Hpost.
    destruct Hpost as (-> & ->). exists idx, y, ruido.
    split; [rewrite <- Hl; eapply lookup_lt_Some; exact Hy|].
    split; [exact Hy|]. cbv zeta.
    split; [apply heap_read_app; eapply heap_read_write; exact Hr|].
    split; [reflexivity|]. split.
    + pose proof (heap_read_base _ _ _ Hr) as Hb.
      intros <-. simpl in Hb. lia.
    + split.
      * rewrite <- (heap_write_length (heap s) individuo
                     (<[idx := (y + Fin ruido)%num]> v)).
        apply heap_read_new.
      * rewrite length_app, heap_write_length. simpl. lia.
Qed.

(** *** Crossover of a candidate with itself *)

Lemma np_where_mesmo (mascara : list bool) (v : vec) :
  length mascara = 4%nat -> length v = 4%nat -> np_where mascara v v = Ok v.
Proof.
  intros Hm Hv. rewrite np_where_4 by assumption. f_equal.
  destruct mascara as [|m1 [|m2 [|m3 [|m4 [|]]]]]; try discriminate.
  destruct v as [|a [|b [|c [|d [|]]]]]; try discriminate.
  now destruct m1, m2, m3, m4.
Qed.

Lemma vdiv_soma_um (v : vec) :
  length v = 4%nat -> (vsum v == Fin 1)%num ->
  Forall2 num_eq (vdiv v (vsum v)) v.
Proof.
  intros Hl Hs.
  destruct v as [|x1 [|x2 [|x3 [|x4 [|]]]]]; try discriminate.
  destruct x1 as [a| | |], x2 as [b| | |], x3 as [c| | |], x4 as [d| | |];
    try (exfalso; exact Hs).
  unfold vsum in *. cbn [fold_left nadd] in *.
  set (t := (0 + a + b + c + d)%Q) in *. simpl in Hs.
  assert (Ht : Qeq_bool t 0 = false).
  { destruct (Qeq_bool t 0) eqn:E; [|reflexivity].
    apply Qeq_bool_iff in E. lra. }
  unfold vdiv. cbn [map ndiv]. rewrite Ht.
  repeat constructor; simpl; rewrite Hs; field.
Qed.

(** X7. The crossover of two arrays that hold the same four entries [v]
    returns a new array that holds [v] when the draw is not below the
    rate, and [v] divided by its sum when it is, whatever the mask: the
    mask chooses between equal entries.  So the child holds [v] again,
    entry by entry, when this sum is 1. *)
Theorem crossover_pais_iguais (self : AlgoritmoGenetico) (pai1 pai2 : ref)
    (v : vec) (s : mundo) :
  heap_read (heap s) pai1 = Ok v -> heap_read (heap s) pai2 = Ok v ->
  length v = 4%nat ->
  returns (crossover self pai1 pai2) s (fun r s' => exists x,
    r = ArrRef (length (heap s)) /\ heap s' = heap s ++ [Arr1 x] /\
    x = (if (Fin (random (gen s)).1 <? taxa_crossover self)%num
         then vdiv v (vsum v) else v) /\
    ((vsum v == Fin 1)%num -> Forall2 num_eq x v)).
Proof.
  intros Hr1 Hr2 Hl.
  eapply returns_mono; [exact (crossover_spec self _ _ _ _ s Hr1 Hr2 Hl Hl)|].
  cbv beta. intros r s' (x & -> & -> & Hx). exists x.
  split; [reflexivity|]. split; [reflexivity|].
  destruct (_ <? _)%num.
  - destruct Hx as (mascara & filho & Hm & Hf & ->).
    rewrite (np_where_mesmo mascara v Hm Hl) in Hf.
    injection Hf as <-. split; [reflexivity|]. now apply vdiv_soma_um.
  - subst x. split; [reflexivity|]. intros _.
    clear. induction v; constructor; [reflexivity | assumption].
Qed.

(** *** Runs that end at once *)

(** X8. With [geracoes = 0] [executar] creates a population and returns
    the best solution and the best cost the instance had, [None] and
    infinity on a new one, and leaves the instance as it was. *)
Theorem executar_sem_geracoes (self : AlgoritmoGenetico) (s : mundo) :
  geracoes self = 0%nat ->
  exists s',
    executar self s = Ok (melhor_solucao self, melhor_custo self, self, s') /\
    heap s `prefix_of` heap s'.
Proof.
  intros Hg.
  destruct (criar_populacao_spec self s) as (p & s0 & Hc & rows & _ & Hpre).
  exists s0. split; [|exact Hpre].
  unfold executar. rewrite (bind_ok_eq _ _ _ _ _ Hc), Hg. reflexivity.
Qed.

(** X9. With [tamanho_pop = 0] and at least one generation [executar]
    raises [ValueError]: the population is empty and so is the array of
    its fitness values, on which [np.argmin] raises. *)
Theorem executar_populacao_vazia (self : AlgoritmoGenetico) (s : mundo) :
  (0 < geracoes self)%nat -> tamanho_pop self = 0%nat ->
  executar self s = Raise ValueError.
Proof.
  intros Hg Hn. unfold executar.
  assert (Hc : criar_populacao self s
               = Ok (length (heap s), Mundo (gen s) (heap s ++ [Arr2 []]))).
  { unfold criar_populacao. rewrite Hn. reflexivity. }
  rewrite (bind_ok_eq _ _ _ _ _ Hc).
  destruct (geracoes self) as [|g]; [lia|]. cbn [seq laco].
  apply bind_raise_eq. apply bind_raise_eq. unfold geracao.
  assert (Hp : heap (Mundo (gen s) (heap s ++ [Arr2 []])) !! length (heap s)
               = Some (Arr2 [])).
  { cbn [heap]. apply list_lookup_middle. reflexivity. }
  rewrite (bind_ok_eq _ _ _ _ _ (rows_of_eq _ _ _ Hp)). reflexivity.
Qed.

(** *** A generation, up to the copy of the elite *)

(** The steps of a generation before the [while] loop, which need no
    tournament: the fitness values, the best of them, the record of it and
    the copy of the elite. *)
Lemma geracao_inicio (self : AlgoritmoGenetico) (populacao : loc)
    (rows : list vec) (s : mundo) :
  populacao_ok (tamanho_pop self) (heap s) populacao rows ->
  (0 < tamanho_pop self)%nat -> tabela_ok (componentes self) ->
  exists fit j mf vj self2 h2 sE,
    mapM (fitness self) rows = Ok fit /\ length fit = length rows /\
    np_argmin fit = Ok j /\ fit !! j = Some mf /\ rows !! j = Some vj /\
    length vj = 4%nat /\
    mesma_config self self2 /\
    historico_custos self2 = historico_custos self ++ [mf] /\
    melhor_custo self2
      = (if (mf <? melhor_custo self)%num then mf else melhor_custo self) /\
    gen sE = gen s /\ heap s `prefix_of` h2 /\ heap sE = h2 ++ [Arr1 vj] /\
    geracao self populacao s
    = (nova_populacao ← encher (S (tamanho_pop self2)) self2 populacao fit
                          [ArrRef (length h2)];
       populacao' ← np_array nova_populacao;
       mret (self2, populacao')) sE.
Proof.
  intros Hok Hn Ht. pose proof Hok as (Hp & Hlen & Hrows).
  destruct (mapM_fitness_ok self rows Hrows Ht) as (fit & Hfit & Hfl).
  assert (Hne : fit <> []) by (intros ->; simpl in Hfl; lia).
  destruct (np_argmin_spec fit Hne) as (j & mf & Hj & Hmf & Hmin).
  assert (Hjlt : (j < length rows)%nat)
    by (rewrite <- Hfl; eapply lookup_lt_Some; eauto).
  destruct (lookup_lt_is_Some_2 rows j Hjlt) as [vj Hvj].
  destruct (populacao_ok_row _ _ _ _ _ _ Hok Hvj) as (Hrj & Hlj).
  assert (E : geracao self populacao s = geracao self populacao s)
    by reflexivity.
  unfold geracao at 2 in E.
  rewrite (bind_ok_eq _ _ _ _ _ (rows_of_eq _ _ _ Hp)) in E.
  rewrite (lift_ok_eq _ _ _ _ Hfit) in E.
  rewrite (lift_ok_eq _ _ _ _ Hj) in E.
  rewrite (lift_ok_eq _ _ _ _ (getitem_ok _ _ _ Hmf)) in E.
  cbv zeta in E.
  change (melhor_custo (registrar self mf)) with (melhor_custo self) in E.
  destruct (mf <? melhor_custo self)%num eqn:Hlt.
  - rewrite bind_assoc_eq in E.
    rewrite (bind_ok_eq _ _ _ _ _ (copy_eq _ _ _ Hrj)) in E.
    rewrite ret_bind_eq in E.
    set (s1 := Mundo (gen s) (heap s ++ [Arr1 vj])) in E.
    assert (Hr1 : heap_read (heap s1) (RowRef populacao j) = Ok vj)
      by (now apply heap_read_app).
    rewrite (bind_ok_eq _ _ _ _ _ (copy_eq _ _ _ Hr1)) in E.
    eexists fit, j, mf, vj, _, (heap s1), _.
    do 6 (split; [assumption|]). split; [|split; [|split; [|split; [|split;
      [|split; [|exact E]]]]]].
    + repeat split.
    + reflexivity.
    + now rewrite Hlt.
    + reflexivity.
    + now apply prefix_app_r.
    + reflexivity.
  - rewrite ret_bind_eq in E.
    rewrite (bind_ok_eq _ _ _ _ _ (copy_eq _ _ _ Hrj)) in E.
    eexists fit, j, mf, vj, _, (heap s), _.
    do 6 (split; [assumption|]). split; [|split; [|split; [|split; [|split;
      [|split; [|exact E]]]]]].
    + repeat split.
    + reflexivity.
    + now rewrite Hlt.
    + reflexivity.
    + reflexivity.
    + reflexivity.
Qed.

(** X10. With [torneio_k = 0], at least one generation and a population of
    two or more, [executar] raises [ValueError]: the first offspring of the
    first generation needs a tournament, and a tournament of no individual
    raises. *)
Theorem executar_torneio_vazio (self : AlgoritmoGenetico) (s : mundo) :
  (0 < geracoes self)%nat -> (2 <= tamanho_pop self)%nat ->
  torneio_k self = 0%nat -> tabela_ok (componentes self) ->
  executar self s = Raise ValueError.
Proof.
  intros Hg Hn Hk Ht. unfold executar.
  destruct (criar_populacao_spec self s) as (p & s0 & Hc & rows & Hok & _).
  rewrite (bind_ok_eq _ _ _ _ _ Hc).
  destruct (geracoes self) as [|g]; [lia|]. cbn [seq laco].
  apply bind_raise_eq. apply bind_raise_eq.
  destruct (geracao_inicio self p rows s0 Hok ltac:(lia) Ht)
    as (fit & j & mf & vj & self2 & h2 & sE & _ & _ & _ & _ & _ & _ & Hcfg & _
        & _ & _ & Hpre & HsE & ->).
  destruct Hcfg as (HP & _ & _ & _ & HK & _).
  apply bind_raise_eq. cbn [encher length].
  destruct (Nat.ltb_spec 1 (tamanho_pop self2)) as [_|]; [|lia].
  apply bind_raise_eq. unfold gerar_filho. apply bind_raise_eq.
  apply (selecao_torneio_k0 self2 p rows fit sE); [|congruence].
  destruct Hok as (Hp & _). rewrite HsE. apply lookup_app_l_Some.
  eapply prefix_lookup_Some; eauto.
Qed.

(** *** A population of one *)

Lemma geracao_um (self : AlgoritmoGenetico) (populacao : loc) (v : vec)
    (f : num) (s : mundo) :
  populacao_ok 1 (heap s) populacao [v] -> tamanho_pop self = 1%nat ->
  tabela_ok (componentes self) -> fitness self v = Ok f ->
  returns (geracao self populacao) s (fun res s' =>
    historico_custos res.1 = historico_custos self ++ [f] /\
    melhor_custo res.1
      = (if (f <? melhor_custo self)%num then f else melhor_custo self) /\
    mesma_config self res.1 /\
    populacao_ok 1 (heap s') res.2 [v] /\ gen s' = gen s).
Proof.
  intros Hok Hn Ht Hf.
  assert (Hok' : populacao_ok (tamanho_pop self) (heap s) populacao [v])
    by now rewrite Hn.
  destruct (geracao_inicio self populacao [v] s Hok' ltac:(lia) Ht)
    as (fit & j & mf & vj & self2 & h2 & sE & Hfit & Hfl & _ & Hmf & Hvj & Hlj
        & Hcfg & Hh & Hm & Hg & _ & HsE & Hger).
  simpl in Hfit. rewrite Hf in Hfit. injection Hfit as <-.
  destruct j as [|j]; [|now destruct j].
  injection Hmf as <-. injection Hvj as <-.
  pose proof Hcfg as (HP & _).
  assert (Hr : heap_read (heap sE) (ArrRef (length h2)) = Ok v)
    by (rewrite HsE; apply heap_read_new).
  assert (Hfim : geracao self populacao s
                 = Ok (self2, length (heap sE),
                       Mundo (gen sE) (heap sE ++ [Arr2 [v]]))).
  { rewrite Hger. cbn [encher length]. rewrite HP, Hn. cbn [Nat.ltb Nat.leb].
    rewrite ret_bind_eq. unfold np_array. cbn [mapM].
    unfold mbind at 1 2 3, M_bind, read. rewrite Hr. reflexivity. }
  eexists _, _. split; [exact Hfim|]. cbn [fst snd heap gen].
  split; [exact Hh|]. split; [exact Hm|]. split; [exact Hcfg|].
  split; [|exact Hg].
  split; [apply list_lookup_middle; reflexivity|].
  split; [reflexivity | now repeat constructor].
Qed.

Lemma laco_um (range : list nat) (self : AlgoritmoGenetico)
    (populacao : loc) (v : vec) (f : num) (s : mundo) :
  populacao_ok 1 (heap s) populacao [v] -> tamanho_pop self = 1%nat ->
  tabela_ok (componentes self) -> fitness self v = Ok f ->
  returns (laco range self populacao) s (fun res s' =>
    historico_custos res.1
    = historico_custos self ++ replicate (length range) f /\
    melhor_custo res.1
      = (if (f <? melhor_custo self)%num && negb (Nat.eqb (length range) 0)
         then f else melhor_custo self) /\
    mesma_config self res.1 /\ gen s' = gen s).
Proof.
  revert self populacao s.
  induction range as [|g range IH]; intros self populacao s Hok Hn Ht Hf;
    cbn [laco].
  - apply returns_ret. cbn [fst length replicate Nat.eqb negb].
    rewrite app_nil_r, andb_false_r. repeat split.
  - apply returns_bind.
    eapply returns_mono; [exact (geracao_um self populacao v f s Hok Hn Ht Hf)|].
    cbv beta. intros [self1 p1] s1 (Hh1 & Hm1 & Hcfg1 & Hok1 & Hg1).
    cbn [fst snd] in *.
    pose proof Hcfg1 as (HP & _ & _ & _ & _ & HC & HS).
    assert (Hf1 : fitness self1 v = Ok f).
    { rewrite <- Hf. unfold fitness, calcular_custo, calcular_penalidades,
        calcular_propriedades. now rewrite HC, HS. }
    eapply returns_mono.
    + apply (IH self1 p1 s1 Hok1); [congruence | congruence | exact Hf1].
    + cbv beta. intros [self' p'] s' (Hh & Hm & Hcfg & Hg). cbn [fst] in *.
      rewrite Hh, Hh1, <- app_assoc. cbn [length replicate Nat.eqb negb app].
      rewrite andb_true_r.
      split; [reflexivity|]. split.
      * rewrite Hm, Hm1.
        destruct (f <? melhor_custo self)%num eqn:E; cbn [andb].
        -- rewrite nltb_irrefl. reflexivity.
        -- rewrite E. reflexivity.
      * split; [eapply mesma_config_trans; eauto | congruence].
Qed.

(** X11. With [tamanho_pop = 1] [executar] returns whatever [torneio_k]
    is, 0 included: no tournament is held, the only individual is its own
    elite, and no draw is made after the population is created.  Every
    generation records the fitness of this individual, and so the history
    grows by [geracoes] copies of it. *)
Theorem executar_um_individuo (self : AlgoritmoGenetico) (s : mundo) :
  tamanho_pop self = 1%nat -> tabela_ok (componentes self) ->
  exists populacao s0 v f sol self' s',
    criar_populacao self s = Ok (populacao, s0) /\
    heap s0 !! populacao = Some (Arr2 [v]) /\ fitness self v = Ok f /\
    executar self s = Ok (sol, melhor_custo self', self', s') /\
    historico_custos self'
    = historico_custos self ++ replicate (geracoes self) f /\
    melhor_custo self'
    = (if (f <? melhor_custo self)%num && negb (Nat.eqb (geracoes self) 0)
       then f else melhor_custo self) /\
    gen s' = gen s0.
Proof.
  intros Hn Ht.
  destruct (criar_populacao_spec self s) as (p & s0 & Hc & rows & Hok & _).
  rewrite Hn in Hok. pose proof Hok as (Hp & Hlen & Hrows).
  destruct rows as [|v [|]]; try discriminate.
  inversion Hrows as [|? ? Hv _]; subst.
  destruct (fitness_ok self v Hv Ht) as (f & Hf).
  destruct (laco_um (seq 0 (geracoes self)) self p v f s0 Hok Hn Ht Hf)
    as ([self' p'] & s' & Hl & Hh & Hm & _ & Hg).
  cbn [fst] in *. rewrite length_seq in Hh, Hm.
  exists p, s0, v, f, (melhor_solucao self'), self', s'.
  split; [exact Hc|]. split; [exact Hp|]. split; [exact Hf|].
  split; [|auto].
  unfold executar. rewrite (bind_ok_eq _ _ _ _ _ Hc).
  now rewrite (bind_ok_eq _ _ _ _ _ Hl).
Qed.

(** *** The rows of the populations of a run *)

Lemma criar_populacao_candidatos (self : AlgoritmoGenetico) (s : mundo) :
  returns (criar_populacao self) s (fun populacao s' => exists rows,
    populacao_ok (tamanho_pop self) (heap s') populacao rows /\
    Forall candidato rows /\ heap s `prefix_of` heap s').
Proof.
  unfold criar_populacao.
  apply returns_bind. eapply returns_mono.
  - apply (replicateM_ext criar_individuo (fun _ => True)
             (fun h r => exists v, heap_read h r = Ok v /\ candidato v)
             (tamanho_pop self) s).
    + intros s1 _. eapply returns_mono; [apply criar_individuo_spec|].
      cbv beta. intros r s2 (w & Hl & Hw & -> & ->). split.
      * eexists. split; [apply heap_read_new|].
        apply normaliza_candidato; [exact Hl|].
        eapply Forall_impl; [exact Hw|]. intros x Hx. left.
        now apply unitario_fin_nneg.
      * now apply prefix_app_r.
    + auto.
    + intros h h' r (v & Hr & Hv) Hp. exists v.
      eauto using heap_read_prefix.
    + exact I.
  - cbv beta. intros inds s1 (Hlen & Hinds & Hs1).
    assert (Hle4 : Forall (le4 (heap s1)) inds).
    { eapply Forall_impl; [exact Hinds|]. intros r (v & Hr & Hv).
      exists v. split; [exact Hr | now apply candidato_entradas]. }
    eapply returns_mono; [exact (np_array_spec inds s1 Hle4)|]. cbv beta.
    intros l s' (rows & -> & Hs' & Hrows & Hl4 & _). exists rows. split.
    + split; [|split].
      * rewrite Hs'. apply list_lookup_middle. reflexivity.
      * apply Forall2_length in Hrows. congruence.
      * exact Hl4.
    + split; [eapply Forall2_read_candidato; eauto|].
      etransitivity; [exact Hs1|]. rewrite Hs'. now apply prefix_app_r.
Qed.

Lemma gerar_filho_candidato (self : AlgoritmoGenetico) (populacao : loc)
    (rows : list vec) (fitness_values : vec) (s : mundo) :
  populacao_ok (tamanho_pop self) (heap s) populacao rows ->
  Forall candidato rows ->
  (0 < tamanho_pop self)%nat -> (1 <= torneio_k self)%nat ->
  length fitness_values = tamanho_pop self ->
  returns (gerar_filho self populacao fitness_values) s (fun r s' =>
    (exists v, heap_read (heap s') r = Ok v /\ candidato v) /\
    heap s `prefix_of` heap s').
Proof.
  intros Hok Hcand Hn Hk Hfit. pose proof Hok as (Hp & Hlen & Hrows).
  unfold gerar_filho.
  assert (Hpos : (0 < length rows)%nat) by lia.
  assert (Hfl : length fitness_values = length rows) by lia.
  passo (selecao_torneio_spec self populacao rows fitness_values s
           Hp Hpos Hk Hfl).
  intros pai1 s1 (_ & _ & m1 & va & _ & _ & _ & Hva & _ & _ & -> & Hs1 & _).
  pose proof (Forall_lookup_1 _ _ _ _ Hcand Hva) as Hca.
  destruct (candidato_entradas va Hca) as (Hla & Hea).
  assert (Hp1 : heap s1 !! populacao = Some (Arr2 rows)).
  { rewrite Hs1. apply lookup_app_l_Some. exact Hp. }
  passo (selecao_torneio_spec self populacao rows fitness_values s1
           Hp1 Hpos Hk Hfl).
  intros pai2 s2 (_ & _ & m2 & vb & _ & _ & _ & Hvb & _ & _ & -> & Hs2 & _).
  pose proof (Forall_lookup_1 _ _ _ _ Hcand Hvb) as Hcb.
  destruct (candidato_entradas vb Hcb) as (Hlb & Heb).
  assert (Hra : heap_read (heap s2) (ArrRef (length (heap s))) = Ok va).
  { rewrite Hs2, Hs1. apply heap_read_app, heap_read_new. }
  assert (Hrb : heap_read (heap s2) (ArrRef (length (heap s1))) = Ok vb).
  { rewrite Hs2. apply heap_read_new. }
  passo (crossover_spec self _ _ va vb s2 Hra Hrb Hla Hlb).
  intros filho s3 (vc & -> & Hs3 & Hvc).
  assert (Hcc : candidato vc).
  { destruct (_ <? _)%num; [|congruence].
    destruct Hvc as (mascara & w & Hm & Hw & ->).
    apply normaliza_candidato.
    - exact (np_where_length mascara va vb w Hm Hla Hlb Hw).
    - exact (np_where_Forall _ mascara va vb w Hm Hla Hlb Hea Heb Hw). }
  destruct (candidato_entradas vc Hcc) as (Hlc & Hec).
  assert (Hrc : heap_read (heap s3) (ArrRef (length (heap s2))) = Ok vc).
  { rewrite Hs3. apply heap_read_new. }
  assert (Hpre : heap s `prefix_of` heap s2).
  { rewrite Hs2, Hs1. now apply prefix_app_r, prefix_app_r. }
  eapply returns_mono; [exact (mutacao_spec self _ vc s3 Hrc Hlc)|]. cbv beta.
  clear Hvc. intros r s'.
  destruct (Fin (random (gen s3)).1 <? taxa_mutacao self)%num.
  - intros (idx & y & ruido & Hy & Hpost). cbv zeta in Hpost.
    destruct Hpost as (-> & ->).
    rewrite Hs3. simpl heap_write. rewrite insert_last, length_app. simpl.
    split.
    + eexists. split.
      * replace (length (heap s2) + 1)%nat with
          (length (heap s2 ++ [Arr1 (<[idx:=(y + Fin ruido)%num]> vc)]))
          by (rewrite length_app; reflexivity).
        apply heap_read_new.
      * apply normaliza_candidato.
        -- now rewrite vabs_length, length_insert.
        -- now apply mutado_entradas.
    + now apply prefix_app_r, prefix_app_r.
  - intros (-> & ->). split.
    + exists vc. auto.
    + rewrite Hs3. now apply prefix_app_r.
Qed.

(** The best fitness of a generation against the fitness of the first
    row. *)
Lemma argmin_desce (fit : vec) (j : nat) (mf f0 : num) :
  np_argmin fit = Ok j -> fit !! j = Some mf -> fit !! 0%nat = Some f0 ->
  Forall (fun x => (x <? mf)%num = false) fit -> desce f0 mf.
Proof.
  intros Hj Hmf Hf0 Hmin.
  pose proof (Forall_lookup_1 _ _ _ _ Hmin Hf0) as Hlt. cbv beta in Hlt.
  destruct (is_nan mf) eqn:Emf; [right; now apply is_nan_true|].
  apply is_nan_false in Emf.
  destruct (is_nan f0) eqn:Ef0.
  - apply is_nan_true in Ef0. subst f0.
    destruct fit as [|x fit']; [discriminate|]. injection Hf0 as ->.
    simpl in Hj. injection Hj as <-. simpl in Hmf. congruence.
  - apply is_nan_false in Ef0. left. now apply nleb_total.
Qed.

(** One generation on a population of candidates. *)
Lemma geracao_forte (self : AlgoritmoGenetico) (populacao : loc)
    (rows : list vec) (s : mundo) :
  populacao_ok (tamanho_pop self) (heap s) populacao rows ->
  Forall candidato rows ->
  (0 < tamanho_pop self)%nat -> (1 <= torneio_k self)%nat ->
  tabela_ok (componentes self) ->
  returns (geracao self populacao) s (fun res s' => exists mf vj rows',
    historico_custos res.1 = historico_custos self ++ [mf] /\
    melhor_custo res.1
      = (if (mf <? melhor_custo self)%num then mf else melhor_custo self) /\
    (if (mf <? melhor_custo self)%num
     then exists r, melhor_solucao res.1 = Some r /\
                    heap_read (heap s') r = Ok vj
     else melhor_solucao res.1 = melhor_solucao self) /\
    candidato vj /\ fitness self vj = Ok mf /\
    (forall v0 f0, rows !! 0%nat = Some v0 -> fitness self v0 = Ok f0 ->
                   desce f0 mf) /\
    mesma_config self res.1 /\
    populacao_ok (tamanho_pop self) (heap s') res.2 rows' /\
    Forall candidato rows' /\ rows' !! 0%nat = Some vj /\
    heap s `prefix_of` heap s').
Proof.
  intros Hok Hcand Hn Hk Ht.
  eapply returns_mono; [exact (geracao_spec self populacao rows s Hok Hn Hk Ht)|].
  intros [self1 p1] s'
    (fit & j & mf & vj & rows' & sa & filhos & sb & Hfit & Hj & Hmf & Hvj
     & Hmin & Hh & Hm & Hms & Hcfg & Hok' & Hpre & H0 & Hga & Hha & Hrep & Hp'
     & Hs' & Hg' & Hf2).
  cbn [fst snd] in *.
  pose proof (mapM_Forall2 _ _ _ Hfit) as Hall.
  pose proof (Forall_lookup_1 _ _ _ _ Hcand Hvj) as Hcj.
  exists mf, vj, rows'.
  split; [exact Hh|]. split; [exact Hm|]. split; [exact Hms|].
  split; [exact Hcj|].
  split; [exact (Forall2_lookup_lr _ _ _ _ _ _ Hall Hvj Hmf)|].
  split.
  { intros v0 f0 Hv0 Hf0.
    destruct (Forall2_lookup_l _ _ _ _ _ Hall Hv0) as (y & Hy & Hfy).
    assert (y = f0) by congruence. subst y.
    exact (argmin_desce fit j mf f0 Hj Hmf Hy Hmin). }
  split; [exact Hcfg|]. split; [exact Hok'|].
  split; [|split; [exact H0 | exact Hpre]].
  pose proof Hcfg as (HP & _ & _ & _ & HK & _).
  assert (Hfl : length fit = tamanho_pop self).
  { apply Forall2_length in Hall. destruct Hok as (_ & Hlen & _). lia. }
  assert (Hoka : populacao_ok (tamanho_pop self1) (heap sa) populacao rows).
  { rewrite HP. eapply populacao_ok_prefix; [exact Hok|].
    rewrite Hha. now apply prefix_app_r. }
  destruct (replicateM_ext (gerar_filho self1 populacao fit)
              (fun h => populacao_ok (tamanho_pop self1) h populacao rows)
              (fun h r => exists v, heap_read h r = Ok v /\ candidato v)
              (tamanho_pop self - 1) sa) as (xs & sx & Hrep' & _ & Hxs & _).
  { intros s1 Hs1. eapply returns_mono.
    - apply (gerar_filho_candidato self1 populacao rows fit s1 Hs1 Hcand); lia.
    - cbv beta. auto. }
  { intros h h' Hh1 Hp1. eapply populacao_ok_prefix; eauto. }
  { intros h h' r (v & Hr & Hv) Hp1. exists v. eauto using heap_read_prefix. }
  { exact Hoka. }
  rewrite Hrep in Hrep'. injection Hrep' as <- <-.
  destruct rows' as [|r0 rt]; [discriminate|]. injection H0 as ->.
  constructor; [exact Hcj|].
  eapply Forall2_read_candidato; eauto.
Qed.

Lemma melhor_ok_passo (self self1 : AlgoritmoGenetico) (mf : num) (vj : vec)
    (h h' : list obj) :
  tabela_ok (componentes self) -> mesma_config self self1 ->
  melhor_custo self1
    = (if (mf <? melhor_custo self)%num then mf else melhor_custo self) ->
  (if (mf <? melhor_custo self)%num
   then exists r, melhor_solucao self1 = Some r /\ heap_read h' r = Ok vj
   else melhor_solucao self1 = melhor_solucao self) ->
  candidato vj -> fitness self vj = Ok mf -> h `prefix_of` h' ->
  melhor_ok self h -> melhor_ok self1 h'.
Proof.
  intros Ht Hcfg Hm Hms Hcj Hfj Hpre Hmo. unfold melhor_ok in *.
  destruct (mf <? melhor_custo self)%num eqn:Hlt.
  - destruct Hms as (r & -> & Hr). exists vj. split; [exact Hr|].
    rewrite (fitness_config self self1 vj Hcfg), Hm. split; [|exact Hfj].
    destruct Hcj as [Hv| ->]; [exact Hv|].
    rewrite (fitness_nan self nan4 Ht eq_refl) in Hfj by now left.
    injection Hfj as <-. now destruct (melhor_custo self).
  - rewrite Hms, Hm. destruct (melhor_solucao self) as [r|]; [|exact I].
    destruct Hmo as (v & Hr & Hv & Hf). exists v.
    rewrite (fitness_config self self1 v Hcfg).
    eauto using heap_read_prefix.
Qed.

(** The [for] loop on a population of candidates. *)
Lemma laco_forte (range : list nat) (self : AlgoritmoGenetico)
    (populacao : loc) (rows : list vec) (s : mundo) :
  populacao_ok (tamanho_pop self) (heap s) populacao rows ->
  Forall candidato rows ->
  (0 < tamanho_pop self)%nat -> (1 <= torneio_k self)%nat ->
  tabela_ok (componentes self) ->
  returns (laco range self populacao) s (fun res s' => exists hs,
    historico_custos res.1 = historico_custos self ++ hs /\
    length hs = length range /\ cadeia hs /\
    (forall v0 f0 e, rows !! 0%nat = Some v0 -> fitness self v0 = Ok f0 ->
                     hs !! 0%nat = Some e -> desce f0 e) /\
    Forall (registrado self) hs /\
    acompanha (melhor_custo self) hs (melhor_custo res.1) /\
    (melhor_ok self (heap s) -> melhor_ok res.1 (heap s')) /\
    (melhor_solucao res.1 = None ->
     melhor_solucao self = None /\ melhor_custo res.1 = melhor_custo self) /\
    mesma_config self res.1 /\ heap s `prefix_of` heap s' /\
    exists rows',
      populacao_ok (tamanho_pop self) (heap s') res.2 rows' /\
      Forall candidato rows').
Proof.
  revert self populacao rows s.
  induction range as [|g range IH];
    intros self populacao rows s Hok Hcand Hn Hk Ht; cbn [laco].
  - apply returns_ret. exists []. cbn [fst]. rewrite app_nil_r.
    split; [reflexivity|]. split; [reflexivity|].
    split; [intros i x y Hx; discriminate|].
    split; [intros v0 f0 e _ _ He; discriminate|].
    split; [constructor|]. split; [apply acompanha_nil|].
    split; [auto|]. split; [auto|].
    split; [apply mesma_config_refl|]. split; [reflexivity|].
    exists rows. auto.
  - apply returns_bind.
    eapply returns_mono;
      [exact (geracao_forte self populacao rows s Hok Hcand Hn Hk Ht)|].
    cbv beta. intros [self1 p1] s1
      (mf & vj & rows1 & Hh1 & Hm1 & Hms1 & Hcj & Hfj & Hd & Hcfg1 & Hok1
       & Hcand1 & H01 & Hs1).
    cbn [fst snd] in *.
    pose proof Hcfg1 as (HP & _ & _ & _ & HK & HC & _).
    rewrite <- HP in Hok1.
    eapply returns_mono.
    + apply (IH self1 p1 rows1 s1 Hok1 Hcand1); congruence.
    + cbv beta. intros [self' p'] s'
        (hs & Hh & Hl & Hcad & Hhead & Hreg & Hac & Hmo & Hnone & Hcfg & Hs'
         & rows' & Hok' & Hcand').
      cbn [fst snd] in *.
      exists (mf :: hs). rewrite Hh, Hh1, <- app_assoc.
      split; [reflexivity|]. split; [simpl; congruence|].
      split.
      { apply cadeia_cons; [|exact Hcad]. intros e He.
        apply (Hhead vj mf e H01); [|exact He].
        now rewrite (fitness_config self self1 vj Hcfg1). }
      split.
      { intros v0 f0 e Hv0 Hf0 He. injection He as <-. eauto. }
      split.
      { constructor; [exists vj; auto|].
        eapply Forall_impl; [exact Hreg|]. intros x (v & Hv & Hf).
        exists v. split; [exact Hv|].
        now rewrite <- (fitness_config self self1 v Hcfg1). }
      split.
      { change (mf :: hs) with ([mf] ++ hs).
        eapply acompanha_trans; [|exact Hac]. rewrite Hm1.
        apply acompanha_passo. }
      split.
      { intros Hmo0. apply Hmo.
        eapply melhor_ok_passo; eauto. }
      split.
      { intros Hn'. destruct (Hnone Hn') as (Hn1 & Hc1).
        destruct (mf <? melhor_custo self)%num.
        - destruct Hms1 as (r & Hr & _). congruence.
        - split; congruence. }
      split; [eapply mesma_config_trans; eauto|].
      split; [etransitivity; eauto|].
      exists rows'. split; [now rewrite <- HP | exact Hcand'].
Qed.

Lemma executar_forte (self : AlgoritmoGenetico) (s : mundo) :
  (0 < tamanho_pop self)%nat -> (1 <= torneio_k self)%nat ->
  tabela_ok (componentes self) ->
  returns (executar self) s (fun res s' => exists hs,
    res.1.1 = melhor_solucao res.2 /\ res.1.2 = melhor_custo res.2 /\
    historico_custos res.2 = historico_custos self ++ hs /\
    length hs = geracoes self /\ cadeia hs /\
    Forall (registrado self) hs /\
    acompanha (melhor_custo self) hs (melhor_custo res.2) /\
    (melhor_ok self (heap s) -> melhor_ok res.2 (heap s')) /\
    (melhor_solucao res.2 = None ->
     melhor_solucao self = None /\ melhor_custo res.2 = melhor_custo self) /\
    mesma_config self res.2).
Proof.
  intros Hn Hk Ht. unfold executar.
  passo (criar_populacao_candidatos self s).
  intros p s1 (rows & Hok & Hcand & Hpre).
  passo (laco_forte (seq 0 (geracoes self)) self p rows s1 Hok Hcand Hn Hk Ht).
  intros [self' p'] s'
    (hs & Hh & Hl & Hcad & _ & Hreg & Hac & Hmo & Hnone & Hcfg & _ & _).
  apply returns_ret. exists hs. cbn [fst snd] in *.
  rewrite length_seq in Hl.
  do 7 (split; [auto|]). split; [|auto].
  intros Hmo0. apply Hmo. eapply melhor_ok_prefix; eauto.
Qed.

(** X12. In a run no generation records a best fitness above that of the
    generation before it, the elite being a row of the next population: a
    value of the history that a run adds is at most the value before it,
    or it is [nan]; and once a [nan] is recorded, every later value of the
    run is [nan]. *)
Theorem historico_nao_sobe (self : AlgoritmoGenetico) (s : mundo) :
  (0 < tamanho_pop self)%nat -> (1 <= torneio_k self)%nat ->
  tabela_ok (componentes self) ->
  exists sol custo self' s' hs,
    executar self s = Ok (sol, custo, self', s') /\
    historico_custos self' = historico_custos self ++ hs /\
    length hs = geracoes self /\
    (forall i x y, hs !! i = Some x -> hs !! S i = Some y ->
                   (y <=? x)%num = true \/ y = NaN) /\
    (forall i j y, (i <= j)%nat -> hs !! i = Some NaN -> hs !! j = Some y ->
                   y = NaN).
Proof.
  intros Hn Hk Ht.
  destruct (executar_forte self s Hn Hk Ht)
    as ([[sol custo] self'] & s' & Hex & hs & _ & _ & Hh & Hl & Hcad & _).
  cbn [fst snd] in *. exists sol, custo, self', s', hs.
  split; [exact Hex|]. split; [exact Hh|]. split; [exact Hl|].
  split; [exact Hcad|].
  intros i j y. now apply cadeia_nan.
Qed.

(** X13. The pair that [executar] returns is consistent: the solution is
    an array that holds a candidate, four non-negative entries that sum
    to 1 and never four [nan], whose fitness is the cost returned; when no
    solution is returned ([None]) the instance had none, the cost is the
    one it had and no generation has recorded a value below it. *)
Theorem executar_solucao_e_custo (self : AlgoritmoGenetico) (s : mundo) :
  (0 < tamanho_pop self)%nat -> (1 <= torneio_k self)%nat ->
  tabela_ok (componentes self) -> melhor_ok self (heap s) ->
  exists sol custo self' s' hs,
    executar self s = Ok (sol, custo, self', s') /\
    historico_custos self' = historico_custos self ++ hs /\
    (custo = melhor_custo self \/ In custo hs) /\
    match sol with
    | Some r =>
        exists v, heap_read (heap s') r = Ok v /\ valido v /\
                  fitness self v = Ok custo
    | None =>
        melhor_solucao self = None /\ custo = melhor_custo self /\
        Forall (fun x => (x <? custo)%num = false) hs
    end.
Proof.
  intros Hn Hk Ht Hmo.
  destruct (executar_forte self s Hn Hk Ht)
    as ([[sol custo] self'] & s' & Hex & hs & Hsol & Hcu & Hh & _ & _ & _
        & Hac & Hmo' & Hnone & Hcfg).
  cbn [fst snd] in *. exists sol, custo, self', s', hs.
  split; [exact Hex|]. split; [exact Hh|].
  destruct Hac as (Hin & Hall & _). rewrite <- Hcu in Hin, Hall.
  split; [destruct Hin as [<-|Hin]; auto|].
  specialize (Hmo' Hmo). unfold melhor_ok in Hmo'. rewrite <- Hsol in Hmo'.
  destruct sol as [r|].
  - destruct Hmo' as (v & Hr & Hv & Hf). exists v.
    rewrite (fitness_config self self' v Hcfg), <- Hcu in Hf. auto.
  - destruct (Hnone (eq_sym Hsol)) as (Hn0 & Hc0).
    split; [exact Hn0|]. split; [congruence | exact Hall].
Qed.

(** X14. On the table of the program every row of every population of a
    run has four non-negative entries whose sum is within 1e-9 of 1, or is
    made of four [nan], and so no run records a value below 2.2588: every
    value recorded is [nan] or at least 2.2588,
    and the best cost returned is the one the instance had, or one of
    these values, at least 2.2588. *)
Theorem executar_custo_minimo (self : AlgoritmoGenetico) (s : mundo) :
  padrao self -> (0 < tamanho_pop self)%nat -> (1 <= torneio_k self)%nat ->
  exists populacao s0 sol custo self' s' hs,
    criar_populacao self s = Ok (populacao, s0) /\
    (forall g, exists self_g pop_g s_g rows_g,
       laco (seq 0 g) self populacao s0 = Ok (self_g, pop_g, s_g) /\
       heap s_g !! pop_g = Some (Arr2 rows_g) /\
       length rows_g = tamanho_pop self /\
       Forall (fun v => tolerancia v \/ v = nan4) rows_g) /\
    executar self s = Ok (sol, custo, self', s') /\
    historico_custos self' = historico_custos self ++ hs /\
    Forall (fun x => x = NaN \/ exists f, x = Fin f /\ (2.2588 <= f)%Q) hs /\
    (custo = melhor_custo self
     \/ exists f, custo = Fin f /\ (2.2588 <= f)%Q /\ In custo hs).
Proof.
  intros Hp Hn Hk. pose proof (padrao_tabela_ok self Hp) as Ht.
  destruct (criar_populacao_candidatos self s)
    as (p & s0 & Hc & rows & Hok & Hcand & _).
  destruct (laco_forte (seq 0 (geracoes self)) self p rows s0 Hok Hcand
              Hn Hk Ht)
    as ([self' p'] & s' & Hl & hs & Hh & _ & _ & _ & Hreg & Hac & _).
  cbn [fst snd] in *.
  exists p, s0, (melhor_solucao self'), (melhor_custo self'), self', s', hs.
  split; [exact Hc|]. split.
  { intros g.
    destruct (laco_forte (seq 0 g) self p rows s0 Hok Hcand Hn Hk Ht)
      as ([self_g p_g] & s_g & Hlg & _ & _ & _ & _ & _ & _ & _ & _ & _ & _
          & _ & rows_g & (Hpg & Hlen & _) & Hcg).
    cbn [fst snd] in *. exists self_g, p_g, s_g, rows_g.
    do 3 (split; [assumption|]).
    eapply Forall_impl; [exact Hcg|].
    intros v [Hv|Hv]; [left; now apply valido_tolerancia | now right]. }
  split.
  { unfold executar. rewrite (bind_ok_eq _ _ _ _ _ Hc).
    now rewrite (bind_ok_eq _ _ _ _ _ Hl). }
  split; [exact Hh|].
  assert (Hmin : Forall (fun x => x = NaN
                   \/ exists f, x = Fin f /\ (2.2588 <= f)%Q) hs).
  { eapply Forall_impl; [exact Hreg|]. intros x.
    exact (registrado_minimo self x Hp). }
  split; [exact Hmin|].
  destruct Hac as (Hin & _ & [Heq|Hlt]); [now left|].
  destruct Hin as [Hin|Hin]; [now left | right].
  rewrite Forall_forall in Hmin. apply list_elem_of_In in Hin.
  destruct (Hmin _ Hin) as [Hnan|(f & Hf & Hle)].
  - rewrite Hnan in Hlt. discriminate Hlt.
  - exists f. split; [exact Hf|]. split; [exact Hle|].
    now apply list_elem_of_In.
Qed.

(** X15. A run on an instance that [__init__] has just built, with at
    least one individual and one draw per tournament, returns, with one
    value recorded per generation.  Either it returns [None] and infinity,
    every value recorded being [nan], or it returns an array that holds a
    candidate and, as the cost, the fitness of this candidate: a finite
    value of at least 2.2588 that is recorded and that no recorded value
    is below. *)
Theorem executar_instancia_nova (tam : nat) (tc tm : num) (ger k : nat)
    (s : mundo) :
  (0 < tam)%nat -> (1 <= k)%nat ->
  let ga := AlgoritmoGenetico_init tam tc tm ger k in
  exists sol custo ga' s',
    executar ga s = Ok (sol, custo, ga', s') /\
    length (historico_custos ga') = ger /\
    match sol with
    | None => custo = PInf /\ Forall (fun x => x = NaN) (historico_custos ga')
    | Some r =>
        exists v f,
          heap_read (heap s') r = Ok v /\ valido v /\ custo = Fin f /\
          fitness ga v = Ok (Fin f) /\ (2.2588 <= f)%Q /\
          In (Fin f) (historico_custos ga') /\
          Forall (fun x => x = NaN \/ exists g, x = Fin g /\ (f <= g)%Q)
            (historico_custos ga')
    end.
Proof.
  intros Hn Hk ga.
  assert (Hp : padrao ga) by (split; reflexivity).
  destruct (executar_forte ga s Hn Hk (padrao_tabela_ok ga Hp))
    as ([[sol custo] ga'] & s' & Hex & hs & Hsol & Hcu & Hh & Hl & _ & Hreg
        & Hac & Hmo & Hnone & Hcfg).
  cbn [fst snd] in *. change (historico_custos ga) with (@nil num) in Hh.
  change (melhor_custo ga) with PInf in Hac, Hnone.
  change (geracoes ga) with ger in Hl.
  rewrite app_nil_l in Hh.
  exists sol, custo, ga', s'. rewrite Hh.
  split; [exact Hex|]. split; [exact Hl|].
  assert (Hmin : Forall (fun x => x = NaN
                   \/ exists f, x = Fin f /\ (2.2588 <= f)%Q) hs).
  { eapply Forall_impl; [exact Hreg|]. intros x.
    exact (registrado_minimo ga x Hp). }
  rewrite <- Hcu in Hac. destruct Hac as (Hin & Hall & _).
  specialize (Hmo I). unfold melhor_ok in Hmo. rewrite <- Hsol, <- Hcu in Hmo.
  destruct sol as [r|].
  - destruct Hmo as (v & Hr & Hv & Hf).
    rewrite (fitness_config ga ga' v Hcfg) in Hf.
    destruct (fitness_tolerancia_minimo ga v Hp (valido_tolerancia v Hv))
      as (f & Hf' & Hle).
    assert (Hc : custo = Fin f) by congruence.
    rewrite Hc in Hin, Hall, Hf.
    exists v, f. do 5 (split; [auto|]). split.
    + destruct Hin as [Hin|Hin]; [discriminate Hin | exact Hin].
    + rewrite Forall_forall in *. intros x Hx.
      specialize (Hall x Hx). cbv beta in Hall.
      destruct (Hmin x Hx) as [->|(g & -> & _)]; [now left | right].
      exists g. split; [reflexivity|]. simpl in Hall.
      now apply Qltb_ge in Hall.
  - destruct (Hnone (eq_sym Hsol)) as (_ & Hc). rewrite <- Hcu in Hc.
    rewrite Hc in Hall. split; [exact Hc|].
    rewrite Forall_forall in *. intros x Hx.
    specialize (Hall x Hx). cbv beta in Hall.
    destruct (Hmin x Hx) as [->|(g & -> & _)]; [reflexivity | discriminate].
Qed.

End Corrida.

(** ** More concrete runs *)

(** Tournaments of no individual on the population of [puro1] and
    [puro2]. *)
Lemma selecao_torneio_sem_candidatos_witness :
  selecao_torneio ga_sem_torneio 0%nat fitness_puros mundo_torneio
  = Raise ValueError.
Proof.
  apply (selecao_torneio_sem_candidatos ga_sem_torneio 0%nat [puro1; puro2]
           fitness_puros mundo_torneio).
  - reflexivity.
  - left. reflexivity.
Defined.

(** [mutacao] with the rate 1 on [puro1]. *)
Lemma mutacao_no_lugar_witness :
  let u := Fin (random (gen mundo_mutacao)).1 in
  ((taxa_mutacao ga_toda_mutacao <=? Fin 0)%num = true ->
   (u <? taxa_mutacao ga_toda_mutacao)%num = false)
  /\ ((Fin 1 <=? taxa_mutacao ga_toda_mutacao)%num = true ->
      (u <? taxa_mutacao ga_toda_mutacao)%num = true)
  /\ ((u <? taxa_mutacao ga_toda_mutacao)%num = false ->
      mutacao ga_toda_mutacao (ArrRef 0) mundo_mutacao
      = Ok (ArrRef 0,
            Mundo (random (gen mundo_mutacao)).2 (heap mundo_mutacao)))
  /\ ((u <? taxa_mutacao ga_toda_mutacao)%num = true ->
      returns (mutacao ga_toda_mutacao (ArrRef 0)) mundo_mutacao
        (fun r s' =>
           exists idx y ruido,
             (idx < 4)%nat /\ puro1 !! idx = Some y /\
             let v' := <[idx := (y + Fin ruido)%num]> puro1 in
             heap_read (heap s') (ArrRef 0) = Ok v' /\
             r = ArrRef (length (heap mundo_mutacao)) /\ r <> ArrRef 0 /\
             heap_read (heap s') r = Ok (vdiv (vabs v') (vsum (vabs v'))) /\
             length (heap s') = S (length (heap mundo_mutacao)))).
Proof.
  apply (mutacao_no_lugar ga_toda_mutacao (ArrRef 0) puro1 mundo_mutacao).
  - reflexivity.
  - reflexivity.
Defined.

(** The crossover of the equal blend with itself. *)
Lemma crossover_pais_iguais_witness :
  returns (crossover ga_padrao (ArrRef 0) (ArrRef 1)) mundo_gemeos
    (fun r s' => exists x,
       r = ArrRef (length (heap mundo_gemeos)) /\
       heap s' = heap mundo_gemeos ++ [Arr1 x] /\
       x = (if (Fin (random (gen mundo_gemeos)).1
                <? taxa_crossover ga_padrao)%num
            then vdiv blend_igual (vsum blend_igual) else blend_igual) /\
       ((vsum blend_igual == Fin 1)%num -> Forall2 num_eq x blend_igual)).
Proof.
  apply (crossover_pais_iguais ga_padrao (ArrRef 0) (ArrRef 1) blend_igual
           mundo_gemeos).
  - reflexivity.
  - reflexivity.
  - reflexivity.
Defined.

(** A run of no generation. *)
Lemma executar_sem_geracoes_witness :
  exists s',
    executar ga_sem_geracoes mundo_inicial
    = Ok (melhor_solucao ga_sem_geracoes, melhor_custo ga_sem_geracoes,
          ga_sem_geracoes, s') /\
    heap mundo_inicial `prefix_of` heap s'.
Proof.
  apply (executar_sem_geracoes ga_sem_geracoes mundo_inicial).
  reflexivity.
Defined.

(** A run without individuals. *)
Lemma executar_populacao_vazia_witness :
  executar ga_vazio mundo_inicial = Raise ValueError.
Proof.
  apply (executar_populacao_vazia ga_vazio mundo_inicial).
  - simpl. lia.
  - reflexivity.
Defined.

(** A run with tournaments of no individual. *)
Lemma executar_torneio_vazio_witness :
  executar ga_sem_torneio mundo_inicial = Raise ValueError.
Proof.
  apply (executar_torneio_vazio ga_sem_torneio mundo_inicial).
  - simpl. lia.
  - simpl. lia.
  - reflexivity.
  - repeat split.
Defined.

(** A run of three generations on one individual. *)
Lemma executar_um_individuo_witness :
  exists populacao s0 v f sol self' s',
    criar_populacao ga_um mundo_inicial = Ok (populacao, s0) /\
    heap s0 !! populacao = Some (Arr2 [v]) /\ fitness ga_um v = Ok f /\
    executar ga_um mundo_inicial = Ok (sol, melhor_custo self', self', s') /\
    historico_custos self'
    = historico_custos ga_um ++ replicate (geracoes ga_um) f /\
    melhor_custo self'
    = (if (f <? melhor_custo ga_um)%num
          && negb (Nat.eqb (geracoes ga_um) 0)
       then f else melhor_custo ga_um) /\
    gen s' = gen s0.
Proof.
  apply (executar_um_individuo ga_um mundo_inicial).
  - reflexivity.
  - repeat split.
Defined.

(** The run of two generations on a population of two. *)
Lemma historico_nao_sobe_witness :
  exists sol custo self' s' hs,
    executar ga_pequeno mundo_inicial = Ok (sol, custo, self', s') /\
    historico_custos self' = historico_custos ga_pequeno ++ hs /\
    length hs = geracoes ga_pequeno /\
    (forall i x y, hs !! i = Some x -> hs !! S i = Some y ->
                   (y <=? x)%num = true \/ y = NaN) /\
    (forall i j y, (i <= j)%nat -> hs !! i = Some NaN -> hs !! j = Some y ->
                   y = NaN).
Proof.
  apply (historico_nao_sobe ga_pequeno mundo_inicial).
  - simpl. lia.
  - simpl. lia.
  - repeat split.
Defined.

Lemma executar_solucao_e_custo_witness :
  exists sol custo self' s' hs,
    executar ga_pequeno mundo_inicial = Ok (sol, custo, self', s') /\
    historico_custos self' = historico_custos ga_pequeno ++ hs /\
    (custo = melhor_custo ga_pequeno \/ In custo hs) /\
    match sol with
    | Some r =>
        exists v, heap_read (heap s') r = Ok v /\ valido v /\
                  fitness ga_pequeno v = Ok custo
    | None =>
        melhor_solucao ga_pequeno = None /\
        custo = melhor_custo ga_pequeno /\
        Forall (fun x => (x <? custo)%num = false) hs
    end.
Proof.
  apply (executar_solucao_e_custo ga_pequeno mundo_inicial).
  - simpl. lia.
  - simpl. lia.
  - repeat split.
  - exact I.
Defined.

Lemma executar_custo_minimo_witness :
  exists populacao s0 sol custo self' s' hs,
    criar_populacao ga_pequeno mundo_inicial = Ok (populacao, s0) /\
    (forall g, exists self_g pop_g s_g rows_g,
       laco (seq 0 g) ga_pequeno populacao s0 = Ok (self_g, pop_g, s_g) /\
       heap s_g !! pop_g = Some (Arr2 rows_g) /\
       length rows_g = tamanho_pop ga_pequeno /\
       Forall (fun v => tolerancia v \/ v = nan4) rows_g) /\
    executar ga_pequeno mundo_inicial = Ok (sol, custo, self', s') /\
    historico_custos self' = historico_custos ga_pequeno ++ hs /\
    Forall (fun x => x = NaN \/ exists f, x = Fin f /\ (2.2588 <= f)%Q) hs /\
    (custo = melhor_custo ga_pequeno
     \/ exists f, custo = Fin f /\ (2.2588 <= f)%Q /\ In custo hs).
Proof.
  apply (executar_custo_minimo ga_pequeno mundo_inicial).
  - split; reflexivity.
  - simpl. lia.
  - simpl. lia.
Defined.

(** The instance of two individuals, two generations and tournaments of
    two, as [__init__] builds it. *)
Lemma executar_instancia_nova_witness :
  let ga := AlgoritmoGenetico_init 2 TAXA_CROSSOVER TAXA_MUTACAO 2 2 in
  exists sol custo ga' s',
    executar ga mundo_inicial = Ok (sol, custo, ga', s') /\
    length (historico_custos ga') = 2%nat /\
    match sol with
    | None => custo = PInf /\ Forall (fun x => x = NaN) (historico_custos ga')
    | Some r =>
        exists v f,
          heap_read (heap s') r = Ok v /\ valido v /\ custo = Fin f /\
          fitness ga v = Ok (Fin f) /\ (2.2588 <= f)%Q /\
          In (Fin f) (historico_custos ga') /\
          Forall (fun x => x = NaN \/ exists g, x = Fin g /\ (f <= g)%Q)
            (historico_custos ga')
    end.
Proof.
  apply (executar_instancia_nova 2 TAXA_CROSSOVER TAXA_MUTACAO 2 2
           mundo_inicial).
  - lia.
  - lia.
Defined.
